(** * object-helpers: path-addressed reads and writes on nested JavaScript values

    A shallow embedding of [getObjectType], [findDirectPropInObject],
    [findPropInObject], [queryObject], [mergeObjects], [deepCopy],
    [deepCompare] and [applyDefaults].

    The functions mutate arrays and objects in place and rely on aliasing
    (a clone is written through a second reference to it), so objects live
    in a store and values hold references into it.  Every operation is a
    computation in a state-and-exception monad over that store.

    Boundaries of the model, where JavaScript has more than is embedded:
    - numbers are integers, which the platform has exactly up to [2^53]
      in magnitude; fractions and what floating point does beyond that
      are left out;
    - strings are sequences of 8-bit code units;
    - the objects are arrays, plain objects (mappings) and functions;
    - the prototypes are those of ECMAScript 2024 with Annex B,
      unmodified: an array, a mapping and a function have
      [Array.prototype], [Object.prototype] and [Function.prototype] for
      prototype.  The names of their members are part of the model, their
      values are not: reading a member that the object does not shadow
      with a property of its own is the outcome [Stuck], and so is a call
      of a method that an object of the store supplies in the place of a
      built-in one ([toString], [join], [splice], ...), or a write that
      would change the prototype of an object;
    - properties have string keys and are data properties, writable,
      enumerable and configurable, and no object is frozen;
    - user functions (value transformers) and the platform's [ToNumber]
      on strings and objects are parameters of the development;
    - temporaries that never escape a call (the array [Object.keys]
      returns, the array of removed elements [splice] returns) are not
      allocated in the store;
    - unbounded recursion is cut by a recursion budget; exhausting it is
      the outcome [Stuck], as is following a reference to no object.

    [Stuck] is never a result of the code: a statement that an operation
    returns or raises says so with [Ok] or [Throw]. *)

From Stdlib Require Import ZArith String Ascii.
From stdpp Require Import base tactics option list strings pretty.

Local Open Scope string_scope.
Local Open Scope Z_scope.
Local Open Scope nat_scope.
Local Open Scope list_scope.

(** ** Values and the store *)

Abbreviation loc := nat (only parsing).
Abbreviation fid := nat (only parsing).

Inductive value : Type :=
| VUndef
| VNull
| VBool (b : bool)
| VNum (n : Z)
| VStr (s : string)
| VRef (l : loc).

#[global] Instance value_eq_dec : EqDecision value.
Proof. solve_decision. Defined.

(** An array has indexed elements, some of which may be holes, and named
    properties beside them; a function is an object with properties too. *)
Inductive cell : Type :=
| CArr (elems : list (option value)) (named : list (string * value))
| CObj (props : list (string * value))
| CFun (code : fid) (src : string) (props : list (string * value)).

Abbreviation heap := (list cell).

(** The tags [getObjectType] can return for the values of the model. *)
Inductive jstype : Type :=
| TUndefined | TNull | TBoolean | TNumber | TString | TFunction | TArray | TObject.

#[global] Instance jstype_eq_dec : EqDecision jstype.
Proof. solve_decision. Defined.

Definition type_name (t : jstype) : string :=
  match t with
  | TUndefined => "undefined" | TNull => "null" | TBoolean => "boolean"
  | TNumber => "number" | TString => "string" | TFunction => "function"
  | TArray => "array" | TObject => "object"
  end.

(** A property key as the code passes it: a string, or a number such as
    the [0] and [itemIndex] of [findDirectPropInObject]. *)
Inductive propname : Type :=
| PStr (s : string)
| PIdx (i : nat).

#[global] Instance propname_eq_dec : EqDecision propname.
Proof. solve_decision. Defined.

Inductive exn : Type := TypeError | RangeError.

Inductive res (A : Type) : Type :=
| Ok (a : A) (h : heap)
| Throw (e : exn) (h : heap)
| Stuck.
Arguments Ok {A} a h.
Arguments Throw {A} e h.
Arguments Stuck {A}.

Definition M (A : Type) : Type := heap -> res A.

Definition ret {A} (a : A) : M A := fun h => Ok a h.
Definition bind {A B} (m : M A) (k : A -> M B) : M B :=
  fun h => match m h with
           | Ok a h' => k a h'
           | Throw e h' => Throw e h'
           | Stuck => Stuck
           end.
Definition throw {A} (e : exn) : M A := fun h => Throw e h.
Definition stuck {A} : M A := fun _ => Stuck.

Declare Scope js_scope.
Delimit Scope js_scope with js.
Notation "'let*' x ':=' m 'in' k" := (bind m (fun x => k))
  (at level 10, x name, m at level 100, k at level 200) : js_scope.
Notation "m ';;;' k" := (bind m (fun _ => k))
  (at level 100, k at level 200, right associativity) : js_scope.
Local Open Scope js_scope.

Definition get_heap : M heap := fun h => Ok h h.
Definition put_heap (h' : heap) : M unit := fun _ => Ok tt h'.

Definition alloc (c : cell) : M value :=
  fun h => Ok (VRef (length h)) (h ++ [c]).

Definition read_cell (l : loc) : M cell :=
  fun h => match h !! l with Some c => Ok c h | None => Stuck end.

Definition write_cell (l : loc) (c : cell) : M unit :=
  fun h => match h !! l with
           | Some _ => Ok tt (<[l := c]> h)
           | None => Stuck
           end.

(** ** Keys *)

Definition key_string (p : propname) : string :=
  match p with PStr s => s | PIdx i => pretty i end.

Definition digit_of (c : ascii) : option N :=
  let n := N_of_ascii c in
  if ((48 <=? n) && (n <=? 57))%N then Some (n - 48)%N else None.

Fixpoint digits_value (acc : N) (s : string) : option N :=
  match s with
  | EmptyString => Some acc
  | String c r =>
      match digit_of c with
      | Some d => digits_value (acc * 10 + d)%N r
      | None => None
      end
  end.

(** An array index is a canonical decimal numeral below 2^32 - 1.  A
    number key names a position: the code passes [0] and [itemIndex],
    positions of an array, and nothing else. *)
Definition max_index : N := 4294967295%N.

Definition index_of_string (s : string) : option nat :=
  match s with
  | EmptyString => None
  | String "0" (String _ _) => None
  | _ =>
      match digits_value 0%N s with
      | Some n => if (n <? max_index)%N then Some (N.to_nat n) else None
      | None => None
      end
  end.

Definition array_index (p : propname) : option nat :=
  match p with
  | PStr s => index_of_string s
  | PIdx i => Some i
  end.

(** ** Own properties, in creation order *)

Fixpoint assoc_get (k : string) (ps : list (string * value)) : option value :=
  match ps with
  | [] => None
  | (k', v) :: r => if String.eqb k k' then Some v else assoc_get k r
  end.

Fixpoint assoc_set (k : string) (v : value) (ps : list (string * value))
  : list (string * value) :=
  match ps with
  | [] => [(k, v)]
  | (k', v') :: r =>
      if String.eqb k k' then (k, v) :: r else (k', v') :: assoc_set k v r
  end.

Fixpoint assoc_delete (k : string) (ps : list (string * value))
  : list (string * value) :=
  match ps with
  | [] => []
  | (k', v) :: r =>
      if String.eqb k k' then assoc_delete k r else (k', v) :: assoc_delete k r
  end.

(** [OrdinaryOwnPropertyKeys]: the keys that are array indices first, in
    ascending order, then the others in creation order. *)
Fixpoint insert_index (i : nat) (k : string) (l : list (nat * string))
  : list (nat * string) :=
  match l with
  | [] => [(i, k)]
  | (j, k') :: r =>
      if i <=? j then (i, k) :: l else (j, k') :: insert_index i k r
  end.

Fixpoint index_keys (ks : list string) : list (nat * string) :=
  match ks with
  | [] => []
  | k :: r =>
      match index_of_string k with
      | Some i => insert_index i k (index_keys r)
      | None => index_keys r
      end
  end.

Definition own_keys (ps : list (string * value)) : list string :=
  let ks := map fst ps in
  map snd (index_keys ks)
  ++ filter (fun k => bool_decide (index_of_string k = None)) ks.

(** [{...o}] on the own properties of [o]. *)
Definition spread_props (ps : list (string * value)) : list (string * value) :=
  map (fun k => (k, default VUndef (assoc_get k ps))) (own_keys ps).

(** ** Arrays *)

Definition elem_get (elems : list (option value)) (i : nat) : value :=
  match elems !! i with
  | Some (Some v) => v
  | _ => VUndef
  end.

(** [a[i] = x]: in range the element is replaced, out of range the array
    grows and the positions in between are holes. *)
Definition elem_set (elems : list (option value)) (i : nat) (x : value)
  : list (option value) :=
  if i <? length elems then <[i := Some x]> elems
  else elems ++ replicate (i - length elems) None ++ [Some x].

(** [[...a]]: holes become [undefined], named properties are dropped. *)
Definition spread_elems (elems : list (option value)) : list (option value) :=
  map (fun o => Some (default VUndef o)) elems.

Definition resize (elems : list (option value)) (n : nat) : list (option value) :=
  take n elems ++ replicate (n - length elems) None.

(** The keys of the present elements, as [Object.keys] lists them. *)
Fixpoint present_from (i : nat) (elems : list (option value)) : list propname :=
  match elems with
  | [] => []
  | Some _ :: r => PIdx i :: present_from (S i) r
  | None :: r => present_from (S i) r
  end.

(** ** Numbers the platform converts *)

Inductive jsnum : Type :=
| NNaN
| NInf (negative : bool)
| NInt (z : Z)
| NFrac (truncated : Z).

(** The start position [splice] computes from its first argument. *)
Definition splice_start (len : nat) (n : jsnum) : nat :=
  match n with
  | NNaN => 0
  | NInf true => 0
  | NInf false => len
  | NInt z | NFrac z =>
      if (z <? 0)%Z then Z.to_nat (Z.max (Z.of_nat len + z) 0)
      else Z.to_nat (Z.min z (Z.of_nat len))
  end.

Definition remove_at (elems : list (option value)) (i : nat) : list (option value) :=
  take i elems ++ drop (S i) elems.

(** The length [a.length = v] asks for, when [v] converts to one. *)
Definition length_of_num (n : jsnum) : option nat :=
  match n with
  | NInt z => if ((0 <=? z) && (z <=? Z.of_N max_index))%Z then Some (Z.to_nat z) else None
  | _ => None
  end.

Definition truthy (v : value) : bool :=
  match v with
  | VUndef | VNull => false
  | VBool b => b
  | VNum n => negb (n =? 0)%Z
  | VStr s => negb (String.eqb s "")
  | VRef _ => true
  end.

Definition is_undef (v : value) : bool :=
  match v with VUndef => true | _ => false end.

Definition is_composite (t : jstype) : bool :=
  match t with TArray | TObject => true | _ => false end.

Definition prop_is (p : propname) (s : string) : bool :=
  match p with PStr s' => String.eqb s' s | PIdx _ => false end.

(** ** What the prototypes supply *)

Definition name_in (s : string) (l : list string) : bool :=
  existsb (String.eqb s) l.

(** The string keys of [Object.prototype]; [__proto__] is an accessor,
    the others are methods and [constructor]. *)
Definition Object_prototype : list string :=
  ["constructor"; "__defineGetter__"; "__defineSetter__"; "hasOwnProperty";
   "__lookupGetter__"; "__lookupSetter__"; "isPrototypeOf";
   "propertyIsEnumerable"; "toString"; "valueOf"; "__proto__"; "toLocaleString"].

(** The string keys of [Function.prototype], and the properties every
    function has of its own. *)
Definition Function_prototype : list string :=
  ["length"; "name"; "arguments"; "caller"; "constructor"; "apply"; "bind";
   "call"; "toString"].

Definition Function_own : list string := ["length"; "name"; "prototype"].

(** What a function does not let an assignment change: [length] and
    [name] are not writable, the setters of [arguments] and [caller]
    raise. *)
Definition Function_fixed : list string := ["length"; "name"; "arguments"; "caller"].

Definition Array_prototype : list string :=
  ["length"; "constructor"; "at"; "concat"; "copyWithin"; "fill"; "find";
   "findIndex"; "findLast"; "findLastIndex"; "lastIndexOf"; "pop"; "push";
   "reverse"; "shift"; "unshift"; "slice"; "sort"; "splice"; "includes";
   "indexOf"; "join"; "keys"; "entries"; "values"; "forEach"; "filter";
   "flat"; "flatMap"; "map"; "every"; "some"; "reduce"; "reduceRight";
   "toLocaleString"; "toString"; "toReversed"; "toSorted"; "toSpliced"; "with"].

Definition Number_prototype : list string :=
  ["constructor"; "toExponential"; "toFixed"; "toPrecision"; "toString";
   "valueOf"; "toLocaleString"].

Definition Boolean_prototype : list string := ["constructor"; "toString"; "valueOf"].

Definition String_prototype : list string :=
  ["length"; "constructor"; "anchor"; "at"; "big"; "blink"; "bold"; "charAt";
   "charCodeAt"; "codePointAt"; "concat"; "endsWith"; "fontcolor"; "fontsize";
   "fixed"; "includes"; "indexOf"; "isWellFormed"; "italics"; "lastIndexOf";
   "link"; "localeCompare"; "match"; "matchAll"; "normalize"; "padEnd";
   "padStart"; "repeat"; "replace"; "replaceAll"; "search"; "slice"; "small";
   "split"; "strike"; "sub"; "substr"; "substring"; "sup"; "startsWith";
   "toString"; "toWellFormed"; "trim"; "trimStart"; "trimLeft"; "trimEnd";
   "trimRight"; "toLocaleLowerCase"; "toLocaleUpperCase"; "toLowerCase";
   "toUpperCase"; "valueOf"].

(** The names a value of kind [t] finds on its prototype chain, or has
    as built-in properties of its own. *)
Definition members (t : jstype) : list string :=
  match t with
  | TObject => Object_prototype
  | TFunction => Function_own ++ Function_prototype ++ Object_prototype
  | TArray => Array_prototype ++ Object_prototype
  | TNumber => Number_prototype ++ Object_prototype
  | TBoolean => Boolean_prototype ++ Object_prototype
  | TString => String_prototype ++ Object_prototype
  | TUndefined | TNull => []
  end.

(** A number key is never the name of a member. *)
Definition inherited (t : jstype) (p : propname) : bool :=
  match p with
  | PStr s => name_in s (members t)
  | PIdx _ => false
  end.

(** The name of a member of some prototype. *)
Definition member_name (s : string) : bool :=
  name_in s (Function_own ++ Function_prototype ++ Array_prototype
             ++ Number_prototype ++ Boolean_prototype ++ String_prototype
             ++ Object_prototype).

(** ** The path parser of [findPropInObject] *)

(** [replace(/^\[|\]$/g, '')]: one leading [[] and one trailing []] go. *)
Fixpoint strip_trailing_bracket (s : string) : string :=
  match s with
  | EmptyString => EmptyString
  | String c EmptyString => if Ascii.eqb c "]" then EmptyString else s
  | String c r => String c (strip_trailing_bracket r)
  end.

Definition strip_brackets (s : string) : string :=
  match s with
  | String "[" r => strip_trailing_bracket r
  | _ => strip_trailing_bracket s
  end.

(** [replace(/\[|\]/g, '.')] *)
Fixpoint brackets_to_dots (s : string) : string :=
  match s with
  | EmptyString => EmptyString
  | String c r =>
      String (if Ascii.eqb c "[" || Ascii.eqb c "]" then "."%char else c)
             (brackets_to_dots r)
  end.

(** [replace(/\.{2,}/g, '.')] *)
Fixpoint collapse_dots (s : string) : string :=
  match s with
  | EmptyString => EmptyString
  | String c r =>
      match r with
      | String c' _ =>
          if Ascii.eqb c "." && Ascii.eqb c' "." then collapse_dots r
          else String c (collapse_dots r)
      | EmptyString => s
      end
  end.

(** [split('.')]: never empty. *)
Fixpoint split_dots (s : string) : list string :=
  match s with
  | EmptyString => [EmptyString]
  | String c r =>
      if Ascii.eqb c "." then EmptyString :: split_dots r
      else match split_dots r with
           | seg :: segs => String c seg :: segs
           | [] => [String c EmptyString]
           end
  end.

(** [join('.')] *)
Fixpoint join_dots (segs : list string) : string :=
  match segs with
  | [] => EmptyString
  | [seg] => seg
  | seg :: r => (seg ++ "." ++ join_dots r)%string
  end.

Definition parse_path (pathStr : string) : list string :=
  split_dots (collapse_dots (brackets_to_dots (strip_brackets pathStr))).

(** ** Reading and writing one property *)

Definition cell_type (c : cell) : jstype :=
  match c with
  | CArr _ _ => TArray
  | CObj _ => TObject
  | CFun _ _ _ => TFunction
  end.

Definition getObjectType (obj : value) : M jstype :=
  match obj with
  | VUndef => ret TUndefined
  | VNull => ret TNull
  | VBool _ => ret TBoolean
  | VNum _ => ret TNumber
  | VStr _ => ret TString
  | VRef l => let* c := read_cell l in ret (cell_type c)
  end.

Definition named_get (ps : list (string * value)) (p : propname) : value :=
  default VUndef (assoc_get (key_string p) ps).

Definition has_key (k : string) (ps : list (string * value)) : bool :=
  match assoc_get k ps with Some _ => true | None => false end.

(** The property [p] of an object as far as the object itself decides
    it: an own property, the element or the [length] of an array, and
    [undefined] where the object has nothing. *)
Definition cell_get (c : cell) (p : propname) : value :=
  match c with
  | CArr elems named =>
      match array_index p with
      | Some i => elem_get elems i
      | None =>
          if String.eqb (key_string p) "length" then VNum (Z.of_nat (length elems))
          else named_get named p
      end
  | CObj props => named_get props p
  | CFun _ _ props => named_get props p
  end.

(** The object has [p] for own property; an index of an array counts, as
    [Array.prototype] has no element. *)
Definition cell_has (c : cell) (p : propname) : bool :=
  match c with
  | CArr _ named =>
      match array_index p with
      | Some _ => true
      | None => String.eqb (key_string p) "length" || has_key (key_string p) named
      end
  | CObj props => has_key (key_string p) props
  | CFun _ _ props => has_key (key_string p) props
  end.

(** The lookup of [p] ends at the object: it has the property, or no
    prototype of it has. *)
Definition visible (c : cell) (p : propname) : bool :=
  cell_has c p || negb (inherited (cell_type c) p).

Definition string_has (p : propname) : bool :=
  match array_index p with
  | Some _ => true
  | None => String.eqb (key_string p) "length"
  end.

Definition string_get (s : string) (p : propname) : value :=
  match array_index p with
  | Some i =>
      match String.get i s with
      | Some c => VStr (String c EmptyString)
      | None => VUndef
      end
  | None =>
      if String.eqb (key_string p) "length" then VNum (Z.of_nat (String.length s))
      else VUndef
  end.

(** [o[p]]: the own property, or [undefined] when neither the object nor
    its prototypes have one.  The members of the prototypes have no
    value in the model. *)
Definition get_prop (o : value) (p : propname) : M value :=
  match o with
  | VUndef | VNull => throw TypeError
  | VBool _ => if inherited TBoolean p then stuck else ret VUndef
  | VNum _ => if inherited TNumber p then stuck else ret VUndef
  | VStr s =>
      if string_has p || negb (inherited TString p) then ret (string_get s p)
      else stuck
  | VRef l =>
      let* c := read_cell l in
      if visible c p then ret (cell_get c p) else stuck
  end.

Definition has_index (o : value) (i : nat) : M bool :=
  match o with
  | VRef l =>
      let* c := read_cell l in
      ret (match c with
           | CArr elems _ => match elems !! i with Some (Some _) => true | _ => false end
           | _ => false
           end)
  | _ => ret false
  end.

Definition array_length (o : value) : M nat :=
  match o with
  | VRef l =>
      let* c := read_cell l in
      match c with
      | CArr elems _ => ret (length elems)
      | _ => stuck
      end
  | _ => stuck
  end.

(** [delete o[p]] *)
Definition delete_prop (o : value) (p : propname) : M unit :=
  match o with
  | VRef l =>
      let* c := read_cell l in
      match c with
      | CObj props => write_cell l (CObj (assoc_delete (key_string p) props))
      | CFun f s props => write_cell l (CFun f s (assoc_delete (key_string p) props))
      | CArr elems named =>
          match array_index p with
          | Some i => write_cell l (CArr (<[i := None]> elems) named)
          | None => write_cell l (CArr elems (assoc_delete (key_string p) named))
          end
      end
  | _ => ret tt
  end.

(** The shallow copies [[...obj]] and [{...obj}] of the two
    [if (type === ...)] branches; any other value stays as it is. *)
Definition shallow_copy (obj : value) : M value :=
  match obj with
  | VRef l =>
      let* c := read_cell l in
      match c with
      | CArr elems _ => alloc (CArr (spread_elems elems) [])
      | CObj props => alloc (CObj (spread_props props))
      | CFun _ _ _ => ret obj
      end
  | _ => ret obj
  end.

(** [Object.keys(o)] *)
Definition Object_keys (o : value) : M (list propname) :=
  match o with
  | VUndef | VNull => throw TypeError
  | VBool _ | VNum _ => ret []
  | VStr s => ret (map PIdx (seq 0 (String.length s)))
  | VRef l =>
      let* c := read_cell l in
      ret (match c with
           | CArr elems named => present_from 0 elems ++ map PStr (own_keys named)
           | CObj props => map PStr (own_keys props)
           | CFun _ _ props => map PStr (own_keys props)
           end)
  end.

Fixpoint forEach_list {A} (l : list A) (f : A -> M unit) : M unit :=
  match l with
  | [] => ret tt
  | a :: r => f a ;;; forEach_list r f
  end.

Fixpoint map_list {A B} (l : list A) (f : A -> M B) : M (list B) :=
  match l with
  | [] => ret []
  | a :: r => let* b := f a in let* bs := map_list r f in ret (b :: bs)
  end.

(** [Object.values(o)], a new array. *)
Definition Object_values (o : value) : M value :=
  let* keys := Object_keys o in
  let* vals := map_list keys (fun k => get_prop o k) in
  alloc (CArr (map Some vals) []).

(** The lookup of the method [m] of [Array.prototype] on an array: a
    property [m] of the array itself comes first, and is called in the
    place of the method when it is a function. *)
Definition array_method (o : value) (m : string) : M unit :=
  match o with
  | VRef l =>
      let* c := read_cell l in
      match c with
      | CArr _ named =>
          match assoc_get m named with
          | None => ret tt
          | Some f =>
              let* t := getObjectType f in
              if bool_decide (t = TFunction) then stuck else throw TypeError
          end
      | _ => stuck
      end
  | _ => stuck
  end.

(** [a.forEach(f)]: the length is read once, each index is visited if it
    is present when its turn comes. *)
Fixpoint forEach_from (k n : nat) (arr : value) (f : value -> nat -> M unit) : M unit :=
  match n with
  | O => ret tt
  | S n' =>
      let* present := has_index arr k in
      (if present then let* item := get_prop arr (PIdx k) in f item k else ret tt) ;;;
      forEach_from (S k) n' arr f
  end.

Definition forEach (arr : value) (f : value -> nat -> M unit) : M unit :=
  array_method arr "forEach" ;;;
  let* len := array_length arr in forEach_from 0 len arr f.

(** [a.map(f)], a new array that keeps the holes. *)
Fixpoint map_from (k n : nat) (arr : value) (f : value -> M value)
  : M (list (option value)) :=
  match n with
  | O => ret []
  | S n' =>
      let* present := has_index arr k in
      let* y := (if present
                 then let* item := get_prop arr (PIdx k) in
                      let* y := f item in ret (Some y)
                 else ret None) in
      let* ys := map_from (S k) n' arr f in
      ret (y :: ys)
  end.

Definition array_map (arr : value) (f : value -> M value) : M value :=
  array_method arr "map" ;;;
  let* len := array_length arr in
  let* ys := map_from 0 len arr f in
  alloc (CArr ys []).

(** [while (a.length) body]; every iteration of the loop in
    [findDirectPropInObject] removes one element, so the length at entry
    bounds the iterations. *)
Fixpoint while_length (budget : nat) (arr : value) (body : M unit) {struct budget}
  : M unit :=
  let* n := array_length arr in
  if n =? 0 then ret tt
  else match budget with
       | O => stuck
       | S b => body ;;; while_length b arr body
       end.

(** ** The functions of the repository *)

Section Model.

(** What a user function does when called with one argument. *)
Variable call : fid -> value -> M value.

(** The platform's [ToNumber] on strings and objects. *)
Variable ToNumber : heap -> value -> jsnum.

Definition to_number (v : value) : M jsnum :=
  match v with
  | VUndef => ret NNaN
  | VNull => ret (NInt 0)
  | VBool b => ret (NInt (if b then 1 else 0))
  | VNum n => ret (NInt n)
  | VStr _ | VRef _ => fun h => Ok (ToNumber h v) h
  end.

(** [o[p] = x] in strict mode, as the module is an ES module.  An own
    property is written and a new one is created, but for the key
    [__proto__] on an object that has no such property: there the setter
    of [Object.prototype] runs, which changes the prototype of [o] when
    [x] is an object or [null] and does nothing otherwise, also on a
    number, a boolean or a string, where any other key raises. *)
Definition set_prop (o : value) (p : propname) (x : value) : M unit :=
  match o with
  | VRef l =>
      let* c := read_cell l in
      if negb (cell_has c p) && prop_is p "__proto__" then
        match x with
        | VRef _ | VNull => stuck
        | _ => ret tt
        end
      else
      match c with
      | CArr elems named =>
          match array_index p with
          | Some i => write_cell l (CArr (elem_set elems i x) named)
          | None =>
              if String.eqb (key_string p) "length" then
                let* n := to_number x in
                match length_of_num n with
                | Some k => write_cell l (CArr (resize elems k) named)
                | None => throw RangeError
                end
              else write_cell l (CArr elems (assoc_set (key_string p) x named))
          end
      | CObj props => write_cell l (CObj (assoc_set (key_string p) x props))
      | CFun f s props =>
          if negb (cell_has c p) && name_in (key_string p) Function_fixed
          then throw TypeError
          else write_cell l (CFun f s (assoc_set (key_string p) x props))
      end
  | VUndef | VNull => throw TypeError
  | VBool _ | VNum _ | VStr _ =>
      if prop_is p "__proto__" then ret tt else throw TypeError
  end.

(** [{..., [p]: x}]: the definition of an own property of an object
    literal under construction, whatever the key. *)
Definition define_prop (o : value) (p : propname) (x : value) : M unit :=
  match o with
  | VRef l =>
      let* c := read_cell l in
      match c with
      | CObj props => write_cell l (CObj (assoc_set (key_string p) x props))
      | _ => stuck
      end
  | _ => stuck
  end.

(** [a.splice(p, 1)] *)
Definition splice1 (o : value) (p : propname) : M unit :=
  array_method o "splice" ;;;
  match o with
  | VRef l =>
      let* c := read_cell l in
      match c with
      | CArr elems named =>
          let* start := (match p with
                         | PIdx i => ret (NInt (Z.of_nat i))
                         | PStr s => to_number (VStr s)
                         end) in
          write_cell l (CArr (remove_at elems (splice_start (length elems) start)) named)
      | _ => throw TypeError
      end
  | _ => throw TypeError
  end.

(** [f(arg)] *)
Definition call_function (f : value) (arg : value) : M value :=
  match f with
  | VRef l =>
      let* c := read_cell l in
      match c with
      | CFun code _ _ => call code arg
      | _ => throw TypeError
      end
  | _ => throw TypeError
  end.

(** The body of [findDirectPropInObject]; [self] stands for the function
    itself in its recursive calls.  [args] holds the rest parameter: [None]
    when the call passes no value (a read), [Some v] when it passes one,
    [undefined] included. *)
Definition findDirectPropInObject_body
    (self : value → propname → bool → option value → M value)
    (obj : value) (prop : propname) (copyByRef : bool) (args : option value)
  : M value :=
  let* type := getObjectType obj in
  let shouldReplace := bool_decide (is_Some args) in
  let value := default VUndef args in
  (* cannot work with types other than arrays and objects *)
  if negb (is_composite type) then ret obj else
  (* start with a reference to the given object; de-reference, if required *)
  let* result := (if copyByRef then ret obj else shallow_copy obj) in
  (* handle an empty prop name *)
  if prop_is prop "" then
    if shouldReplace then ret result else ret VUndef
  else
  (* handle a wildcard *)
  if prop_is prop "*" then
    if shouldReplace then
      (match type with
       | TArray =>
           if is_undef value then
             let* n := array_length result in
             while_length n result
               (self result (PIdx 0) true (Some value) ;;; ret tt)
           else
             let* length := array_length result in
             forEach result (fun item index =>
               let itemIndex := length - 1 - index in
               let* tv := getObjectType value in
               let* itemValue :=
                 (if bool_decide (tv = TFunction)
                  then let* cur := get_prop result (PIdx itemIndex) in
                       call_function value cur
                  else ret value) in
               if is_undef itemValue then
                 self result (PIdx itemIndex) true (Some VUndef) ;;;
                 ret tt
               else
                 let* newResult :=
                   self result (PIdx itemIndex) copyByRef
                     (Some itemValue) in
                 let* x := get_prop newResult (PIdx itemIndex) in
                 set_prop result (PIdx itemIndex) x)
       | _ =>
           let* keys := Object_keys result in
           forEach_list keys (fun key =>
             self result key true (Some value) ;;; ret tt)
       end) ;;;
      ret result
    else
      match type with
      | TArray => ret result
      | _ => Object_values result
      end
  else
  (* handle other values *)
  if shouldReplace then
    let* tv := getObjectType value in
    let* replaceWith :=
      (if bool_decide (tv = TFunction)
       then let* cur := get_prop result prop in call_function value cur
       else ret value) in
    (if is_undef replaceWith && bool_decide (type = TArray) then splice1 result prop
     else if is_undef replaceWith && bool_decide (type = TObject) then delete_prop result prop
     else set_prop result prop replaceWith) ;;;
    ret result
  else
  (* return the value of the prop *)
  get_prop result prop.

Fixpoint findDirectPropInObject (fuel : nat) {struct fuel}
  : value → propname → bool → option value → M value :=
  match fuel with
  | O => fun _ _ _ _ => stuck
  | S fuel' => findDirectPropInObject_body (findDirectPropInObject fuel')
  end.

(** The body of [findPropInObject]: [self] is the function itself and
    [direct] is [findDirectPropInObject]. *)
Definition findPropInObject_body
    (direct : value → propname → bool → option value → M value)
    (self : value → string → bool → option value → M value)
    (obj : value) (pathStr : string) (copyByRef : bool) (args : option value)
  : M value :=
  let* type := getObjectType obj in
  let shouldReplace := bool_decide (is_Some args) in
  let value := default VUndef args in
  (* clean and convert the path string into an array *)
  match parse_path pathStr with
  | [] => stuck
  | [p0] =>
      if shouldReplace then direct obj (PStr p0) copyByRef (Some value)
      else direct obj (PStr p0) copyByRef None
  | prop :: rest =>
  let* result := (if copyByRef then ret obj else shallow_copy obj) in
  let remainingPath := join_dots rest in
  if shouldReplace then
    if String.eqb prop "*" then
      (match type with
       | TArray =>
           forEach result (fun item index =>
             let* r := self item remainingPath copyByRef (Some value) in
             set_prop result (PIdx index) r)
       | TObject =>
           let* keys := Object_keys result in
           forEach_list keys (fun key =>
             let* cur := get_prop result key in
             let* r := self cur remainingPath copyByRef (Some value) in
             set_prop result key r)
       | _ => ret tt
       end) ;;;
      ret result
    else
      let* cur := get_prop result (PStr prop) in
      (if is_undef cur
       then let* fresh := alloc (CObj []) in set_prop result (PStr prop) fresh
       else ret tt) ;;;
      let* cur := get_prop result (PStr prop) in
      let* r := self cur remainingPath copyByRef (Some value) in
      set_prop result (PStr prop) r ;;;
      ret result
  else
    if String.eqb prop "*" && bool_decide (type = TArray) then
      array_map result (fun item => self item remainingPath copyByRef None)
    else if String.eqb prop "*" && bool_decide (type = TObject) then
      let* vals := Object_values result in
      array_map vals (fun item => self item remainingPath copyByRef None)
    else
      (* the `|| {}` part handles undefined values *)
      let* cur := get_prop result (PStr prop) in
      let* sub := (if truthy cur then ret cur else alloc (CObj [])) in
      self sub remainingPath copyByRef None
  end.

Fixpoint findPropInObject (fuel : nat) {struct fuel}
  : value → string → bool → option value → M value :=
  match fuel with
  | O => fun _ _ _ _ => stuck
  | S fuel' =>
      findPropInObject_body (findDirectPropInObject fuel') (findPropInObject fuel')
  end.

(** [{...o}] for any value [o], a new object. *)
Definition string_entries (s : string) : list (string * value) :=
  imap (fun i c => (pretty i, VStr (String c EmptyString))) (list_ascii_of_string s).

Fixpoint elem_entries (i : nat) (elems : list (option value)) : list (string * value) :=
  match elems with
  | [] => []
  | Some v :: r => (pretty i, v) :: elem_entries (S i) r
  | None :: r => elem_entries (S i) r
  end.

Definition spread_object (o : value) : M value :=
  match o with
  | VUndef | VNull | VBool _ | VNum _ => alloc (CObj [])
  | VStr s => alloc (CObj (string_entries s))
  | VRef l =>
      let* c := read_cell l in
      match c with
      | CArr elems named => alloc (CObj (elem_entries 0 elems ++ spread_props named))
      | CObj props => alloc (CObj (spread_props props))
      | CFun _ _ props => alloc (CObj (spread_props props))
      end
  end.

(** [keys.reduce(f, init)] *)
Fixpoint reduce {A B} (l : list A) (acc : B) (f : B -> A -> M B) : M B :=
  match l with
  | [] => ret acc
  | a :: r => let* acc' := f acc a in reduce r acc' f
  end.

Definition mergeObjects (fuel : nat) (objA objB : value) : M value :=
  let* keys := Object_keys objB in
  let* init := spread_object objA in
  reduce keys init (fun prev next =>
    let* v := get_prop objB next in
    findPropInObject fuel prev (key_string next) false (Some v)).

Definition deepCopy_body (self : value → M value) (obj : value) : M value :=
  let* type := getObjectType obj in
  if is_composite type then
    let* newObj := alloc (if bool_decide (type = TArray) then CArr [] [] else CObj []) in
    let* keys := Object_keys obj in
    forEach_list keys (fun key =>
      let* v := get_prop obj key in
      let* tv := getObjectType v in
      if is_composite tv then
        let* v := get_prop obj key in
        let* c := self v in
        set_prop newObj key c
      else
        let* v := get_prop obj key in
        set_prop newObj key v) ;;;
    ret newObj
  else ret obj.

Fixpoint deepCopy (fuel : nat) {struct fuel} : value → M value :=
  match fuel with
  | O => fun _ => stuck
  | S fuel' => deepCopy_body (deepCopy fuel')
  end.

(** The property [k] of an object that stands in the place of a method
    of its prototype. *)
Definition own_method (c : cell) (k : string) : option value :=
  match c with
  | CArr _ named => assoc_get k named
  | CObj props => assoc_get k props
  | CFun _ _ props => assoc_get k props
  end.

(** [String(v)] given [v.toString()]: the two differ on an object whose
    [toString] is not a function and whose [valueOf] is one of its own,
    which [String] then calls. *)
Definition to_primitive_string (str : value -> M string) (v : value) : M string :=
  match v with
  | VRef l =>
      let* c := read_cell l in
      match own_method c "toString", own_method c "valueOf" with
      | Some m, Some w =>
          let* tm := getObjectType m in
          let* tw := getObjectType w in
          if bool_decide (tm ≠ TFunction) && bool_decide (tw = TFunction)
          then stuck else str v
      | _, _ => str v
      end
  | _ => str v
  end.

(** What [join] writes for one element: nothing for a hole, [undefined]
    or [null], and [String(e)] otherwise. *)
Definition join_piece (str : value -> M string) (e : option value) : M string :=
  match e with
  | None | Some VUndef | Some VNull => ret EmptyString
  | Some v => to_primitive_string str v
  end.

(** [a.join(",")], which is what [toString] is on an array. *)
Fixpoint join_with (str : value -> M string) (elems : list (option value)) : M string :=
  match elems with
  | [] => ret EmptyString
  | [e] => join_piece str e
  | e :: r =>
      let* s := join_piece str e in
      let* t := join_with str r in
      ret (s ++ "," ++ t)%string
  end.

(** [v.toString()] for a value that is neither [undefined] nor [null].
    A property [toString] of the object itself comes before the built-in
    method: the call raises when it is not a function and runs it when it
    is.  The [toString] of an array calls [join], a property [join] of
    the array itself coming first, and prints [[object Array]] when that
    is not a function.  A number prints as the decimal numeral of the
    integer it is, which is what the platform prints for an integer
    below [1e21]. *)
Definition to_string_body (self : value → M string) (v : value) : M string :=
  match v with
  | VUndef => ret "undefined"
  | VNull => ret "null"
  | VBool b => ret (if b then "true" else "false")
  | VNum n => ret (pretty n)
  | VStr s => ret s
  | VRef l =>
      let* c := read_cell l in
      match own_method c "toString" with
      | Some m =>
          let* t := getObjectType m in
          if bool_decide (t = TFunction) then stuck else throw TypeError
      | None =>
          match c with
          | CArr elems named =>
              match assoc_get "join" named with
              | Some j =>
                  let* t := getObjectType j in
                  if bool_decide (t = TFunction) then stuck
                  else ret "[object Array]"
              | None => join_with self elems
              end
          | CObj _ => ret "[object Object]"
          | CFun _ src _ => ret src
          end
      end
  end.

Fixpoint to_string (fuel : nat) {struct fuel} : value → M string :=
  match fuel with
  | O => fun _ => stuck
  | S fuel' => to_string_body (to_string fuel')
  end.

(** [v?.toString()] *)
Definition opt_to_string (str : value → M string) (v : value) : M (option string) :=
  match v with
  | VUndef | VNull => ret None
  | _ => let* s := str v in ret (Some s)
  end.

(** The [for] loop of [deepCompare] with its early [return false]. *)
Fixpoint all_keys (keys : list propname) (f : propname -> M bool) : M bool :=
  match keys with
  | [] => ret true
  | k :: r => let* b := f k in if b then all_keys r f else ret false
  end.

(** The body of [deepCompare]; [str] is [toString] on values. *)
Definition deepCompare_body (str : value → M string)
    (self : value → value → M bool) (objA objB : value) : M bool :=
  let* typeA := getObjectType objA in
  let* typeB := getObjectType objB in
  if bool_decide (typeA ≠ typeB) then ret false else
  let* same :=
    (if is_composite typeA then
       let* keys := Object_keys objA in
       all_keys keys (fun key =>
         let* valueA := get_prop objA key in
         let* valueB := get_prop objB key in
         self valueA valueB)
     else ret true) in
  if negb same then ret false else
  let* sa := opt_to_string str objA in
  let* sb := opt_to_string str objB in
  ret (bool_decide (sa = sb)).

Fixpoint deepCompare (fuel : nat) {struct fuel} : value → value → M bool :=
  match fuel with
  | O => fun _ _ => stuck
  | S fuel' => deepCompare_body (to_string fuel') (deepCompare fuel')
  end.

(** The reads and writes of the interface: [get(root, path)],
    [set(root, path, x)] and [remove(root, path)] go through
    [findPropInObject] with [copyByRef = false]. *)
Definition path_get (fuel : nat) (root : value) (pathStr : string) : M value :=
  findPropInObject fuel root pathStr false None.

Definition path_set (fuel : nat) (root : value) (pathStr : string) (x : value)
  : M value :=
  findPropInObject fuel root pathStr false (Some x).

Definition path_remove (fuel : nat) (root : value) (pathStr : string) : M value :=
  findPropInObject fuel root pathStr false (Some VUndef).

End Model.

Arguments bind : simpl never.
Arguments ret : simpl never.
Arguments throw : simpl never.
Arguments alloc : simpl never.
Arguments read_cell : simpl never.
Arguments write_cell : simpl never.
Arguments getObjectType : simpl never.
Arguments get_prop : simpl never.
Arguments set_prop : simpl never.
Arguments define_prop : simpl never.
Arguments name_in : simpl never.
Arguments inherited : simpl never.
Arguments member_name : simpl never.
Arguments array_method : simpl never.
Arguments delete_prop : simpl never.
Arguments splice1 : simpl never.
Arguments shallow_copy : simpl never.
Arguments spread_object : simpl never.
Arguments Object_keys : simpl never.
Arguments Object_values : simpl never.
Arguments array_length : simpl never.
Arguments has_index : simpl never.
Arguments call_function : simpl never.
Arguments to_number : simpl never.
Arguments findDirectPropInObject : simpl never.
Arguments findPropInObject : simpl never.
Arguments deepCopy : simpl never.
Arguments deepCompare : simpl never.
Arguments to_string : simpl never.
Arguments findDirectPropInObject_body : simpl never.
Arguments findPropInObject_body : simpl never.
Arguments deepCopy_body : simpl never.
Arguments deepCompare_body : simpl never.
Arguments to_string_body : simpl never.

(** ** A platform for the examples *)

(** A stand-in for [ToNumber] in the examples.  It agrees with the
    platform on the empty string, which is [0], on the strings of decimal
    digits, where it is the number they spell, and on the strings that
    spell no number at all, such as the names made of letters, where it is
    [NaN]; the examples apply it to these only.  It is [NaN] as well on
    the other numerals of the platform (a sign, a fraction, an exponent,
    blanks around the digits), which the platform converts, and on
    objects. *)
Definition ToNumber_decimal (h : heap) (v : value) : jsnum :=
  match v with
  | VStr EmptyString => NInt 0
  | VStr (String c r) =>
      match digits_value 0%N (String c r) with
      | Some n => NInt (Z.of_N n)
      | None => NNaN
      end
  | _ => NNaN
  end.

(** No user function is called in the examples that use this one. *)
Definition call_none (f : fid) (arg : value) : M value := throw TypeError.

(** ** Facts about the path parser *)

Definition plain_char (c : ascii) : bool :=
  negb (Ascii.eqb c ".") && negb (Ascii.eqb c "[") && negb (Ascii.eqb c "]").

(** No dot and no bracket. *)
Fixpoint plain (s : string) : bool :=
  match s with
  | EmptyString => true
  | String c r => plain_char c && plain r
  end.

Fixpoint no_bracket (s : string) : bool :=
  match s with
  | EmptyString => true
  | String c r => negb (Ascii.eqb c "[") && negb (Ascii.eqb c "]") && no_bracket r
  end.

Fixpoint no_dot (s : string) : bool :=
  match s with
  | EmptyString => true
  | String c r => negb (Ascii.eqb c ".") && no_dot r
  end.

(** No two dots in a row. *)
Fixpoint collapsed (s : string) : bool :=
  match s with
  | EmptyString => true
  | String c r =>
      match r with
      | String c' _ => negb (Ascii.eqb c "." && Ascii.eqb c' ".") && collapsed r
      | EmptyString => true
      end
  end.

(** The segment lists the parser produces. *)
Definition normal (segs : list string) : Prop :=
  segs ≠ [] ∧ Forall (fun s => no_dot s = true) segs
  ∧ no_bracket (join_dots segs) = true ∧ collapsed (join_dots segs) = true.

Lemma plain_split s : plain s = true → no_dot s = true ∧ no_bracket s = true.
Proof.
  induction s as [|c r IH]; simpl; [done|].
  unfold plain_char. intros H.
  repeat (apply andb_prop in H as [H ?]). destruct (IH H0) as [-> ->].
  rewrite H, H1, H2. done.
Qed.

Lemma strip_trailing_no_bracket s :
  no_bracket s = true → strip_trailing_bracket s = s.
Proof.
  induction s as [|c r IH]; simpl; [done|].
  intros H. apply andb_prop in H as [H Hr]. apply andb_prop in H as [_ Hc].
  destruct r as [|c' r']; [by destruct (Ascii.eqb c "]")|].
  by rewrite (IH Hr).
Qed.

Lemma strip_brackets_no_bracket s : no_bracket s = true → strip_brackets s = s.
Proof.
  intros H. unfold strip_brackets.
  destruct s as [|c r]; [done|].
  assert (Ascii.eqb c "[" = false) as Hc.
  { simpl in H. apply andb_prop in H as [H _]. apply andb_prop in H as [H _].
    by apply negb_true_iff in H. }
  assert (strip_trailing_bracket (String c r) = String c r) as Hs
    by by apply strip_trailing_no_bracket.
  apply Ascii.eqb_neq in Hc.
  destruct c as [[] [] [] [] [] [] [] []]; try exact Hs. done.
Qed.

Lemma brackets_to_dots_no_bracket s : no_bracket s = true → brackets_to_dots s = s.
Proof.
  induction s as [|c r IH]; simpl; [done|].
  intros H. apply andb_prop in H as [H Hr]. apply andb_prop in H as [H1 H2].
  apply negb_true_iff in H1, H2. rewrite H1, H2. simpl. by rewrite (IH Hr).
Qed.

Lemma no_bracket_brackets_to_dots s : no_bracket (brackets_to_dots s) = true.
Proof.
  induction s as [|c r IH]; simpl; [done|].
  rewrite IH, andb_true_r.
  destruct (Ascii.eqb c "[") eqn:E1; [done|].
  destruct (Ascii.eqb c "]") eqn:E2; [done|]. simpl. by rewrite E1, E2.
Qed.

Lemma collapse_dots_collapsed s : collapsed s = true → collapse_dots s = s.
Proof.
  induction s as [|c r IH]; simpl; [done|].
  destruct r as [|c' r']; [done|].
  intros H. apply andb_prop in H as [H Hr]. apply negb_true_iff in H.
  rewrite H. by rewrite (IH Hr).
Qed.

Lemma no_bracket_collapse_dots s :
  no_bracket s = true → no_bracket (collapse_dots s) = true.
Proof.
  induction s as [|c r IH]; [done|].
  intros H. pose proof H as H'. simpl in H'.
  apply andb_prop in H' as [Hc Hr].
  change (collapse_dots (String c r)) with
    (match r with
     | String c' _ => if Ascii.eqb c "." && Ascii.eqb c' "." then collapse_dots r
                      else String c (collapse_dots r)
     | EmptyString => String c r
     end).
  destruct r as [|c' r']; [done|].
  destruct (Ascii.eqb c "." && Ascii.eqb c' "."); [by apply IH|].
  simpl no_bracket at 1. rewrite Hc. by apply IH.
Qed.

Lemma collapse_dots_keeps_head c r : ∃ t, collapse_dots (String c r) = String c t.
Proof.
  revert c. induction r as [|c' r' IH]; intros c; [by exists EmptyString|].
  change (collapse_dots (String c (String c' r'))) with
    (if Ascii.eqb c "." && Ascii.eqb c' "." then collapse_dots (String c' r')
     else String c (collapse_dots (String c' r'))).
  destruct (Ascii.eqb c ".") eqn:E1, (Ascii.eqb c' ".") eqn:E2; simpl; eauto.
  apply Ascii.eqb_eq in E1, E2. subst. apply IH.
Qed.

Lemma collapsed_collapse_dots s : collapsed (collapse_dots s) = true.
Proof.
  induction s as [|c r IH]; [done|].
  destruct r as [|c' r']; [done|].
  change (collapse_dots (String c (String c' r'))) with
    (if Ascii.eqb c "." && Ascii.eqb c' "." then collapse_dots (String c' r')
     else String c (collapse_dots (String c' r'))).
  destruct (Ascii.eqb c "." && Ascii.eqb c' ".") eqn:E; [done|].
  destruct (collapse_dots_keeps_head c' r') as [t Ht].
  rewrite Ht in IH |- *. simpl. simpl in IH. by rewrite E, IH.
Qed.

Lemma split_dots_nonempty s : split_dots s ≠ [].
Proof.
  destruct s as [|c r]; simpl; [done|].
  destruct (Ascii.eqb c "."); [done|]. by destruct (split_dots r).
Qed.

Lemma join_dots_cons c seg segs :
  join_dots (String c seg :: segs) = String c (join_dots (seg :: segs)).
Proof. by destruct segs. Qed.

Lemma join_split_dots s : join_dots (split_dots s) = s.
Proof.
  induction s as [|c r IH]; simpl; [done|].
  pose proof (split_dots_nonempty r) as Hne.
  destruct (Ascii.eqb c ".") eqn:E.
  - apply Ascii.eqb_eq in E. subst c.
    destruct (split_dots r) as [|seg segs]; [done|].
    change (join_dots (EmptyString :: seg :: segs))
      with (String "." (join_dots (seg :: segs))). by rewrite IH.
  - destruct (split_dots r) as [|seg segs]; [done|].
    by rewrite join_dots_cons, IH.
Qed.

Lemma split_dots_no_dot s : Forall (fun seg => no_dot seg = true) (split_dots s).
Proof.
  induction s as [|c r IH]; simpl; [by constructor|].
  destruct (Ascii.eqb c ".") eqn:E; [by constructor|].
  destruct (split_dots r) as [|seg segs].
  - constructor; [|done]. simpl. by rewrite E.
  - inversion IH as [|? ? Hseg Hsegs]; subst.
    constructor; [|done]. simpl. by rewrite E, Hseg.
Qed.

Lemma split_dots_segment seg t :
  no_dot seg = true → split_dots (seg ++ String "." t) = seg :: split_dots t.
Proof.
  induction seg as [|c r IH]; simpl; [done|].
  intros H. apply andb_prop in H as [Hc Hr]. apply negb_true_iff in Hc.
  by rewrite Hc, (IH Hr).
Qed.

Lemma split_dots_single seg : no_dot seg = true → split_dots seg = [seg].
Proof.
  induction seg as [|c r IH]; simpl; [done|].
  intros H. apply andb_prop in H as [Hc Hr]. apply negb_true_iff in Hc.
  by rewrite Hc, (IH Hr).
Qed.

Lemma split_join_dots segs :
  segs ≠ [] → Forall (fun seg => no_dot seg = true) segs →
  split_dots (join_dots segs) = segs.
Proof.
  induction segs as [|seg r IH]; [done|].
  intros _ Hall. inversion Hall as [|? ? Hseg Hr]; subst.
  destruct r as [|seg' r'].
  - by apply split_dots_single.
  - change (join_dots (seg :: seg' :: r'))
      with (seg ++ String "." (join_dots (seg' :: r')))%string.
    rewrite split_dots_segment by done. by rewrite IH.
Qed.

Lemma no_bracket_suffix a b : no_bracket (a ++ b) = true → no_bracket b = true.
Proof.
  induction a as [|c r IH]; simpl; [done|].
  intros H. apply andb_prop in H as [_ H]. by apply IH.
Qed.

Lemma collapsed_tail c r : collapsed (String c r) = true → collapsed r = true.
Proof. simpl. destruct r; [done|]. intros H. by apply andb_prop in H as [_ H]. Qed.

Lemma collapsed_suffix a b : collapsed (a ++ b) = true → collapsed b = true.
Proof.
  induction a as [|c r IH]; [done|].
  intros H. apply IH. by apply collapsed_tail with c.
Qed.

Lemma no_dot_collapsed s : no_dot s = true → collapsed s = true.
Proof.
  induction s as [|c r IH]; simpl; [done|].
  intros H. apply andb_prop in H as [Hc Hr]. apply negb_true_iff in Hc.
  destruct r; [done|]. rewrite Hc. simpl. by apply IH.
Qed.

Lemma parse_path_normal s : normal (parse_path s).
Proof.
  unfold normal, parse_path. rewrite join_split_dots.
  split_and!.
  - apply split_dots_nonempty.
  - apply split_dots_no_dot.
  - apply no_bracket_collapse_dots, no_bracket_brackets_to_dots.
  - apply collapsed_collapse_dots.
Qed.

Lemma normal_tail seg rest : normal (seg :: rest) → rest ≠ [] → normal rest.
Proof.
  intros (_ & Hall & Hb & Hc) Hne. inversion Hall; subst.
  destruct rest as [|seg' r']; [done|].
  change (join_dots (seg :: seg' :: r'))
    with (seg ++ (String "." (join_dots (seg' :: r'))))%string in Hb, Hc.
  apply no_bracket_suffix in Hb. apply collapsed_suffix in Hc.
  split_and!; [done|done| |].
  - by apply (no_bracket_suffix (String "." EmptyString)) in Hb.
  - by apply collapsed_tail in Hc.
Qed.

Lemma parse_join_normal segs : normal segs → parse_path (join_dots segs) = segs.
Proof.
  intros (Hne & Hall & Hb & Hc). unfold parse_path.
  rewrite strip_brackets_no_bracket, brackets_to_dots_no_bracket,
    collapse_dots_collapsed by done.
  by apply split_join_dots.
Qed.

(** The recursive call of [findPropInObject] parses the joined rest of the
    segments again and finds the same segments. *)
Lemma parse_path_rest pathStr seg rest :
  parse_path pathStr = seg :: rest → rest ≠ [] →
  parse_path (join_dots rest) = rest.
Proof.
  intros Hp Hne. apply parse_join_normal, normal_tail with seg; [|done].
  rewrite <- Hp. apply parse_path_normal.
Qed.

Lemma parse_path_plain s : plain s = true → parse_path s = [s].
Proof.
  intros H. destruct (plain_split _ H) as [Hd Hb].
  apply (parse_join_normal [s]). split_and!; try done.
  - by constructor.
  - by apply no_dot_collapsed.
Qed.

(** ** Facts about own properties *)

Lemma assoc_get_set_eq k v ps : assoc_get k (assoc_set k v ps) = Some v.
Proof.
  induction ps as [|[k' v'] r IH]; simpl.
  - by rewrite String.eqb_refl.
  - destruct (String.eqb k k') eqn:E; simpl.
    + by rewrite String.eqb_refl.
    + by rewrite E.
Qed.

Lemma assoc_get_set_ne k k' v ps :
  k ≠ k' → assoc_get k' (assoc_set k v ps) = assoc_get k' ps.
Proof.
  intros Hne. induction ps as [|[k0 v0] r IH]; simpl.
  - apply not_eq_sym, String.eqb_neq in Hne. by rewrite Hne.
  - destruct (String.eqb k k0) eqn:E; simpl.
    + apply String.eqb_eq in E. subst k0.
      apply not_eq_sym, String.eqb_neq in Hne. by rewrite Hne.
    + destruct (String.eqb k' k0); [done|apply IH].
Qed.

Lemma assoc_get_delete_eq k ps : assoc_get k (assoc_delete k ps) = None.
Proof.
  induction ps as [|[k' v'] r IH]; [done|].
  simpl. destruct (String.eqb k k') eqn:E; [done|]. simpl. by rewrite E.
Qed.

Lemma assoc_get_delete_ne k k' ps :
  k ≠ k' → assoc_get k' (assoc_delete k ps) = assoc_get k' ps.
Proof.
  intros Hne. induction ps as [|[k0 v0] r IH]; [done|].
  simpl. destruct (String.eqb k k0) eqn:E; simpl.
  - apply String.eqb_eq in E. subst k0.
    apply not_eq_sym, String.eqb_neq in Hne. by rewrite Hne.
  - by rewrite IH.
Qed.

Lemma assoc_get_is_Some k ps : is_Some (assoc_get k ps) ↔ k ∈ map fst ps.
Proof.
  induction ps as [|[k' v'] r IH]; simpl.
  - split; [by intros [? ?]|by intros ?%elem_of_nil].
  - rewrite elem_of_cons, <- IH. destruct (String.eqb_spec k k') as [->|Hne].
    + split; [by left|eauto].
    + split; [by right|]. by intros [?|?].
Qed.

Lemma assoc_get_map_keys (f : string → value) k ks :
  assoc_get k (map (fun k' => (k', f k')) ks)
  = if decide (k ∈ ks) then Some (f k) else None.
Proof.
  induction ks as [|k' r IH].
  - destruct (decide (k ∈ [])) as [Hin|]; [by apply elem_of_nil in Hin|done].
  - cbn [map assoc_get]. destruct (String.eqb_spec k k') as [->|Hne].
    + destruct (decide (k' ∈ k' :: r)) as [|Hin]; [done|].
      exfalso. apply Hin. by left.
    + rewrite IH.
      destruct (decide (k ∈ r)) as [Hr|Hr], (decide (k ∈ k' :: r)) as [Hc|Hc];
        try done.
      * exfalso. apply Hc. by right.
      * exfalso. by apply elem_of_cons in Hc as [?|?].
Qed.

Lemma elem_of_insert_index i k (x : nat * string) l :
  x ∈ insert_index i k l ↔ x = (i, k) ∨ x ∈ l.
Proof.
  induction l as [|[j0 k0] r IH]; simpl.
  - rewrite list_elem_of_singleton. split; [by left|].
    by intros [?|?%elem_of_nil].
  - destruct (i <=? j0); rewrite !elem_of_cons; [done|]. rewrite IH. tauto.
Qed.

Lemma elem_of_index_keys i k ks :
  (i, k) ∈ index_keys ks ↔ k ∈ ks ∧ index_of_string k = Some i.
Proof.
  induction ks as [|k' r IH]; simpl.
  - split; [by intros ?%elem_of_nil|by intros [?%elem_of_nil _]].
  - rewrite elem_of_cons. destruct (index_of_string k') as [i'|] eqn:E.
    + rewrite elem_of_insert_index, IH. split.
      * intros [[= -> ->]|[? ?]]; [by split; [left|]|by split; [right|]].
      * intros [[->|?] Hi]; [left; congruence|by right].
    + rewrite IH. split.
      * intros [? ?]. by split; [right|].
      * intros [[->|?] Hi]; [congruence|done].
Qed.

Lemma elem_of_own_keys k ps : k ∈ own_keys ps ↔ k ∈ map fst ps.
Proof.
  unfold own_keys. rewrite elem_of_app, list_elem_of_filter, list_elem_of_fmap.
  split.
  - intros [([i k'] & -> & Hin)|[_ Hin]]; [|done].
    by apply elem_of_index_keys in Hin as [Hin _].
  - intros Hin. destruct (index_of_string k) as [i|] eqn:E.
    + left. exists (i, k). split; [done|]. by apply elem_of_index_keys.
    + right. split; [|done]. by apply bool_decide_pack.
Qed.

(** A shallow copy of an object finds what the object finds. *)
Lemma assoc_get_spread k ps : assoc_get k (spread_props ps) = assoc_get k ps.
Proof.
  unfold spread_props. rewrite assoc_get_map_keys.
  destruct (decide (k ∈ own_keys ps)) as [Hin|Hnin].
  - apply elem_of_own_keys, assoc_get_is_Some in Hin as [v Hv]. by rewrite Hv.
  - destruct (assoc_get k ps) eqn:E; [|done].
    exfalso. apply Hnin, elem_of_own_keys, assoc_get_is_Some. eauto.
Qed.

Lemma elem_get_spread elems i : elem_get (spread_elems elems) i = elem_get elems i.
Proof.
  unfold elem_get, spread_elems. rewrite list_lookup_fmap.
  by destruct (elems !! i) as [[v|]|].
Qed.

Lemma elem_get_set_eq elems i x : elem_get (elem_set elems i x) i = x.
Proof.
  unfold elem_get, elem_set. destruct (Nat.ltb_spec i (length elems)).
  - by rewrite list_lookup_insert_eq.
  - rewrite lookup_app_r by done. rewrite lookup_app_r by by rewrite length_replicate.
    rewrite length_replicate, Nat.sub_diag. done.
Qed.

(** ** One step of each recursive function *)

Section Unfold.
Variable call : fid → value → M value.
Variable ToNumber : heap → value → jsnum.

Lemma findDirectPropInObject_S fuel :
  findDirectPropInObject call ToNumber (S fuel)
  = findDirectPropInObject_body call ToNumber
      (findDirectPropInObject call ToNumber fuel).
Proof. reflexivity. Qed.

Lemma findPropInObject_S fuel :
  findPropInObject call ToNumber (S fuel)
  = findPropInObject_body ToNumber
      (findDirectPropInObject call ToNumber fuel)
      (findPropInObject call ToNumber fuel).
Proof. reflexivity. Qed.

Lemma deepCopy_S fuel :
  deepCopy ToNumber (S fuel) = deepCopy_body ToNumber (deepCopy ToNumber fuel).
Proof. reflexivity. Qed.

Lemma to_string_S fuel : to_string (S fuel) = to_string_body (to_string fuel).
Proof. reflexivity. Qed.

Lemma deepCompare_S fuel :
  deepCompare (S fuel) = deepCompare_body (to_string fuel) (deepCompare fuel).
Proof. reflexivity. Qed.

End Unfold.

(** ** Claims settled by running the code *)

(** C4 (failing input): a [null] root with a two-segment path.  The read
    [findPropInObject(null, "a.b")] and every write at that path evaluate
    [result[prop]] on [null], which raises a [TypeError], so the call does
    not complete normally. *)
Theorem findPropInObject_null_root_throws
    (call : fid → value → M value) (ToNumber : heap → value → jsnum)
    (fuel : nat) (copyByRef : bool) (args : option value) (h : heap) :
  findPropInObject call ToNumber (S fuel) VNull "a.b" copyByRef args h
  = Throw TypeError h.
Proof. by destruct copyByRef, args; vm_compute. Qed.

(** C10: [deepCompare] is not symmetric.  With [a = {}] and [b = {a: 1}],
    [deepCompare(a, b)] is [true], since no key of [a] is walked and both
    print as [[object Object]], while [deepCompare(b, a)] is [false]. *)
Theorem deepCompare_not_symmetric (fuel : nat) :
  let h := [CObj []; CObj [("a", VNum 1)]] in
  deepCompare (S (S fuel)) (VRef 0) (VRef 1) h = Ok true h
  ∧ deepCompare (S (S fuel)) (VRef 1) (VRef 0) h = Ok false h.
Proof. split; reflexivity. Qed.

(** Any two mappings without a [toString] of their own print alike,
    whatever they hold. *)
Lemma opt_to_string_mappings fuel h a b pa pb :
  h !! a = Some (CObj pa) → h !! b = Some (CObj pb) →
  assoc_get "toString" pa = None → assoc_get "toString" pb = None →
  opt_to_string (to_string (S fuel)) (VRef a) h = Ok (Some "[object Object]") h
  ∧ opt_to_string (to_string (S fuel)) (VRef b) h = Ok (Some "[object Object]") h.
Proof.
  intros Ha Hb Hta Htb.
  unfold opt_to_string, to_string, to_string_body, bind, read_cell, own_method.
  by rewrite Ha, Hb, Hta, Htb.
Qed.

(** C5 (counterexample): the number [5] is not a composite, yet the read
    of the two-segment path [a.b] on it returns [undefined], not [5]. *)
Lemma non_composite_multi_segment_read :
  getObjectType (VNum 5) [] = Ok TNumber []
  ∧ ∃ h', path_get call_none ToNumber_decimal 3 (VNum 5) "a.b" [] = Ok VUndef h'
          ∧ VUndef ≠ VNum 5.
Proof. split; [done|]. exists [CObj []; CObj []]. split; [by vm_compute|done]. Qed.

Section Direct.
Variable call : fid → value → M value.
Variable ToNumber : heap → value → jsnum.

(** [findDirectPropInObject] hands back anything that is neither an array
    nor an object, and leaves the store alone. *)
Lemma findDirectPropInObject_non_composite fuel obj prop copyByRef args h t :
  getObjectType obj h = Ok t h → is_composite t = false →
  findDirectPropInObject call ToNumber (S fuel) obj prop copyByRef args h = Ok obj h.
Proof.
  intros Ht Hc. unfold findDirectPropInObject, findDirectPropInObject_body, bind.
  rewrite Ht. by rewrite Hc.
Qed.

(** C5 (amended): for a container that is neither an array nor an object
    and a path of one segment, a read returns the container itself and a
    write returns it too, the store unchanged, in either copy mode. *)
Theorem non_composite_single_segment fuel obj pathStr seg copyByRef args h t :
  getObjectType obj h = Ok t h → is_composite t = false →
  parse_path pathStr = [seg] →
  findPropInObject call ToNumber (S (S fuel)) obj pathStr copyByRef args h = Ok obj h.
Proof.
  intros Ht Hc Hp. rewrite findPropInObject_S.
  unfold findPropInObject_body, bind at 1. rewrite Ht, Hp.
  destruct (bool_decide (is_Some args));
    by apply findDirectPropInObject_non_composite with t.
Qed.

End Direct.

Lemma non_composite_single_segment_witness :
  findPropInObject call_none ToNumber_decimal 2 (VStr "abc") "[a]" false
    (Some (VNum 1)) [] = Ok (VStr "abc") [].
Proof.
  apply (non_composite_single_segment call_none ToNumber_decimal 0 (VStr "abc")
           "[a]" "a" false (Some (VNum 1)) [] TString); reflexivity.
Defined.

(** ** Running the monad *)

Lemma bind_Ok {A B} (m : M A) (k : A → M B) h a h' :
  m h = Ok a h' → bind m k h = k a h'.
Proof. unfold bind. by intros ->. Qed.

Lemma bind_Throw {A B} (m : M A) (k : A → M B) h e h' :
  m h = Throw e h' → bind m k h = Throw e h'.
Proof. unfold bind. by intros ->. Qed.

Lemma bind_ret {A B} (a : A) (k : A → M B) h : bind (ret a) k h = k a h.
Proof. done. Qed.

Lemma bind_assoc {A B C} (m : M A) (f : A → M B) (g : B → M C) h :
  bind (bind m f) g h = bind m (fun a => bind (f a) g) h.
Proof. unfold bind. by destruct (m h). Qed.

Lemma ret_Ok {A} (a : A) h : ret a h = Ok a h.
Proof. done. Qed.

Lemma alloc_Ok c h : alloc c h = Ok (VRef (length h)) (h ++ [c]).
Proof. done. Qed.

Lemma read_cell_Ok h l c : h !! l = Some c → read_cell l h = Ok c h.
Proof. unfold read_cell. by intros ->. Qed.

Lemma write_cell_Ok h l c c' :
  h !! l = Some c → write_cell l c' h = Ok tt (<[l := c']> h).
Proof. unfold write_cell. by intros ->. Qed.

Lemma lookup_alloc_new (h : heap) c : (h ++ [c]) !! length h = Some c.
Proof. rewrite lookup_app_r by done. by rewrite Nat.sub_diag. Qed.

Lemma lookup_alloc_old (h : heap) c l c' :
  h !! l = Some c' → (h ++ [c]) !! l = Some c'.
Proof. apply lookup_app_l_Some. Qed.

Lemma insert_alloc_new (h : heap) c c' : <[length h := c']> (h ++ [c]) = h ++ [c'].
Proof. rewrite insert_app_r_alt by done. by rewrite Nat.sub_diag. Qed.

Lemma lookup_write_eq (h : heap) l c c' :
  h !! l = Some c → <[l := c']> h !! l = Some c'.
Proof. intros H. apply list_lookup_insert_eq. by apply lookup_lt_Some in H. Qed.

Lemma lookup_write_ne (h : heap) l l' c c' :
  l ≠ l' → h !! l' = Some c → <[l := c']> h !! l' = Some c.
Proof. intros Hne H. by rewrite list_lookup_insert_ne. Qed.

Lemma getObjectType_ref h l c :
  h !! l = Some c → getObjectType (VRef l) h = Ok (cell_type c) h.
Proof. intros H. unfold getObjectType, bind, read_cell. by rewrite H. Qed.

Lemma array_length_Ok h l elems named :
  h !! l = Some (CArr elems named) → array_length (VRef l) h = Ok (length elems) h.
Proof. intros H. unfold array_length, bind, read_cell. by rewrite H. Qed.

Lemma has_index_Ok h l elems named i :
  h !! l = Some (CArr elems named) →
  has_index (VRef l) i h
  = Ok (match elems !! i with Some (Some _) => true | _ => false end) h.
Proof. intros H. unfold has_index, bind, read_cell. by rewrite H. Qed.

(** *** Keys that the object decides *)

Lemma visible_has c p : cell_has c p = true → visible c p = true.
Proof. unfold visible. by intros ->. Qed.

Lemma visible_plain c p : inherited (cell_type c) p = false → visible c p = true.
Proof. unfold visible. intros ->. apply orb_true_r. Qed.

Lemma has_key_Some k ps v : assoc_get k ps = Some v → has_key k ps = true.
Proof. unfold has_key. by intros ->. Qed.

Lemma has_key_None k ps : assoc_get k ps = None → has_key k ps = false.
Proof. unfold has_key. by intros ->. Qed.

Lemma has_key_true k ps : has_key k ps = true → is_Some (assoc_get k ps).
Proof. unfold has_key. destruct (assoc_get k ps); [by eexists|done]. Qed.

Lemma cell_has_key ps k v : assoc_get k ps = Some v → cell_has (CObj ps) (PStr k) = true.
Proof. apply has_key_Some. Qed.

Lemma cell_has_index elems named p i :
  array_index p = Some i → cell_has (CArr elems named) p = true.
Proof. simpl. by intros ->. Qed.

Lemma visible_index elems named p i :
  array_index p = Some i → visible (CArr elems named) p = true.
Proof. intros H. eapply visible_has, cell_has_index, H. Qed.

Lemma visible_idx c i : visible c (PIdx i) = true.
Proof. unfold visible. simpl. apply orb_true_r. Qed.

Lemma get_prop_ref h l c p :
  h !! l = Some c → visible c p = true → get_prop (VRef l) p h = Ok (cell_get c p) h.
Proof. intros H Hv. unfold get_prop, bind, read_cell. by rewrite H, Hv. Qed.

Lemma array_method_Ok h l elems named m :
  h !! l = Some (CArr elems named) → assoc_get m named = None →
  array_method (VRef l) m h = Ok tt h.
Proof. intros H Hm. unfold array_method, bind, read_cell. by rewrite H, Hm. Qed.

Lemma shallow_copy_array h l elems named :
  h !! l = Some (CArr elems named) →
  shallow_copy (VRef l) h
  = Ok (VRef (length h)) (h ++ [CArr (spread_elems elems) []]).
Proof. intros H. unfold shallow_copy, bind, read_cell. by rewrite H. Qed.

Lemma shallow_copy_object h l props :
  h !! l = Some (CObj props) →
  shallow_copy (VRef l) h = Ok (VRef (length h)) (h ++ [CObj (spread_props props)]).
Proof. intros H. unfold shallow_copy, bind, read_cell. by rewrite H. Qed.

Lemma Object_keys_object h l props :
  h !! l = Some (CObj props) →
  Object_keys (VRef l) h = Ok (map PStr (own_keys props)) h.
Proof. intros H. unfold Object_keys, bind, read_cell. by rewrite H. Qed.

Lemma Object_keys_array h l elems named :
  h !! l = Some (CArr elems named) →
  Object_keys (VRef l) h
  = Ok (present_from 0 elems ++ map PStr (own_keys named)) h.
Proof. intros H. unfold Object_keys, bind, read_cell. by rewrite H. Qed.

Lemma delete_prop_object h l props p :
  h !! l = Some (CObj props) →
  delete_prop (VRef l) p h
  = Ok tt (<[l := CObj (assoc_delete (key_string p) props)]> h).
Proof.
  intros H. unfold delete_prop, bind, read_cell. rewrite H.
  unfold write_cell. by rewrite H.
Qed.

Create HintDb run discriminated.
#[global] Hint Resolve ret_Ok alloc_Ok read_cell_Ok getObjectType_ref
  array_length_Ok has_index_Ok get_prop_ref shallow_copy_array
  shallow_copy_object Object_keys_object Object_keys_array delete_prop_object
  lookup_alloc_new lookup_alloc_old lookup_write_eq array_method_Ok
  visible_idx visible_index cell_has_index : run.
#[global] Hint Extern 3 (visible _ _ = true) => reflexivity : run.
#[global] Hint Extern 3 (assoc_get _ _ = None) => reflexivity : run.

(** One step of a run whose next action is known to succeed. *)
Ltac mstep :=
  match goal with
  | |- bind (bind ?m ?f) ?g ?h = _ => rewrite (bind_assoc m f g h)
  | |- bind (ret ?a) ?k ?h = _ => rewrite (bind_ret a k h); cbv beta
  | |- bind ?m ?k ?h = _ =>
      erewrite (bind_Ok m k h) by (solve [eauto with run]); cbv beta
  end.
Ltac mrun := repeat mstep.

(** Where an assignment stores: at a property the object has, and at any
    other key but [__proto__], whose setter runs, and the members of a
    function that an assignment cannot change. *)
Definition assignable (c : cell) (p : propname) : bool :=
  cell_has c p
  || negb (prop_is p "__proto__"
           || match c with
              | CFun _ _ _ => name_in (key_string p) Function_fixed
              | _ => false
              end).

Lemma assignable_setter c p :
  assignable c p = true → negb (cell_has c p) && prop_is p "__proto__" = false.
Proof.
  unfold assignable. destruct (cell_has c p); [done|]. simpl.
  destruct (prop_is p "__proto__"); [done|done].
Qed.

Lemma assignable_has c p : cell_has c p = true → assignable c p = true.
Proof. unfold assignable. by intros ->. Qed.

Lemma assignable_idx elems named i : assignable (CArr elems named) (PIdx i) = true.
Proof. done. Qed.

(** A key that no prototype has is not [__proto__]. *)
Lemma assignable_plain props p :
  inherited TObject p = false → assignable (CObj props) p = true.
Proof.
  unfold assignable. intros Hi. destruct p as [s|i]; [|by rewrite orb_true_r].
  destruct (prop_is (PStr s) "__proto__") eqn:E; [|by rewrite orb_true_r].
  unfold prop_is in E. apply String.eqb_eq in E as ->. done.
Qed.

#[global] Hint Resolve assignable_has assignable_idx : run.
#[global] Hint Extern 3 (assignable _ _ = true) => reflexivity : run.

Section Primitives.
Variable ToNumber : heap → value → jsnum.

Lemma set_prop_object h l props p x :
  h !! l = Some (CObj props) → assignable (CObj props) p = true →
  set_prop ToNumber (VRef l) p x h
  = Ok tt (<[l := CObj (assoc_set (key_string p) x props)]> h).
Proof.
  intros H Ha. unfold set_prop, bind, read_cell. rewrite H.
  rewrite (assignable_setter _ _ Ha).
  unfold write_cell. by rewrite H.
Qed.

Lemma set_prop_index h l elems named p i x :
  h !! l = Some (CArr elems named) → array_index p = Some i →
  set_prop ToNumber (VRef l) p x h
  = Ok tt (<[l := CArr (elem_set elems i x) named]> h).
Proof.
  intros H Hi. unfold set_prop, bind, read_cell. rewrite H.
  rewrite (cell_has_index _ _ _ _ Hi). simpl. rewrite Hi.
  unfold write_cell. by rewrite H.
Qed.

(** The setter of [__proto__] does nothing with a value that is neither
    an object nor [null]. *)
Lemma set_prop_proto h l c x :
  h !! l = Some c → cell_has c (PStr "__proto__") = false →
  match x with VRef _ | VNull => False | _ => True end →
  set_prop ToNumber (VRef l) (PStr "__proto__") x h = Ok tt h.
Proof.
  intros H Hn Hx. unfold set_prop, bind, read_cell. rewrite H, Hn. simpl.
  by destruct x.
Qed.

Lemma splice1_index h l elems named i :
  h !! l = Some (CArr elems named) → assoc_get "splice" named = None →
  splice1 ToNumber (VRef l) (PIdx i) h
  = Ok tt (<[l := CArr (remove_at elems
                          (splice_start (length elems) (NInt (Z.of_nat i)))) named]> h).
Proof.
  intros H Hs. unfold splice1. mrun. by apply write_cell_Ok with (CArr elems named).
Qed.

End Primitives.

#[global] Hint Resolve set_prop_object set_prop_index splice1_index : run.

(** ** The kind of a value in a store *)

Definition type_in (h : heap) (v : value) : option jstype :=
  match v with
  | VUndef => Some TUndefined
  | VNull => Some TNull
  | VBool _ => Some TBoolean
  | VNum _ => Some TNumber
  | VStr _ => Some TString
  | VRef l => cell_type <$> h !! l
  end.

(** A literal replacement: a value of the store that is not a function. *)
Definition literal (h : heap) (v : value) : Prop :=
  ∃ t, type_in h v = Some t ∧ t ≠ TFunction.

Lemma getObjectType_type_in h v t :
  type_in h v = Some t → getObjectType v h = Ok t h.
Proof.
  destruct v; simpl; try by intros [= <-].
  destruct (h !! l) as [c|] eqn:E; [|done]. intros [= <-].
  by apply getObjectType_ref.
Qed.

Lemma type_in_prefix h h' v t :
  h `prefix_of` h' → type_in h v = Some t → type_in h' v = Some t.
Proof.
  intros Hp. destruct v; try done. unfold type_in.
  destruct (h !! l) as [c|] eqn:E; [|done].
  by rewrite (prefix_lookup_Some _ _ _ _ E Hp).
Qed.

Lemma literal_prefix h h' v : h `prefix_of` h' → literal h v → literal h' v.
Proof. intros Hp (t & Ht & Hne). exists t. eauto using type_in_prefix. Qed.

Lemma prefix_alloc (h : heap) c : h `prefix_of` h ++ [c].
Proof. by apply prefix_app_r. Qed.

Lemma splice_start_index len i :
  splice_start len (NInt (Z.of_nat i)) = i `min` len.
Proof.
  unfold splice_start. destruct (Z.ltb_spec (Z.of_nat i) 0); lia.
Qed.

(** ** C7: the wildcard write of [undefined] on an array *)

Section WildcardRemove.
Variable call : fid → value → M value.
Variable ToNumber : heap → value → jsnum.

(** One turn of the [while] loop: [findDirectPropInObject(result, 0, true,
    undefined)] splices the first element out of the array in place. *)
Lemma remove_first fuel h n e r named :
  h !! n = Some (CArr (e :: r) named) → assoc_get "splice" named = None →
  findDirectPropInObject call ToNumber (S fuel) (VRef n) (PIdx 0) true (Some VUndef) h
  = Ok (VRef n) (<[n := CArr r named]> h).
Proof.
  intros Hn Hs. rewrite findDirectPropInObject_S. unfold findDirectPropInObject_body.
  mrun. simpl. mrun. simpl. mrun.
  by rewrite ret_Ok, splice_start_index.
Qed.

(** The loop runs once per element and leaves none. *)
Lemma while_length_empties fuel es : ∀ h n named,
  h !! n = Some (CArr es named) → assoc_get "splice" named = None →
  while_length (length es) (VRef n)
    (findDirectPropInObject call ToNumber (S fuel) (VRef n) (PIdx 0) true
       (Some VUndef) ;;; ret tt) h
  = Ok tt (<[n := CArr [] named]> h).
Proof.
  induction es as [|e r IH]; intros h n named Hn Hs.
  - simpl. mrun. simpl. by rewrite list_insert_id.
  - cbn [while_length length]. mrun. simpl.
    erewrite bind_Ok
      by (erewrite bind_Ok by (eapply remove_first; eassumption); done).
    rewrite (IH _ _ named).
    + by rewrite list_insert_insert_eq.
    + by eapply lookup_write_eq.
    + done.
Qed.

(** C7: for every array root, [set(root, '*', undefined)] returns an
    empty array (a new one, the root being copied first): every element
    is deleted and none is skipped, whatever the length, holes or named
    properties of the root. *)
Theorem wildcard_remove_empties_array fuel h l elems named :
  h !! l = Some (CArr elems named) →
  path_remove call ToNumber (S (S (S fuel))) (VRef l) "*" h
  = Ok (VRef (length h)) (h ++ [CArr [] []]).
Proof.
  intros Hl. unfold path_remove. rewrite findPropInObject_S.
  unfold findPropInObject_body. mrun.
  change (parse_path "*") with ["*"]. simpl.
  rewrite findDirectPropInObject_S. unfold findDirectPropInObject_body. mrun.
  simpl. mrun.
  erewrite bind_Ok by (eapply while_length_empties; [apply lookup_alloc_new|done]).
  by rewrite insert_alloc_new.
Qed.

(** In place ([copyByRef = true]) the root itself is emptied, when it
    has no [splice] of its own. *)
Lemma wildcard_remove_in_place fuel h l elems named :
  h !! l = Some (CArr elems named) → assoc_get "splice" named = None →
  findPropInObject call ToNumber (S (S (S fuel))) (VRef l) "*" true (Some VUndef) h
  = Ok (VRef l) (<[l := CArr [] named]> h).
Proof.
  intros Hl Hs. rewrite findPropInObject_S.
  unfold findPropInObject_body. mrun.
  change (parse_path "*") with ["*"]. simpl.
  rewrite findDirectPropInObject_S. unfold findDirectPropInObject_body. mrun.
  simpl. mrun.
  by erewrite bind_Ok by (eapply while_length_empties; eassumption).
Qed.

End WildcardRemove.

Lemma wildcard_remove_empties_array_witness :
  path_remove call_none ToNumber_decimal 3 (VRef 0) "*"
    [CArr [Some (VNum 1); Some (VNum 2); Some (VNum 3)] []]
  = Ok (VRef 1) [CArr [Some (VNum 1); Some (VNum 2); Some (VNum 3)] []; CArr [] []].
Proof.
  exact (wildcard_remove_empties_array call_none ToNumber_decimal 0
           [CArr [Some (VNum 1); Some (VNum 2); Some (VNum 3)] []] 0
           [Some (VNum 1); Some (VNum 2); Some (VNum 3)] [] eq_refl).
Defined.

(** ** Reads and writes at one key of an object *)

Arguments prop_is : simpl never.

Lemma prop_is_false k s : k ≠ s → prop_is (PStr k) s = false.
Proof. intros H. unfold prop_is. by apply String.eqb_neq. Qed.

(** What a write of [v] at key [k] makes of the own properties. *)
Definition props_written (k : string) (v : value) (ps : list (string * value))
  : list (string * value) :=
  if is_undef v then assoc_delete k ps else assoc_set k v ps.

Lemma assoc_get_props_written k v ps k' :
  assoc_get k' (props_written k v ps)
  = if decide (k' = k) then (if is_undef v then None else Some v)
    else assoc_get k' ps.
Proof.
  unfold props_written. destruct (decide (k' = k)) as [->|Hne].
  - destruct (is_undef v); [apply assoc_get_delete_eq|apply assoc_get_set_eq].
  - destruct (is_undef v);
      [by apply assoc_get_delete_ne|by apply assoc_get_set_ne].
Qed.

Lemma has_key_spread k ps : has_key k (spread_props ps) = has_key k ps.
Proof. unfold has_key. by rewrite assoc_get_spread. Qed.

(** The shallow copy of a mapping has the keys of the mapping. *)
Lemma visible_spread ps p :
  visible (CObj (spread_props ps)) p = visible (CObj ps) p.
Proof. unfold visible. simpl. by rewrite has_key_spread. Qed.

Lemma assignable_spread ps p :
  assignable (CObj (spread_props ps)) p = assignable (CObj ps) p.
Proof. unfold assignable. simpl. by rewrite has_key_spread. Qed.

(** Any key but [__proto__] can be assigned on a mapping. *)
Lemma assignable_mapping ps k : k ≠ "__proto__" → assignable (CObj ps) (PStr k) = true.
Proof.
  intros Hk. unfold assignable. rewrite prop_is_false by done. apply orb_true_r.
Qed.

Section DirectObject.
Variable call : fid → value → M value.
Variable ToNumber : heap → value → jsnum.

(** A literal write at a key of an object, on a copy. *)
Lemma direct_write_object fuel h l ps k v :
  h !! l = Some (CObj ps) → k ≠ "" → k ≠ "*" →
  assignable (CObj ps) (PStr k) = true → literal h v →
  findDirectPropInObject call ToNumber (S fuel) (VRef l) (PStr k) false (Some v) h
  = Ok (VRef (length h)) (h ++ [CObj (props_written k v (spread_props ps))]).
Proof.
  intros Hl Hk1 Hk2 Ha (t & Ht & Hnf).
  rewrite <- assignable_spread in Ha.
  rewrite findDirectPropInObject_S. unfold findDirectPropInObject_body.
  mrun. simpl. mrun. rewrite !prop_is_false by done. simpl.
  erewrite bind_Ok
    by (apply getObjectType_type_in; eapply type_in_prefix; [apply prefix_alloc|done]).
  rewrite bool_decide_eq_false_2 by done. mrun.
  unfold props_written. destruct (is_undef v) eqn:Ev; simpl; mrun.
  - by rewrite insert_alloc_new.
  - by rewrite insert_alloc_new.
Qed.

(** A read at a key of an object. *)
Lemma direct_read_object fuel h l ps k :
  h !! l = Some (CObj ps) → k ≠ "" → k ≠ "*" → visible (CObj ps) (PStr k) = true →
  findDirectPropInObject call ToNumber (S fuel) (VRef l) (PStr k) false None h
  = Ok (default VUndef (assoc_get k ps)) (h ++ [CObj (spread_props ps)]).
Proof.
  intros Hl Hk1 Hk2 Hv. rewrite <- visible_spread in Hv.
  rewrite findDirectPropInObject_S. unfold findDirectPropInObject_body.
  mrun. simpl. mrun. rewrite !prop_is_false by done. simpl.
  erewrite get_prop_ref by (first [apply lookup_alloc_new|done]).
  simpl. unfold named_get. simpl. by rewrite assoc_get_spread.
Qed.

End DirectObject.

Lemma assoc_get_elem_of k v ps : assoc_get k ps = Some v → (k, v) ∈ ps.
Proof.
  induction ps as [|[k' v'] r IH]; simpl; [done|].
  destruct (String.eqb_spec k k') as [->|Hne].
  - intros [= ->]. by left.
  - intros H. right. by apply IH.
Qed.

(** ** C8: [mergeObjects] *)

(** The entries of a fragment that [mergeObjects] writes as they stand:
    the key has no dot and no bracket, is not empty, is not the wildcard
    and is not [__proto__], whose setter an assignment runs, and the value
    is a literal other than [undefined]. *)
Definition mergeable (h : heap) (kv : string * value) : Prop :=
  plain kv.1 = true ∧ kv.1 ≠ "" ∧ kv.1 ≠ "*" ∧ kv.1 ≠ "__proto__"
  ∧ kv.2 ≠ VUndef ∧ literal h kv.2.

Section Merge.
Variable call : fid → value → M value.
Variable ToNumber : heap → value → jsnum.

(** The [reduce] over the keys of the fragment. *)
Lemma merge_fold fuel b pb ks : ∀ h r pr,
  h !! b = Some (CObj pb) → h !! r = Some (CObj pr) →
  (∀ k, k ∈ ks → ∃ v, assoc_get k pb = Some v ∧ mergeable h (k, v)) →
  ∃ r' pr' h',
    reduce (map PStr ks) (VRef r) (fun prev next =>
      let* v := get_prop (VRef b) next in
      findPropInObject call ToNumber (S (S fuel)) prev (key_string next) false (Some v)) h
    = Ok (VRef r') h'
    ∧ h' !! r' = Some (CObj pr')
    ∧ h `prefix_of` h'
    ∧ ∀ k, assoc_get k pr' = if decide (k ∈ ks) then assoc_get k pb else assoc_get k pr.
Proof.
  induction ks as [|k ks IH]; intros h r pr Hb Hr Hks.
  - by exists r, pr, h.
  - destruct (Hks k) as (v & Hv & Hplain & Hk1 & Hk2 & Hk3 & Hv1 & Hv2); [by left|].
    simpl in *.
    set (h1 := h ++ [CObj (assoc_set k v (spread_props pr))]).
    assert (h `prefix_of` h1) as Hp by apply prefix_alloc.
    destruct (IH h1 (length h) (assoc_set k v (spread_props pr))) as (r' & pr' & h' & Hrun & Hr' & Hp' & Hget).
    { by apply lookup_alloc_old. }
    { apply lookup_alloc_new. }
    { intros k' Hk'. destruct (Hks k') as (v' & Hv' & ? & ? & ? & ? & ? & ?); [by right|].
      exists v'. split; [done|]. split_and!; try done. by apply literal_prefix with h. }
    exists r', pr', h'. split_and!; try done.
    + assert (visible (CObj pb) (PStr k) = true) as Hvis
        by (eapply visible_has, cell_has_key, Hv).
      cbn [map reduce]. mrun. simpl.
      rewrite findPropInObject_S. unfold findPropInObject_body. mrun.
      rewrite (parse_path_plain k) by done. simpl.
      erewrite bind_Ok; [exact Hrun|].
      unfold named_get. simpl. rewrite Hv. simpl.
      rewrite (direct_write_object call ToNumber fuel h r pr k v)
        by (try done; by apply assignable_mapping).
      unfold props_written. by destruct v.
    + by etrans.
    + intros k'. rewrite Hget.
      destruct (decide (k' ∈ ks)) as [Hin|Hnin].
      * by rewrite decide_True by by right.
      * destruct (decide (k' = k)) as [->|Hne].
        -- rewrite decide_True by by left. by rewrite assoc_get_set_eq.
        -- rewrite decide_False by (by intros [?|?]%elem_of_cons).
           rewrite assoc_get_set_ne by done. apply assoc_get_spread.
Qed.

(** C8 (amended): for mappings [base] and [fragment] whose fragment keys
    have no dot or bracket, are not empty, are not the wildcard and are
    not [__proto__], and whose fragment values are literals other than
    [undefined],
    [merge(base, fragment)] returns a mapping in which every key of the
    fragment maps to the fragment's value and every other key maps to what
    [base] maps it to, and [base] is unmodified. *)
Theorem mergeObjects_spec fuel h a b pa pb :
  h !! a = Some (CObj pa) → h !! b = Some (CObj pb) →
  Forall (mergeable h) pb →
  ∃ r pr h',
    mergeObjects call ToNumber (S (S fuel)) (VRef a) (VRef b) h = Ok (VRef r) h'
    ∧ h' !! r = Some (CObj pr)
    ∧ (∀ k, assoc_get k pr
            = match assoc_get k pb with Some v => Some v | None => assoc_get k pa end)
    ∧ h' !! a = Some (CObj pa)
    ∧ h `prefix_of` h'.
Proof.
  intros Ha Hb Hall.
  destruct (merge_fold fuel b pb (own_keys pb) (h ++ [CObj (spread_props pa)])
              (length h) (spread_props pa))
    as (r & pr & h' & Hrun & Hr & Hp & Hget).
  { by apply lookup_alloc_old. }
  { apply lookup_alloc_new. }
  { intros k Hk. apply elem_of_own_keys, assoc_get_is_Some in Hk as [v Hv].
    exists v. split; [done|].
    pose proof (assoc_get_elem_of _ _ _ Hv) as Hin.
    rewrite Forall_forall in Hall. destruct (Hall _ Hin) as (? & ? & ? & ? & ? & ?).
    split_and!; try done. apply literal_prefix with h; [apply prefix_alloc|done]. }
  assert (h `prefix_of` h') as Hp' by (etrans; [apply prefix_alloc|done]).
  exists r, pr, h'. split_and!; try done.
  - unfold mergeObjects. mrun.
    unfold spread_object. mrun. exact Hrun.
  - intros k. rewrite Hget, assoc_get_spread.
    destruct (decide (k ∈ own_keys pb)) as [Hin|Hnin].
    + apply elem_of_own_keys, assoc_get_is_Some in Hin as [v Hv]. by rewrite Hv.
    + destruct (assoc_get k pb) eqn:E; [|done].
      exfalso. apply Hnin, elem_of_own_keys, assoc_get_is_Some. eauto.
  - by eapply prefix_lookup_Some.
Qed.
End Merge.

Definition merge_example_heap : heap :=
  [CObj [("a", VNum 1); ("b", VNum 2)]; CObj [("b", VNum 3); ("c", VNum 4)]].

(** [merge({a:1,b:2}, {b:3,c:4}) == {a:1,b:3,c:4}] *)
Example merge_example :
  ∃ h', mergeObjects call_none ToNumber_decimal 2 (VRef 0) (VRef 1) merge_example_heap
        = Ok (VRef 4) h'
        ∧ h' !! 4 = Some (CObj [("a", VNum 1); ("b", VNum 3); ("c", VNum 4)])
        ∧ h' !! 0 = Some (CObj [("a", VNum 1); ("b", VNum 2)]).
Proof. eexists. split; [by vm_compute|done]. Qed.

Lemma mergeObjects_spec_witness :
  ∃ r pr h',
    mergeObjects call_none ToNumber_decimal 2 (VRef 0) (VRef 1) merge_example_heap
    = Ok (VRef r) h'
    ∧ h' !! r = Some (CObj pr)
    ∧ (∀ k, assoc_get k pr
            = match assoc_get k [("b", VNum 3); ("c", VNum 4)] with
              | Some v => Some v
              | None => assoc_get k [("a", VNum 1); ("b", VNum 2)]
              end)
    ∧ h' !! 0 = Some (CObj [("a", VNum 1); ("b", VNum 2)])
    ∧ merge_example_heap `prefix_of` h'.
Proof.
  apply (mergeObjects_spec call_none ToNumber_decimal 0 merge_example_heap 0 1
           [("a", VNum 1); ("b", VNum 2)] [("b", VNum 3); ("c", VNum 4)]);
    [reflexivity|reflexivity|].
  repeat constructor; simpl; try done; by exists TNumber.
Defined.

(** C8 (counterexample): the keys [""], ["*"] and ["__proto__"] have no
    dot and no bracket and the values are not [undefined], yet
    [merge({}, {"": 1})] is [{}], where the key [""] maps to nothing,
    [merge({a: 1}, {"*": 5})] is [{a: 5}], where the key [a] of the base
    alone no longer maps to the base's value, and the merge of [{}] with
    a fragment that has the key [__proto__] (as [JSON.parse] gives) with
    the value [1] is [{}]. *)
Lemma merge_empty_and_wildcard_keys :
  (plain "" = true ∧ plain "*" = true ∧ plain "__proto__" = true)
  ∧ (∃ r pr h',
       mergeObjects call_none ToNumber_decimal 3 (VRef 0) (VRef 1)
         [CObj []; CObj [("", VNum 1)]] = Ok (VRef r) h'
       ∧ h' !! r = Some (CObj pr)
       ∧ assoc_get "" pr ≠ Some (VNum 1))
  ∧ (∃ r pr h',
       mergeObjects call_none ToNumber_decimal 3 (VRef 0) (VRef 1)
         [CObj [("a", VNum 1)]; CObj [("*", VNum 5)]] = Ok (VRef r) h'
       ∧ h' !! r = Some (CObj pr)
       ∧ assoc_get "a" pr ≠ Some (VNum 1)
       ∧ assoc_get "*" pr ≠ Some (VNum 5))
  ∧ (∃ r pr h',
       mergeObjects call_none ToNumber_decimal 3 (VRef 0) (VRef 1)
         [CObj []; CObj [("__proto__", VNum 1)]] = Ok (VRef r) h'
       ∧ h' !! r = Some (CObj pr)
       ∧ assoc_get "__proto__" pr ≠ Some (VNum 1)).
Proof.
  split; [done|]. split; [|split].
  - exists 3, [], [CObj []; CObj [("", VNum 1)]; CObj []; CObj []].
    split; [by vm_compute|done].
  - exists 3, [("a", VNum 5)],
      [CObj [("a", VNum 1)]; CObj [("*", VNum 5)]; CObj [("a", VNum 1)];
       CObj [("a", VNum 5)]].
    split; [by vm_compute|done].
  - exists 3, [], [CObj []; CObj [("__proto__", VNum 1)]; CObj []; CObj []].
    split; [by vm_compute|done].
Qed.

(** ** Writing one property of a cell *)

(** [c[p] = x] on a cell, for any key but the [length] of an array. *)
Definition cell_set (c : cell) (p : propname) (x : value) : cell :=
  match c with
  | CArr elems named =>
      match array_index p with
      | Some i => CArr (elem_set elems i x) named
      | None => CArr elems (assoc_set (key_string p) x named)
      end
  | CObj props => CObj (assoc_set (key_string p) x props)
  | CFun f s props => CFun f s (assoc_set (key_string p) x props)
  end.

(** The key is not the [length] of an array. *)
Definition settable (c : cell) (p : propname) : Prop :=
  match c with
  | CArr _ _ => array_index p = None → key_string p ≠ "length"
  | _ => True
  end.

(** The shallow copy of an array or an object. *)
Definition cell_copy (c : cell) : cell :=
  match c with
  | CArr elems _ => CArr (spread_elems elems) []
  | CObj props => CObj (spread_props props)
  | CFun f s props => CFun f s props
  end.

Definition composite (c : cell) : Prop := is_composite (cell_type c) = true.

Lemma cell_get_set_eq c p x : settable c p → cell_get (cell_set c p x) p = x.
Proof.
  destruct c as [elems named|props|f s props]; simpl; intros Hs.
  - destruct (array_index p) as [i|] eqn:E; simpl; rewrite E.
    + apply elem_get_set_eq.
    + specialize (Hs eq_refl). apply String.eqb_neq in Hs. rewrite Hs.
      unfold named_get. by rewrite assoc_get_set_eq.
  - unfold named_get. by rewrite assoc_get_set_eq.
  - unfold named_get. by rewrite assoc_get_set_eq.
Qed.

Lemma settable_set c p x q : settable c q → settable (cell_set c p x) q.
Proof.
  destruct c; simpl; try done. by destruct (array_index p).
Qed.

Lemma settable_undef c p : cell_get c p = VUndef → settable c p.
Proof.
  destruct c as [elems named|props|f s props]; simpl; try done.
  intros H Hi. rewrite Hi in H.
  destruct (String.eqb_spec (key_string p) "length"); [done|done].
Qed.

Lemma cell_get_copy_undef c p : cell_get c p = VUndef → cell_get (cell_copy c) p = VUndef.
Proof.
  destruct c as [elems named|props|f s props]; simpl; try done.
  - destruct (array_index p) as [i|]; [by rewrite elem_get_spread|].
    by destruct (String.eqb (key_string p) "length").
  - unfold named_get. by rewrite assoc_get_spread.
Qed.

Lemma composite_set c p x : composite c → composite (cell_set c p x).
Proof. destruct c; simpl; try done. by destruct (array_index p). Qed.

Lemma cell_type_set c p x : cell_type (cell_set c p x) = cell_type c.
Proof. destruct c; simpl; try done. by destruct (array_index p). Qed.

Section SetProp.
Variable ToNumber : heap → value → jsnum.

Lemma set_prop_cell h l c p x :
  h !! l = Some c → settable c p → assignable c p = true →
  set_prop ToNumber (VRef l) p x h = Ok tt (<[l := cell_set c p x]> h).
Proof.
  intros H Hs Ha. unfold set_prop. mrun.
  rewrite (assignable_setter _ _ Ha).
  destruct c as [elems named|props|f s props]; cbn [cell_set].
  - destruct (array_index p) as [i|] eqn:E; [by eapply write_cell_Ok|].
    simpl in Hs. specialize (Hs E). apply String.eqb_neq in Hs. rewrite Hs.
    by eapply write_cell_Ok.
  - by eapply write_cell_Ok.
  - replace (negb (cell_has (CFun f s props) p)
             && name_in (key_string p) Function_fixed) with false;
      [by eapply write_cell_Ok|].
    unfold assignable in Ha. destruct (cell_has (CFun f s props) p); [done|].
    destruct (name_in (key_string p) Function_fixed); [|done].
    by rewrite orb_true_r in Ha.
Qed.

(** What an assignment has stored is a property of the object. *)
Lemma cell_has_set c p x : settable c p → cell_has (cell_set c p x) p = true.
Proof.
  destruct c as [elems named|props|f s props]; simpl; intros Hs.
  - destruct (array_index p) as [i|] eqn:E; simpl; rewrite E; [done|].
    unfold has_key. rewrite assoc_get_set_eq. apply orb_true_r.
  - unfold has_key. by rewrite assoc_get_set_eq.
  - unfold has_key. by rewrite assoc_get_set_eq.
Qed.

Lemma visible_set c p x : settable c p → visible (cell_set c p x) p = true.
Proof. intros Hs. by apply visible_has, cell_has_set. Qed.

Lemma assignable_set c p x : settable c p → assignable (cell_set c p x) p = true.
Proof. intros Hs. by apply assignable_has, cell_has_set. Qed.

(** The shallow copy of an array or a mapping decides the keys that the
    original decides. *)
Lemma cell_has_copy c p : composite c → cell_has c p = true → cell_has (cell_copy c) p = true
  ∨ (∃ elems named, c = CArr elems named ∧ array_index p = None
                    ∧ key_string p ≠ "length").
Proof.
  destruct c as [elems named|props|f s props]; simpl; try done; intros _.
  - destruct (array_index p) as [i|]; [by left|].
    destruct (String.eqb_spec (key_string p) "length") as [->|Hne]; [by left|].
    intros _. right. by exists elems, named.
  - rewrite has_key_spread. by left.
Qed.

Lemma shallow_copy_cell h l c :
  h !! l = Some c → composite c →
  shallow_copy (VRef l) h = Ok (VRef (length h)) (h ++ [cell_copy c]).
Proof.
  intros H Hc. unfold shallow_copy. mrun. by destruct c.
Qed.
End SetProp.

Lemma type_in_below (h h' : heap) (e : nat) x t :
  (∀ l, l < e → h' !! l = h !! l) →
  match x with VRef lx => lx < e | _ => True end →
  type_in h x = Some t → type_in h' x = Some t.
Proof.
  intros Hsame Hx. destruct x; try done. unfold type_in. by rewrite Hsame.
Qed.

(** A literal that lives below a location of the store. *)
Definition literal_below (h : heap) (e : nat) (x : value) : Prop :=
  literal h x ∧ match x with VRef lx => lx < e | _ => True end.

Lemma literal_below_same (h h' : heap) (e e' : nat) x :
  (∀ l, l < e → h' !! l = h !! l) → e ≤ e' →
  literal_below h e x → literal_below h' e' x.
Proof.
  intros Hsame Hle [(t & Ht & Hne) Hx]. split.
  - exists t. split; [|done]. by apply type_in_below with h e.
  - destruct x; try done. lia.
Qed.

Lemma literal_literal_below h x : literal h x → literal_below h (length h) x.
Proof.
  intros Hl. split; [done|]. destruct Hl as (t & Ht & _).
  destruct x; try done. unfold type_in in Ht.
  destruct (h !! l) eqn:E; [|done]. by apply lookup_lt_Some in E.
Qed.

Section Enter.
Variable call : fid → value → M value.
Variable ToNumber : heap → value → jsnum.

(** The entry of both functions: the root itself in place, or its shallow
    copy at the end of the store. *)
Definition entered (b : bool) (h : heap) (l : nat) : nat :=
  if b then l else length h.
Definition entered_heap (b : bool) (h : heap) (c : cell) : heap :=
  if b then h else h ++ [cell_copy c].
Definition entered_cell (b : bool) (c : cell) : cell := if b then c else cell_copy c.

Lemma enter_run (b : bool) (h : heap) (l : nat) c :
  h !! l = Some c → composite c →
  (if b then ret (VRef l) else shallow_copy (VRef l)) h
  = Ok (VRef (entered b h l)) (entered_heap b h c).
Proof. intros H Hc. destruct b; [done|]. by apply shallow_copy_cell. Qed.

Lemma enter_lookup (b : bool) (h : heap) (l : nat) c :
  h !! l = Some c → entered_heap b h c !! entered b h l = Some (entered_cell b c).
Proof. intros H. destruct b; [done|]. apply lookup_alloc_new. Qed.

Lemma enter_old (b : bool) (h : heap) c (l' : nat) : l' < length h → entered_heap b h c !! l' = h !! l'.
Proof. intros H. destruct b; [done|]. simpl. by rewrite lookup_app_l. Qed.

Lemma enter_length (b : bool) (h : heap) c : (length h ≤ length (entered_heap b h c))%nat.
Proof. destruct b; simpl; [done|]. rewrite length_app. lia. Qed.

Lemma enter_bound (b : bool) (h : heap) (l : nat) c : h !! l = Some c → entered b h l < length (entered_heap b h c).
Proof.
  intros H%lookup_lt_Some. destruct b; simpl; [done|]. rewrite length_app. simpl. lia.
Qed.

Lemma enter_ge (b : bool) (h : heap) (l : nat) c : h !! l = Some c → (l ≤ entered b h l)%nat.
Proof. intros H%lookup_lt_Some. destruct b; simpl; lia. Qed.

End Enter.

(** ** Stores that keep the kind of every object *)

Definition same_types (h h' : heap) : Prop :=
  ∀ l c, h !! l = Some c → ∃ c', h' !! l = Some c' ∧ cell_type c' = cell_type c.

Definition unchanged_below (e : nat) (h h' : heap) : Prop :=
  ∀ l, l < e → h' !! l = h !! l.

Lemma same_types_refl (h : heap) : same_types h h.
Proof. intros l c H. eauto. Qed.

Lemma same_types_trans (h1 h2 h3 : heap) :
  same_types h1 h2 → same_types h2 h3 → same_types h1 h3.
Proof.
  intros H12 H23 l c H. destruct (H12 _ _ H) as (c2 & H2 & E2).
  destruct (H23 _ _ H2) as (c3 & H3 & E3). exists c3. split; [done|congruence].
Qed.

Lemma same_types_alloc (h : heap) c : same_types h (h ++ [c]).
Proof. intros l c' H. exists c'. split; [by apply lookup_alloc_old|done]. Qed.

Lemma same_types_write (h : heap) (l : nat) c c' :
  h !! l = Some c → cell_type c' = cell_type c → same_types h (<[l := c']> h).
Proof.
  intros Hl Ht l' c0 H. destruct (decide (l = l')) as [<-|Hne].
  - exists c'. split; [by eapply lookup_write_eq|]. congruence.
  - exists c0. split; [by apply lookup_write_ne|done].
Qed.

Lemma same_types_length (h h' : heap) : same_types h h' → length h ≤ length h'.
Proof.
  intros H. destruct (decide (length h ≤ length h')) as [|Hn]; [done|].
  destruct (lookup_lt_is_Some_2 h (length h')) as [c Hc]; [lia|].
  destruct (H _ _ Hc) as (c' & Hc' & _). apply lookup_lt_Some in Hc'. lia.
Qed.

Lemma literal_same_types (h h' : heap) x : same_types h h' → literal h x → literal h' x.
Proof.
  intros Hs (t & Ht & Hne). exists t. split; [|done].
  destruct x; try done. unfold type_in in *.
  destruct (h !! l) as [c|] eqn:E; [|done]. destruct (Hs _ _ E) as (c' & -> & Hc').
  simpl in *. congruence.
Qed.

Lemma unchanged_below_refl (e : nat) (h : heap) : unchanged_below e h h.
Proof. by intros l _. Qed.

Lemma unchanged_below_trans (e : nat) (h1 h2 h3 : heap) :
  unchanged_below e h1 h2 → unchanged_below e h2 h3 → unchanged_below e h1 h3.
Proof. intros H12 H23 l Hl. by rewrite H23, H12. Qed.

Lemma unchanged_below_le (e e' : nat) (h h' : heap) :
  e' ≤ e → unchanged_below e h h' → unchanged_below e' h h'.
Proof. intros Hle H l Hl. apply H. lia. Qed.

Lemma unchanged_below_alloc (e : nat) (h : heap) c :
  e ≤ length h → unchanged_below e h (h ++ [c]).
Proof. intros Hle l Hl. rewrite lookup_app_l; [done|lia]. Qed.

Lemma unchanged_below_write (e l : nat) (h : heap) c :
  e ≤ l → unchanged_below e h (<[l := c]> h).
Proof. intros Hle l' Hl. rewrite list_lookup_insert_ne; [done|lia]. Qed.

Lemma prop_is_true (s : string) : prop_is (PStr s) s = true.
Proof. unfold prop_is. apply String.eqb_refl. Qed.

(** A key that no prototype of an array or a mapping has can be assigned. *)
Lemma assignable_plain_cell c p :
  composite c → inherited (cell_type c) p = false → assignable c p = true.
Proof.
  intros Hc Hi. unfold assignable.
  replace (prop_is p "__proto__") with false.
  - destruct c; try done; apply orb_true_r.
  - destruct p as [s|i]; [|done]. unfold prop_is.
    destruct (String.eqb_spec s "__proto__") as [->|]; [|done].
    destruct c; try done; by vm_compute in Hi.
Qed.

(** The key of an entry of a mapping: not empty, not the wildcard, and
    not the name of a member of [Object.prototype]. *)
Definition mapping_key (s : string) : Prop :=
  s ≠ "" ∧ s ≠ "*" ∧ inherited TObject (PStr s) = false.

(** From [v] the keys [segs] lead to [x] through mappings, all of them
    at [e] or above in the store. *)
Fixpoint leads_to (e : nat) (h : heap) (v : value) (segs : list string) (x : value)
    {struct segs} : Prop :=
  match segs with
  | [] => v = x
  | s :: rest =>
      ∃ l ps, v = VRef l ∧ e ≤ l ∧ h !! l = Some (CObj ps)
              ∧ leads_to e h (default VUndef (assoc_get s ps)) rest x
  end.

Lemma leads_to_same (e : nat) (h h' : heap) (segs : list string) (x : value) :
  (∀ l, e ≤ l → l < length h → h' !! l = h !! l) →
  ∀ v, leads_to e h v segs x → leads_to e h' v segs x.
Proof.
  intros Hsame. induction segs as [|s rest IH]; intros v; [done|].
  intros (l & ps & -> & Hle & Hl & Hrest). exists l, ps. split_and!; try done.
  - rewrite Hsame; [done|done|]. by apply lookup_lt_Some in Hl.
  - by apply IH.
Qed.

Lemma leads_to_le (e e' : nat) (h : heap) (segs : list string) (x : value) :
  e' ≤ e → ∀ v, leads_to e h v segs x → leads_to e' h v segs x.
Proof.
  intros Hle. induction segs as [|s rest IH]; intros v; [done|].
  intros (l & ps & -> & Hl1 & Hl & Hrest). exists l, ps.
  split_and!; try done; [lia|by apply IH].
Qed.

Section AbsentBranch.
Variable call : fid → value → M value.
Variable ToNumber : heap → value → jsnum.
Variable copyByRef : bool.
Variable x : value.

(** Writing [x] at the path [segs] into a new empty mapping succeeds, and
    stores [x] at the end of the path when the segments are keys. *)
Definition into_empty_ok (f : nat) (segs : list string) : Prop :=
  ∀ (h1 : heap) (e : nat),
    h1 !! e = Some (CObj []) → literal h1 x →
    ∃ m pm h2,
      findPropInObject call ToNumber f (VRef e) (join_dots segs) copyByRef (Some x) h1
      = Ok (VRef m) h2
      ∧ h2 !! m = Some (CObj pm) ∧ e ≤ m
      ∧ same_types h1 h2 ∧ unchanged_below e h1 h2
      ∧ (Forall mapping_key segs → x ≠ VUndef → leads_to e h2 (VRef m) segs x).

(** The non-wildcard write branch of [findPropInObject] when the first
    segment holds nothing. *)
Lemma absent_branch_step (f : nat) (seg : string) (rest : list string)
    (h : heap) (l : nat) (c : cell) :
  rest ≠ [] → normal (seg :: rest) → seg ≠ "*" →
  h !! l = Some c → composite c → cell_get c (PStr seg) = VUndef →
  inherited (cell_type c) (PStr seg) = false →
  literal h x → into_empty_ok f rest →
  let r := entered copyByRef h l in
  let e := length (entered_heap copyByRef h c) in
  let h1 := <[r := cell_set (entered_cell copyByRef c) (PStr seg) (VRef e)]>
              (entered_heap copyByRef h c ++ [CObj []]) in
  ∃ m pm h2,
    findPropInObject call ToNumber f (VRef e) (join_dots rest) copyByRef (Some x) h1
    = Ok (VRef m) h2
    ∧ h2 !! m = Some (CObj pm) ∧ e ≤ m
    ∧ same_types h1 h2 ∧ unchanged_below e h1 h2
    ∧ (Forall mapping_key rest → x ≠ VUndef → leads_to e h2 (VRef m) rest x)
    ∧ findPropInObject call ToNumber (S f) (VRef l) (join_dots (seg :: rest))
        copyByRef (Some x) h
      = Ok (VRef r)
          (<[r := cell_set (cell_set (entered_cell copyByRef c) (PStr seg) (VRef e))
                    (PStr seg) (VRef m)]> h2).
Proof.
  intros Hne Hnorm Hstar Hl Hc Hundef Hplain Hlit Hrec r e h1.
  set (h0 := entered_heap copyByRef h c) in *.
  set (c0 := entered_cell copyByRef c) in *.
  assert (h0 !! r = Some c0) as Hr by by apply enter_lookup.
  assert (r < e) as Hre by by apply enter_bound.
  assert (cell_get c0 (PStr seg) = VUndef) as Hundef0.
  { unfold c0, entered_cell. destruct copyByRef; [done|]. by apply cell_get_copy_undef. }
  assert (settable c0 (PStr seg)) as Hset by by apply settable_undef.
  assert (cell_type c0 = cell_type c) as Hty0 by by destruct copyByRef, c.
  assert (visible c0 (PStr seg) = true) as Hvis0
    by (apply visible_plain; by rewrite Hty0).
  assert (assignable c0 (PStr seg) = true) as Hasg0.
  { apply assignable_plain_cell; [|by rewrite Hty0]. unfold composite. by rewrite Hty0. }
  assert (visible (cell_set c0 (PStr seg) (VRef e)) (PStr seg) = true) as Hvis1
    by by apply visible_set.
  assert ((h0 ++ [CObj []]) !! r = Some c0) as Hr' by by apply lookup_alloc_old.
  assert (h1 !! r = Some (cell_set c0 (PStr seg) (VRef e))) as Hr1
    by by eapply lookup_write_eq.
  assert (h1 !! e = Some (CObj [])) as He1.
  { unfold h1. apply lookup_write_ne; [lia|]. apply lookup_alloc_new. }
  assert (same_types h h1) as Hst1.
  { eapply same_types_trans; [|eapply same_types_trans;
      [apply same_types_alloc|by eapply same_types_write, cell_type_set]].
    unfold h0, entered_heap. destruct copyByRef;
      [apply same_types_refl|apply same_types_alloc]. }
  destruct (Hrec h1 e He1) as (m & pm & h2 & Hrun & Hm & Hem & Hst2 & Hun2 & Hlead).
  { by apply literal_same_types with h. }
  exists m, pm, h2. split_and!; try done.
  rewrite findPropInObject_S. unfold findPropInObject_body.
  mrun. rewrite (parse_join_normal _ Hnorm).
  destruct rest as [|seg2 rest']; [done|].
  erewrite bind_Ok by by apply enter_run.
  simpl. rewrite (proj2 (String.eqb_neq seg "*")) by done.
  fold h0. mrun. rewrite Hundef0. simpl. mrun.
  erewrite bind_Ok by by apply set_prop_cell.
  fold e. fold h1. mrun.
  rewrite cell_get_set_eq by done.
  erewrite bind_Ok by exact Hrun.
  assert (h2 !! r = Some (cell_set c0 (PStr seg) (VRef e))) as Hr2
    by by rewrite Hun2.
  erewrite bind_Ok
    by (apply set_prop_cell;
        [exact Hr2|by apply settable_set|by apply assignable_set]).
  done.
Qed.

End AbsentBranch.

Section IntoEmpty.
Variable call : fid → value → M value.
Variable ToNumber : heap → value → jsnum.
Variable copyByRef : bool.
Variable x : value.

Lemma findPropInObject_parse (fuel : nat) obj (p1 p2 : string) (b : bool) args (h : heap) :
  parse_path p1 = parse_path p2 →
  findPropInObject call ToNumber fuel obj p1 b args h
  = findPropInObject call ToNumber fuel obj p2 b args h.
Proof.
  intros Hp. destruct fuel as [|f]; [done|].
  rewrite findPropInObject_S. unfold findPropInObject_body. by rewrite Hp.
Qed.

Lemma entered_empty_mapping (h : heap) (e : nat) :
  h !! e = Some (CObj []) →
  entered_heap copyByRef h (CObj []) !! entered copyByRef h e = Some (CObj [])
  ∧ e ≤ entered copyByRef h e
  ∧ same_types h (entered_heap copyByRef h (CObj []))
  ∧ unchanged_below e h (entered_heap copyByRef h (CObj [])).
Proof.
  intros He. split_and!.
  - by rewrite (enter_lookup _ _ _ _ He); destruct copyByRef.
  - by eapply enter_ge.
  - destruct copyByRef; [apply same_types_refl|apply same_types_alloc].
  - destruct copyByRef; [apply unchanged_below_refl|].
    apply unchanged_below_alloc. apply lookup_lt_Some in He. lia.
Qed.

(** A write of one segment into an empty mapping. *)
Lemma into_empty_direct (f : nat) (s : string) (h : heap) (e : nat) :
  h !! e = Some (CObj []) → literal h x → inherited TObject (PStr s) = false →
  ∃ m pm h2,
    findDirectPropInObject call ToNumber (S f) (VRef e) (PStr s) copyByRef (Some x) h
    = Ok (VRef m) h2
    ∧ h2 !! m = Some (CObj pm) ∧ e ≤ m
    ∧ same_types h h2 ∧ unchanged_below e h h2
    ∧ (mapping_key s → x ≠ VUndef → leads_to e h2 (VRef m) [s] x).
Proof.
  intros He Hlit Hplain.
  assert (assignable (CObj []) (PStr s) = true) as Hasg by by apply assignable_plain.
  destruct (entered_empty_mapping h e He) as (Hr & Her & Hst & Hun).
  set (r := entered copyByRef h e) in *.
  set (h0 := entered_heap copyByRef h (CObj [])) in *.
  assert (
    findDirectPropInObject call ToNumber (S f) (VRef e) (PStr s) copyByRef (Some x) h
    = (if prop_is (PStr s) "" then ret (VRef r)
       else if prop_is (PStr s) "*" then
         (let* keys := Object_keys (VRef r) in
          forEach_list keys (fun key =>
            findDirectPropInObject call ToNumber f (VRef r) key true (Some x) ;;; ret tt)) ;;;
         ret (VRef r)
       else
         let* tv := getObjectType x in
         let* replaceWith :=
           (if bool_decide (tv = TFunction)
            then let* cur := get_prop (VRef r) (PStr s) in call_function call x cur
            else ret x) in
         (if is_undef replaceWith && bool_decide (TObject = TArray)
          then splice1 ToNumber (VRef r) (PStr s)
          else if is_undef replaceWith && bool_decide (TObject = TObject)
               then delete_prop (VRef r) (PStr s)
               else set_prop ToNumber (VRef r) (PStr s) replaceWith) ;;;
         ret (VRef r)) h0) as Hbody.
  { rewrite findDirectPropInObject_S. unfold findDirectPropInObject_body.
    mrun. simpl. by erewrite bind_Ok by by apply enter_run. }
  rewrite Hbody. clear Hbody.
  destruct (String.eqb_spec s "") as [->|Hs1].
  { exists r, [], h0. rewrite (prop_is_true ""). split_and!; try done.
    by intros [? _]. }
  rewrite prop_is_false by done.
  destruct (String.eqb_spec s "*") as [->|Hs2].
  { exists r, [], h0. rewrite (prop_is_true "*"). split; [by mrun|].
    split_and!; try done. by intros (_ & ? & _). }
  rewrite prop_is_false by done.
  destruct (literal_same_types _ _ _ Hst Hlit) as (t & Ht & Hnf).
  destruct (is_undef x) eqn:Ex.
  - eexists r, _, _. split.
    { erewrite bind_Ok by by apply getObjectType_type_in.
      rewrite bool_decide_eq_false_2 by done. mrun. rewrite Ex. simpl. mrun.
      reflexivity. }
    split_and!; try done.
    + by eapply lookup_write_eq.
    + eapply same_types_trans; [done|]. by eapply same_types_write.
    + eapply unchanged_below_trans; [done|]. by apply unchanged_below_write.
    + intros _ Hx. by destruct x.
  - eexists r, _, _. split.
    { erewrite bind_Ok by by apply getObjectType_type_in.
      rewrite bool_decide_eq_false_2 by done. mrun. rewrite Ex. simpl. mrun.
      reflexivity. }
    split_and!; try done.
    + by eapply lookup_write_eq.
    + eapply same_types_trans; [done|]. by eapply same_types_write.
    + eapply unchanged_below_trans; [done|]. by apply unchanged_below_write.
    + intros _ _. eexists r, _. split_and!; [done|done|by eapply lookup_write_eq|].
      cbn [leads_to key_string]. by rewrite assoc_get_set_eq.
Qed.

(** The materialized store of [absent_branch_step] keeps what was there. *)
Lemma materialized_store (h : heap) (l : nat) (c : cell) (seg : string) :
  h !! l = Some c →
  let r := entered copyByRef h l in
  let e := length (entered_heap copyByRef h c) in
  let h1 := <[r := cell_set (entered_cell copyByRef c) (PStr seg) (VRef e)]>
              (entered_heap copyByRef h c ++ [CObj []]) in
  same_types h h1 ∧ unchanged_below l h h1 ∧ l ≤ r ∧ r < e ∧ length h ≤ e.
Proof.
  intros Hl r e h1.
  assert (entered_heap copyByRef h c !! r = Some (entered_cell copyByRef c)) as Hr
    by by apply enter_lookup.
  assert (l ≤ r) by by eapply enter_ge.
  pose proof (lookup_lt_Some _ _ _ Hl).
  split_and!; try done.
  - eapply same_types_trans; [|eapply same_types_trans;
      [apply same_types_alloc|
       by eapply same_types_write, cell_type_set; apply lookup_alloc_old]].
    unfold entered_heap. destruct copyByRef;
      [apply same_types_refl|apply same_types_alloc].
  - eapply unchanged_below_trans; [|eapply unchanged_below_trans;
      [apply unchanged_below_alloc|by apply unchanged_below_write]].
    + unfold entered_heap. destruct copyByRef;
        [apply unchanged_below_refl|apply unchanged_below_alloc; lia].
    + pose proof (enter_length copyByRef h c). lia.
  - by eapply enter_bound.
  - apply enter_length.
Qed.

(** Writing a literal at any path into an empty mapping succeeds and
    yields a mapping. *)
Lemma into_empty_all (segs : list string) :
  normal segs → Forall (fun s => inherited TObject (PStr s) = false) segs →
  ∀ f, length segs < f → into_empty_ok call ToNumber copyByRef x f segs.
Proof.
  induction segs as [|s rest IH]; intros Hnorm Hplain f Hf; [by destruct Hnorm|].
  destruct f as [|f]; [lia|]. simpl in Hf.
  inversion Hplain as [|? ? Hs Hrestp]; subst.
  intros h e He Hlit.
  destruct rest as [|s2 rest'].
  - destruct f as [|f]; [lia|].
    destruct (into_empty_direct f s h e He Hlit Hs)
      as (m & pm & h2 & Hrun & Hm & Hem & Hst & Hun & Hlead).
    exists m, pm, h2. split_and!; try done.
    + rewrite findPropInObject_S. unfold findPropInObject_body. mrun.
      rewrite (parse_join_normal _ Hnorm). by simpl.
    + intros Hk Hx. apply Hlead; [|done]. by inversion Hk.
  - destruct (String.eqb_spec s "*") as [->|Hstar].
    + destruct (entered_empty_mapping h e He) as (Hr & Her & Hst & Hun).
      eexists _, _, _. split; [|split; [exact Hr|split_and!; try done]].
      * rewrite findPropInObject_S. unfold findPropInObject_body. mrun.
        rewrite (parse_join_normal _ Hnorm).
        erewrite bind_Ok by by apply enter_run.
        simpl. by mrun.
      * intros Hk. inversion Hk as [|? ? (_ & ? & _) _]; by subst.
    + assert (normal (s2 :: rest')) as Hnorm' by by eapply normal_tail.
      destruct (absent_branch_step call ToNumber copyByRef x f s (s2 :: rest') h e
                  (CObj [])) as (m & pm & h2 & Hrun & Hm & Hem & Hst & Hun & Hlead & Hfin);
        try done.
      { apply IH; [done|done|lia]. }
      destruct (materialized_store h e (CObj []) s He) as (Hst1 & Hun1 & Hle & Hlt & _).
      eexists _, _, _. split; [exact Hfin|].
      assert (h2 !! entered copyByRef h e
              = Some (cell_set (entered_cell copyByRef (CObj [])) (PStr s)
                        (VRef (length (entered_heap copyByRef h (CObj []))))))
        as Hr2.
      { rewrite Hun by done. eapply lookup_write_eq, lookup_alloc_old.
        by apply enter_lookup. }
      split_and!.
      * erewrite lookup_write_eq by done. by destruct copyByRef.
      * done.
      * eapply same_types_trans; [done|]. eapply same_types_trans; [done|].
        eapply same_types_write; [done|]. by rewrite cell_type_set.
      * eapply unchanged_below_trans; [done|].
        eapply unchanged_below_trans;
          [eapply unchanged_below_le; [|done]; lia|].
        by apply unchanged_below_write.
      * intros Hk Hx. inversion Hk as [|? ? Hks Hkr]; subst.
        eexists (entered copyByRef h e), _. split_and!; [done|done| |].
        { erewrite lookup_write_eq by done. by destruct copyByRef. }
        replace (default VUndef (assoc_get s _)) with (VRef m)
          by (destruct copyByRef; cbn [key_string]; by rewrite assoc_get_set_eq).
        apply leads_to_le with (length (entered_heap copyByRef h (CObj []))); [lia|].
        apply leads_to_same with h2; [|by apply Hlead].
        intros l' Hl1 Hl2. apply list_lookup_insert_ne. lia.
Qed.

End IntoEmpty.

(** ** C6: writing through a missing branch *)

Section MissingBranch.
Variable call : fid → value → M value.
Variable ToNumber : heap → value → jsnum.

End MissingBranch.



(** ** C1 and C2: a write followed by a read at the same path *)

Arguments join_dots : simpl never.

(** *** Paths that address entries *)


(** The segment [s] addresses an entry of the container [c]: an index of
    an array, or a key of a mapping other than the empty key, the
    wildcard and the names of the members of [Object.prototype]. *)
Definition addresses (c : cell) (s : string) : Prop :=
  match c with
  | CArr _ _ => is_Some (index_of_string s)
  | CObj _ => mapping_key s
  | CFun _ _ _ => False
  end.

Definition addresses_mapping (c : cell) (s : string) : Prop :=
  match c with
  | CObj _ => mapping_key s
  | _ => False
  end.

(** Where a write of [x] followed by a read gives [x] back: at a key of a
    mapping, and at an index of an array unless [x] is [undefined], which
    splices the element out. *)
Definition addresses_for (x : value) (c : cell) (s : string) : Prop :=
  match c with
  | CArr _ _ => is_Some (index_of_string s) ∧ x ≠ VUndef
  | CObj _ => mapping_key s
  | CFun _ _ _ => False
  end.

(** The path [segs] addresses an entry from [v] on: every container on the
    way is an array or a mapping that the segment addresses, the last one
    satisfies [leaf], and a segment that holds nothing (or [undefined]) may
    only be followed by keys of mappings. *)
Fixpoint addressable (leaf : cell → string → Prop) (h : heap) (v : value)
    (segs : list string) {struct segs} : Prop :=
  match segs with
  | [] => False
  | s :: rest =>
      ∃ l c, v = VRef l ∧ h !! l = Some c ∧
        match rest with
        | [] => leaf c s
        | _ :: _ =>
            addresses c s
            ∧ (cell_get c (PStr s) = VUndef ∧ Forall mapping_key rest
               ∨ addressable leaf h (cell_get c (PStr s)) rest)
        end
  end.

Lemma addressable_impl (L L' : cell → string → Prop) (h : heap) (segs : list string) :
  (∀ c s, L c s → L' c s) →
  ∀ v, addressable L h v segs → addressable L' h v segs.
Proof.
  intros HL. induction segs as [|s rest IH]; intros v; [done|].
  intros (l & c & -> & Hl & H). exists l, c. split_and!; try done.
  destruct rest as [|s2 rest']; [by apply HL|].
  destruct H as [Ha [H|H]]; split; try done; [by left|right; by apply IH].
Qed.

Lemma addressable_unchanged (L : cell → string → Prop) (h h' : heap) (segs : list string) :
  unchanged_below (length h) h h' →
  ∀ v, addressable L h v segs → addressable L h' v segs.
Proof.
  intros Hun. induction segs as [|s rest IH]; intros v; [done|].
  intros (l & c & -> & Hl & H). exists l, c. split_and!; try done.
  - rewrite Hun; [done|]. by apply lookup_lt_Some in Hl.
  - destruct rest as [|s2 rest']; [done|].
    destruct H as [Ha [H|H]]; split; try done; [by left|right; by apply IH].
Qed.

Lemma addressable_empty (L : cell → string → Prop) (h : heap) (e : nat) (segs : list string) :
  (∀ s, mapping_key s → L (CObj []) s) →
  h !! e = Some (CObj []) → segs ≠ [] → Forall mapping_key segs →
  addressable L h (VRef e) segs.
Proof.
  intros HL He Hne Hall. destruct segs as [|s rest]; [done|].
  inversion Hall as [|? ? Hs Hrest]; subst.
  exists e, (CObj []). split_and!; try done.
  destruct rest; [by apply HL|]. split; [done|]. by left.
Qed.

Lemma addresses_for_addresses x c s : addresses_for x c s → addresses c s.
Proof. destruct c; simpl; try done. by intros [? _]. Qed.

Lemma addresses_composite c s : addresses c s → composite c.
Proof. by destruct c. Qed.

Lemma addresses_not_star c s : addresses c s → s ≠ "*".
Proof. destruct c; simpl; try done; [|by intros (_ & ? & _)]. by intros [i Hi] ->. Qed.

Lemma addresses_not_empty c s : addresses c s → s ≠ "".
Proof. destruct c; simpl; try done; [|by intros [? _]]. by intros [i Hi] ->. Qed.

(** A member of a prototype has a name that starts with a letter or an
    underscore, which no array index does. *)
Definition starts_with_digit (s : string) : bool :=
  match s with
  | String c _ => match digit_of c with Some _ => true | None => false end
  | EmptyString => false
  end.

Lemma index_starts_with_digit s i :
  index_of_string s = Some i → starts_with_digit s = true.
Proof.
  destruct s as [|c r]; [done|]. unfold index_of_string. simpl.
  destruct (digit_of c) eqn:E; [done|].
  by repeat case_match.
Qed.

Lemma name_in_digit s l :
  starts_with_digit s = true → forallb (fun n => negb (starts_with_digit n)) l = true →
  name_in s l = false.
Proof.
  intros Hs. unfold name_in. induction l as [|n l IH]; simpl; [done|].
  intros [Hn Hl]%andb_prop. rewrite (IH Hl), orb_false_r.
  apply String.eqb_neq. intros ->. by rewrite Hs in Hn.
Qed.

Lemma index_not_inherited t s i :
  index_of_string s = Some i → inherited t (PStr s) = false.
Proof.
  intros Hi%index_starts_with_digit. unfold inherited.
  apply name_in_digit; [done|]. by destruct t.
Qed.

Lemma addresses_plain c s : addresses c s → inherited (cell_type c) (PStr s) = false.
Proof.
  destruct c; cbn [addresses cell_type]; try done.
  - intros [i Hi]. by eapply index_not_inherited.
  - by intros (_ & _ & ?).
Qed.

Lemma addresses_visible c s : addresses c s → visible c (PStr s) = true.
Proof. intros H. by apply visible_plain, addresses_plain. Qed.

Lemma addresses_assignable c s : addresses c s → assignable c (PStr s) = true.
Proof.
  intros H. apply assignable_plain_cell; [by destruct c|by apply addresses_plain].
Qed.

Lemma mapping_key_plain (segs : list string) :
  Forall mapping_key segs → Forall (fun s => inherited TObject (PStr s) = false) segs.
Proof. intros H. eapply Forall_impl; [exact H|]. by intros s (_ & _ & ?). Qed.

Lemma addresses_settable c s : addresses c s → settable c (PStr s).
Proof. destruct c; simpl; try done. intros [i Hi] Hn. congruence. Qed.

Lemma addresses_same_type c c' s :
  cell_type c' = cell_type c → addresses c s → addresses c' s.
Proof. by destruct c, c'. Qed.

Lemma cell_get_copy c s : addresses c s → cell_get (cell_copy c) (PStr s) = cell_get c (PStr s).
Proof.
  destruct c as [elems named|props|]; simpl; try done.
  - intros [i ->]. apply elem_get_spread.
  - intros _. unfold named_get. by rewrite assoc_get_spread.
Qed.

Lemma cell_type_copy c : cell_type (cell_copy c) = cell_type c.
Proof. by destruct c. Qed.

(** The cell a write of [x] at [s] leaves. *)
Definition leaf_written (c : cell) (s : string) (x : value) : cell :=
  match c with
  | CObj ps => CObj (props_written s x ps)
  | _ => cell_set c (PStr s) x
  end.

Lemma cell_get_leaf_written x c s :
  addresses_for x c s → cell_get (leaf_written c s x) (PStr s) = x.
Proof.
  destruct c as [elems named|props|]; simpl; try done.
  - intros [[i Hi] _]. rewrite Hi. simpl. rewrite Hi. apply elem_get_set_eq.
  - intros _. unfold named_get. simpl. rewrite assoc_get_props_written.
    rewrite decide_True by done. by destruct x.
Qed.

Lemma cell_type_leaf_written c s x : cell_type (leaf_written c s x) = cell_type c.
Proof. destruct c; simpl; try done. by destruct (index_of_string s). Qed.

(** The path [segs] leads from [v] to a mapping that has no entry at the
    last segment. *)
Fixpoint no_entry (h : heap) (v : value) (segs : list string) {struct segs} : Prop :=
  match segs with
  | [] => False
  | s :: rest =>
      ∃ l c, v = VRef l ∧ h !! l = Some c ∧
        match rest with
        | [] => ∃ ps, c = CObj ps ∧ assoc_get s ps = None
        | _ :: _ => no_entry h (cell_get c (PStr s)) rest
        end
  end.

Definition agree_from (a b : nat) (h' h'' : heap) : Prop :=
  ∀ l, a ≤ l → l < b → h'' !! l = h' !! l.

Section RoundTrip.
Variable call : fid → value → M value.
Variable ToNumber : heap → value → jsnum.
Variable x : value.

(** The write of the last segment, on a copy of its container. *)
Lemma direct_write_leaf (f : nat) (h : heap) (l : nat) (c : cell) (s : string) :
  h !! l = Some c → addresses_for x c s → literal h x →
  findDirectPropInObject call ToNumber (S f) (VRef l) (PStr s) false (Some x) h
  = Ok (VRef (length h)) (h ++ [leaf_written (cell_copy c) s x]).
Proof.
  intros Hl Ha Hlit. destruct c as [elems named|props|];
    [|apply direct_write_object; try done; try apply Ha;
      apply (addresses_assignable (CObj props)), Ha|done].
  destruct Ha as [[i Hi] Hx]. destruct Hlit as (t & Ht & Hnf).
  assert (s ≠ "") by by intros ->. assert (s ≠ "*") by by intros ->.
  rewrite findDirectPropInObject_S. unfold findDirectPropInObject_body.
  mrun. simpl. mrun. rewrite !prop_is_false by done. simpl.
  erewrite bind_Ok
    by (apply getObjectType_type_in; eapply type_in_prefix; [apply prefix_alloc|done]).
  rewrite bool_decide_eq_false_2 by done. mrun.
  replace (is_undef x) with false by by destruct x. simpl.
  erewrite bind_Ok by (eapply set_prop_index; [apply lookup_alloc_new|done]).
  rewrite insert_alloc_new. simpl. by rewrite Hi.
Qed.

(** The read of the last segment. *)
Lemma direct_read_leaf (f : nat) (h : heap) (l : nat) (c : cell) (s : string) :
  h !! l = Some c → addresses c s →
  findDirectPropInObject call ToNumber (S f) (VRef l) (PStr s) false None h
  = Ok (cell_get c (PStr s)) (h ++ [cell_copy c]).
Proof.
  intros Hl Ha.
  pose proof (addresses_not_empty _ _ Ha). pose proof (addresses_not_star _ _ Ha).
  pose proof (addresses_composite _ _ Ha) as Hc.
  rewrite findDirectPropInObject_S. unfold findDirectPropInObject_body.
  mrun. rewrite Hc. simpl.
  erewrite bind_Ok by by apply shallow_copy_cell.
  rewrite !prop_is_false by done.
  erewrite get_prop_ref;
    [by rewrite cell_get_copy|apply lookup_alloc_new|].
  eapply addresses_visible, addresses_same_type, Ha. apply cell_type_copy.
Qed.

(** One level of a read through a container that holds a reference. *)
Lemma read_step (g : nat) (s : string) (rest : list string) (h : heap)
    (r rc : nat) (c : cell) :
  rest ≠ [] → normal (s :: rest) →
  h !! r = Some c → addresses c s → cell_get c (PStr s) = VRef rc →
  path_get call ToNumber (S g) (VRef r) (join_dots (s :: rest)) h
  = path_get call ToNumber g (VRef rc) (join_dots rest) (h ++ [cell_copy c]).
Proof.
  intros Hne Hnorm Hr Ha Hget. unfold path_get.
  pose proof (addresses_not_star _ _ Ha) as Hstar.
  rewrite findPropInObject_S. unfold findPropInObject_body at 1.
  mrun. rewrite (parse_join_normal _ Hnorm).
  destruct rest as [|s2 rest']; [done|].
  erewrite bind_Ok by (apply shallow_copy_cell; [done|by eapply addresses_composite]).
  simpl. rewrite (proj2 (String.eqb_neq s "*")) by done. simpl.
  erewrite bind_Ok
    by (apply get_prop_ref; [apply lookup_alloc_new|
        eapply addresses_visible, addresses_same_type, Ha; apply cell_type_copy]).
  rewrite cell_get_copy, Hget by done. simpl. by mrun.
Qed.

(** One level of a write through a container that holds a reference. *)
Lemma write_step (f : nat) (s : string) (rest : list string) (h : heap)
    (l lc rc : nat) (c : cell) (h2 : heap) :
  rest ≠ [] → normal (s :: rest) →
  h !! l = Some c → addresses c s → cell_get c (PStr s) = VRef lc →
  path_set call ToNumber f (VRef lc) (join_dots rest) x (h ++ [cell_copy c])
  = Ok (VRef rc) h2 →
  h2 !! length h = Some (cell_copy c) →
  path_set call ToNumber (S f) (VRef l) (join_dots (s :: rest)) x h
  = Ok (VRef (length h))
       (<[length h := cell_set (cell_copy c) (PStr s) (VRef rc)]> h2).
Proof.
  intros Hne Hnorm Hl Ha Hget Hrec Hkeep. unfold path_set in *.
  pose proof (addresses_not_star _ _ Ha) as Hstar.
  assert (addresses (cell_copy c) s) as Hac
    by (eapply addresses_same_type, Ha; apply cell_type_copy).
  pose proof (addresses_visible _ _ Hac) as Hvis.
  rewrite findPropInObject_S. unfold findPropInObject_body at 1.
  mrun. rewrite (parse_join_normal _ Hnorm).
  destruct rest as [|s2 rest']; [done|].
  erewrite bind_Ok by (apply shallow_copy_cell; [done|by eapply addresses_composite]).
  simpl. rewrite (proj2 (String.eqb_neq s "*")) by done.
  mrun. rewrite cell_get_copy, Hget by done. simpl. mrun.
  rewrite cell_get_copy, Hget by done.
  erewrite bind_Ok by exact Hrec.
  erewrite bind_Ok
    by (apply set_prop_cell;
        [done|by apply addresses_settable|by apply addresses_assignable]).
  done.
Qed.

(** In the store [h''] a read at the path gives [x] back, and when [x] is
    [undefined] the entry is gone. *)
Definition reads_back (g : nat) (r : nat) (segs : list string) (h'' : heap) : Prop :=
  (∃ h3, path_get call ToNumber g (VRef r) (join_dots segs) h'' = Ok x h3)
  ∧ (x = VUndef → no_entry h'' (VRef r) segs).

(** Reading back through the container that a write stored into. *)
Lemma read_back (g : nat) (s : string) (rest : list string) (r rc a : nat)
    (cfin : cell) (h2 : heap) :
  rest ≠ [] → normal (s :: rest) →
  addresses cfin s → cell_get cfin (PStr s) = VRef rc → r < a → r < length h2 →
  (∀ h'', agree_from a (length h2) h2 h'' → reads_back g rc rest h'') →
  ∀ h'', agree_from r (length h2) (<[r := cfin]> h2) h'' →
    reads_back (S g) r (s :: rest) h''.
Proof.
  intros Hne Hnorm Ha Hget Hra Hr2 HG h'' Hag.
  assert (h'' !! r = Some cfin) as Hr''.
  { rewrite Hag by lia. by apply list_lookup_insert_eq. }
  pose proof (addresses_visible _ _ Ha) as Hvis.
  assert (∀ l, a ≤ l → l < length h2 → h'' !! l = h2 !! l) as Hl''.
  { intros l Hl1 Hl2. rewrite Hag by lia. apply list_lookup_insert_ne. lia. }
  split.
  - rewrite (read_step g s rest h'' r rc cfin) by done.
    apply HG. intros l Hl1 Hl2.
    rewrite lookup_app_l; [by apply Hl''|].
    apply lookup_lt_is_Some. rewrite Hl'' by done. by apply lookup_lt_is_Some.
  - intros Hx. exists r, cfin. split_and!; try done.
    destruct rest as [|s2 rest']; [done|]. rewrite Hget.
    by apply HG.
Qed.

(** The round trip, by induction on the segments.  The read is stated
    for every store that agrees with the written one on the objects the
    write allocated, which is what the enclosing level provides. *)
Lemma round_trip_segments (segs : list string) :
  normal segs → ∀ (fs fg : nat) (h : heap) (v : value),
  length segs < fs → length segs < fg →
  addressable (addresses_for x) h v segs → literal h x →
  ∃ r h',
    path_set call ToNumber fs v (join_dots segs) x h = Ok (VRef r) h'
    ∧ length h ≤ r ∧ r < length h'
    ∧ same_types h h' ∧ unchanged_below (length h) h h'
    ∧ ∀ h'', agree_from (length h) (length h') h' h'' → reads_back fg r segs h''.
Proof.
  induction segs as [|s rest IH]; intros Hnorm fs fg h v Hfs Hfg Hadd Hlit;
    [by destruct Hnorm|].
  destruct Hadd as (l & c & -> & Hl & H).
  destruct fs as [|f]; [lia|]. destruct fg as [|g]; [lia|]. simpl in Hfs, Hfg.
  destruct rest as [|s2 rest'].
  - (* the last segment *)
    destruct f as [|f]; [lia|]. destruct g as [|g]; [lia|].
    pose proof (addresses_for_addresses _ _ _ H) as Ha.
    set (cw := leaf_written (cell_copy c) s x).
    exists (length h), (h ++ [cw]). split_and!.
    + unfold path_set. rewrite findPropInObject_S. unfold findPropInObject_body.
      mrun. rewrite (parse_join_normal _ Hnorm). simpl.
      by apply direct_write_leaf.
    + done.
    + rewrite length_app. simpl. lia.
    + apply same_types_alloc.
    + by apply unchanged_below_alloc.
    + intros h'' Hag.
      assert (h'' !! length h = Some cw) as Hr''.
      { rewrite Hag; [apply lookup_alloc_new|done|rewrite length_app; simpl; lia]. }
      assert (addresses cw s) as Haw.
      { eapply addresses_same_type, Ha.
        unfold cw. by rewrite cell_type_leaf_written, cell_type_copy. }
      split.
      * eexists. unfold path_get. rewrite findPropInObject_S.
        unfold findPropInObject_body. mrun. rewrite (parse_join_normal _ Hnorm). simpl.
        rewrite (direct_read_leaf g h'' (length h) cw s) by done.
        unfold cw. rewrite cell_get_leaf_written; [done|].
        by destruct c.
      * intros ->. exists (length h), cw. split_and!; try done.
        unfold cw. destruct c as [| ps |]; try done; [by destruct H as [_ ?]|].
        eexists. split; [done|]. apply assoc_get_delete_eq.
  - (* a segment on the way *)
    destruct H as [Ha Hchild]. cbn [length] in Hfs, Hfg.
    assert (normal (s2 :: rest')) as Hnorm' by by eapply normal_tail.
    pose proof (addresses_composite _ _ Ha) as Hc.
    pose proof (addresses_not_star _ _ Ha) as Hstar.
    set (h0 := h ++ [cell_copy c]).
    assert (length h0 = S (length h)) as Hlen0
      by (unfold h0; rewrite length_app; simpl; lia).
    destruct Hchild as [[Hundef Hkeys]|Hchild].
    + (* nothing there: an empty mapping is materialized *)
      pose proof (addresses_plain _ _ Ha) as Hpl.
      destruct (absent_branch_step call ToNumber false x f s (s2 :: rest') h l c)
        as (m & pm & h2 & Hrun & Hm & Hem & Hst & Hun & _ & Hfin); try done.
      { apply into_empty_all; [done|by apply mapping_key_plain|cbn [length]; lia]. }
      destruct (materialized_store false h l c s Hl) as (Hst1 & _ & _ & _ & _).
      simpl entered in *. simpl entered_heap in *. simpl entered_cell in *.
      fold h0 in Hrun, Hst, Hun, Hfin, Hst1. rewrite Hlen0 in *.
      set (c1 := cell_set (cell_copy c) (PStr s) (VRef (S (length h)))) in *.
      set (h1 := <[length h := c1]> (h0 ++ [CObj []])) in *.
      assert (length h1 = S (S (length h))) as Hlen1.
      { unfold h1. rewrite length_insert, length_app. simpl. lia. }
      assert (h1 !! S (length h) = Some (CObj [])) as He1.
      { unfold h1. rewrite list_lookup_insert_ne by lia.
        rewrite <- Hlen0. apply lookup_alloc_new. }
      destruct (IH Hnorm' f g h1 (VRef (S (length h))))
        as (rc & h2' & Hrun' & Hle & Hlt & Hst' & Hun' & HG); [cbn [length]; lia|cbn [length]; lia| | |].
      { by apply addressable_empty. }
      { by apply literal_same_types with h. }
      unfold path_set in Hrun'. rewrite Hrun in Hrun'. injection Hrun' as -> <-.
      rewrite Hlen1 in *.
      assert (h2 !! length h = Some c1) as Hr2.
      { rewrite Hun' by lia. unfold h1. apply list_lookup_insert_eq.
        rewrite length_app, Hlen0. simpl. lia. }
      pose proof (same_types_length _ _ Hst') as Hlen2. rewrite Hlen1 in Hlen2.
      eexists (length h), _. split; [exact Hfin|]. split_and!.
      * done.
      * rewrite length_insert. lia.
      * eapply same_types_trans; [done|]. eapply same_types_trans; [done|].
        eapply same_types_write; [done|]. by rewrite cell_type_set.
      * intros l' Hl'. rewrite list_lookup_insert_ne by lia.
        rewrite Hun' by lia. unfold h1. rewrite list_lookup_insert_ne by lia.
        rewrite lookup_app_l by lia. unfold h0. by rewrite lookup_app_l.
      * rewrite length_insert.
        apply read_back with rc (S (S (length h))); try done; try lia.
        -- eapply addresses_same_type, Ha. unfold c1.
           by rewrite !cell_type_set, cell_type_copy.
        -- apply cell_get_set_eq. apply settable_set, addresses_settable.
           eapply addresses_same_type, Ha. apply cell_type_copy.
    + (* a container there *)
      destruct (cell_get c (PStr s)) as [| | | | |lc] eqn:Hget;
        try (by destruct Hchild as (? & ? & ? & _)).
      destruct (IH Hnorm' f g h0 (VRef lc))
        as (rc & h2 & Hrun & Hle & Hlt & Hst & Hun & HG); [cbn [length]; lia|cbn [length]; lia| | |].
      { apply addressable_unchanged with h; [by apply unchanged_below_alloc|done]. }
      { apply literal_prefix with h; [apply prefix_alloc|done]. }
      rewrite Hlen0 in *.
      assert (h2 !! length h = Some (cell_copy c)) as Hr2.
      { rewrite Hun by lia. apply lookup_alloc_new. }
      eexists (length h), _. split; [by eapply write_step|]. split_and!.
      * done.
      * rewrite length_insert. lia.
      * eapply same_types_trans; [apply same_types_alloc|].
        eapply same_types_trans; [done|].
        eapply same_types_write; [done|]. by rewrite cell_type_set.
      * intros l' Hl'. rewrite list_lookup_insert_ne by lia.
        rewrite Hun by lia. unfold h0. by rewrite lookup_app_l.
      * rewrite length_insert.
        apply read_back with rc (S (length h)); try done; try lia.
        -- eapply addresses_same_type, Ha. by rewrite cell_type_set, cell_type_copy.
        -- apply cell_get_set_eq, addresses_settable.
           eapply addresses_same_type, Ha. apply cell_type_copy.
Qed.

End RoundTrip.

Section Claims.
Variable call : fid → value → M value.
Variable ToNumber : heap → value → jsnum.

Lemma agree_from_refl (a b : nat) (h : heap) : agree_from a b h h.
Proof. by intros l _ _. Qed.

Lemma path_set_parse (fuel : nat) (root : value) (pathStr : string) (x : value) (h : heap) :
  path_set call ToNumber fuel root (join_dots (parse_path pathStr)) x h
  = path_set call ToNumber fuel root pathStr x h.
Proof.
  unfold path_set.
  apply (findPropInObject_parse call ToNumber fuel root
           (join_dots (parse_path pathStr)) pathStr false (Some x) h).
  apply (parse_join_normal (parse_path pathStr)). apply parse_path_normal.
Qed.

Lemma path_get_parse (fuel : nat) (root : value) (pathStr : string) (h : heap) :
  path_get call ToNumber fuel root (join_dots (parse_path pathStr)) h
  = path_get call ToNumber fuel root pathStr h.
Proof.
  unfold path_get.
  apply (findPropInObject_parse call ToNumber fuel root
           (join_dots (parse_path pathStr)) pathStr false None h).
  apply (parse_join_normal (parse_path pathStr)). apply parse_path_normal.
Qed.

(** C1 (amended): for a root that is an array or a mapping, a path each of
    whose segments addresses an index of an array or a key of a mapping
    (not empty, not the wildcard, not the name of a member of
    [Object.prototype]) in the container it meets, a segment that holds
    nothing being followed by keys of mappings only, and a literal [x]
    other than [undefined]: [get(set(root, path, x), path) == x]. *)
Theorem get_set_round_trip (fuel : nat) (h : heap) (root : value)
    (pathStr : string) (x : value) :
  addressable addresses h root (parse_path pathStr) →
  literal h x → x ≠ VUndef →
  length (parse_path pathStr) < fuel →
  ∃ r h' h'',
    path_set call ToNumber fuel root pathStr x h = Ok r h'
    ∧ path_get call ToNumber fuel r pathStr h' = Ok x h''.
Proof.
  intros Hadd Hlit Hx Hfuel.
  destruct (round_trip_segments call ToNumber x (parse_path pathStr)
              (parse_path_normal pathStr) fuel fuel h root)
    as (r & h' & Hset & _ & _ & _ & _ & HG); try done.
  { eapply addressable_impl, Hadd. intros c s. by destruct c. }
  destruct (HG h' (agree_from_refl _ _ _)) as [[h'' Hget] _].
  exists (VRef r), h', h''. by rewrite <- path_set_parse, <- path_get_parse.
Qed.

(** C2 (amended): for a root that is an array or a mapping and a path as
    in C1 (indices of arrays, and keys of mappings that are not empty,
    not the wildcard and not the name of a member of [Object.prototype])
    whose last container is a mapping, [set(root, path, undefined)]
    deletes the addressed entry, and a [get] at the same path on the
    returned root yields [undefined]. *)
Theorem remove_then_get_undefined (fuel : nat) (h : heap) (root : value)
    (pathStr : string) :
  addressable addresses_mapping h root (parse_path pathStr) →
  length (parse_path pathStr) < fuel →
  ∃ r h' h'',
    path_remove call ToNumber fuel root pathStr h = Ok (VRef r) h'
    ∧ no_entry h' (VRef r) (parse_path pathStr)
    ∧ path_get call ToNumber fuel (VRef r) pathStr h' = Ok VUndef h''.
Proof.
  intros Hadd Hfuel.
  destruct (round_trip_segments call ToNumber VUndef (parse_path pathStr)
              (parse_path_normal pathStr) fuel fuel h root)
    as (r & h' & Hset & _ & _ & _ & _ & HG); try done.
  { eapply addressable_impl, Hadd. intros c s. by destruct c. }
  { by exists TUndefined. }
  destruct (HG h' (agree_from_refl _ _ _)) as [[h'' Hget] Hno].
  exists r, h', h''. split_and!.
  - rewrite <- Hset. symmetry. apply (path_set_parse fuel root pathStr VUndef h).
  - by apply Hno.
  - by rewrite <- path_get_parse.
Qed.

End Claims.

Definition round_trip_heap : heap :=
  [CObj [("n", VNum 1)]; CArr [Some (VRef 0)] []; CObj [("list", VRef 1)]].

Lemma get_set_round_trip_witness :
  ∃ r h' h'',
    path_set call_none ToNumber_decimal 4 (VRef 2) "list[0].n" (VNum 7) round_trip_heap
    = Ok r h'
    ∧ path_get call_none ToNumber_decimal 4 r "list[0].n" h' = Ok (VNum 7) h''.
Proof.
  apply (get_set_round_trip call_none ToNumber_decimal 4 round_trip_heap (VRef 2)
           "list[0].n" (VNum 7)).
  - change (parse_path "list[0].n") with ["list"; "0"; "n"].
    exists 2, (CObj [("list", VRef 1)]). split_and!; try done. right.
    exists 1, (CArr [Some (VRef 0)] []). split_and!; try done; [by exists 0|]. right.
    by exists 0, (CObj [("n", VNum 1)]).
  - by exists TNumber.
  - done.
  - vm_compute. lia.
Defined.

Lemma remove_then_get_undefined_witness :
  ∃ r h' h'',
    path_remove call_none ToNumber_decimal 4 (VRef 2) "list[0].n" round_trip_heap
    = Ok (VRef r) h'
    ∧ no_entry h' (VRef r) (parse_path "list[0].n")
    ∧ path_get call_none ToNumber_decimal 4 (VRef r) "list[0].n" h' = Ok VUndef h''.
Proof.
  apply (remove_then_get_undefined call_none ToNumber_decimal 4 round_trip_heap
           (VRef 2) "list[0].n").
  - change (parse_path "list[0].n") with ["list"; "0"; "n"].
    exists 2, (CObj [("list", VRef 1)]). split_and!; try done. right.
    exists 1, (CArr [Some (VRef 0)] []). split_and!; try done; [by exists 0|]. right.
    by exists 0, (CObj [("n", VNum 1)]).
  - vm_compute. lia.
Defined.

(** C1 (counterexample): the round trip fails on a root that is not a
    composite ([set(5, "a", 1)] is [5] and so is the [get]), on the empty
    path ([get] yields [undefined]), through an intermediate that is not a
    composite ([{a: 5}] at [a.b]), and for [x = undefined] on an array
    ([set([1, 2], "0", undefined)] is [[2]], where [get] finds [2]). *)
Lemma round_trip_fails :
  (∃ r h' y h'',
     path_set call_none ToNumber_decimal 5 (VNum 5) "a" (VNum 1) [] = Ok r h'
     ∧ path_get call_none ToNumber_decimal 5 r "a" h' = Ok y h'' ∧ y ≠ VNum 1)
  ∧ (∃ r h' y h'',
       path_set call_none ToNumber_decimal 5 (VRef 0) "" (VNum 1) [CObj []] = Ok r h'
       ∧ path_get call_none ToNumber_decimal 5 r "" h' = Ok y h'' ∧ y ≠ VNum 1)
  ∧ (∃ r h' y h'',
       path_set call_none ToNumber_decimal 5 (VRef 0) "a.b" (VNum 1)
         [CObj [("a", VNum 5)]] = Ok r h'
       ∧ path_get call_none ToNumber_decimal 5 r "a.b" h' = Ok y h'' ∧ y ≠ VNum 1)
  ∧ (∃ r h' y h'',
       path_set call_none ToNumber_decimal 5 (VRef 0) "0" VUndef
         [CArr [Some (VNum 1); Some (VNum 2)] []] = Ok r h'
       ∧ path_get call_none ToNumber_decimal 5 r "0" h' = Ok y h'' ∧ y ≠ VUndef).
Proof.
  split_and!.
  - exists (VNum 5), [], (VNum 5), []. by vm_compute.
  - eexists (VRef 1), _, VUndef, _. split; [by vm_compute|]. split; [by vm_compute|done].
  - eexists (VRef 1), _, (VNum 5), _. split; [by vm_compute|]. split; [by vm_compute|done].
  - eexists (VRef 1), _, (VNum 2), _. split; [by vm_compute|]. split; [by vm_compute|done].
Qed.

(** C2 (counterexample): on an array the removal splices the element out
    and the next one takes its index, so [get] on
    [remove([1, 2], "0")] yields [2]; and a root that is not a composite
    is handed back, so [get] on [remove(5, "a")] yields [5]. *)
Lemma remove_then_get_fails :
  (∃ r h' y h'',
     path_remove call_none ToNumber_decimal 5 (VRef 0) "0"
       [CArr [Some (VNum 1); Some (VNum 2)] []] = Ok r h'
     ∧ path_get call_none ToNumber_decimal 5 r "0" h' = Ok y h'' ∧ y ≠ VUndef)
  ∧ (∃ r h' y h'',
       path_remove call_none ToNumber_decimal 5 (VNum 5) "a" [] = Ok r h'
       ∧ path_get call_none ToNumber_decimal 5 r "a" h' = Ok y h'' ∧ y ≠ VUndef).
Proof.
  split.
  - eexists (VRef 1), _, (VNum 2), _. split; [by vm_compute|]. split; [by vm_compute|done].
  - exists (VNum 5), [], (VNum 5), []. by vm_compute.
Qed.

(** * Non-destructive writes and reads (C3) *)

(** ** What an operation may do to the store *)

(** Whatever [m] does from [h], with a result or by raising, the store it
    leaves is related to [h] by [R], and a result satisfies [Q]. *)
Definition outcome {A} (R : heap → heap → Prop) (m : M A) (h : heap)
    (Q : A → heap → Prop) : Prop :=
  match m h with
  | Ok a h' => R h h' ∧ Q a h'
  | Throw _ h' => R h h'
  | Stuck => True
  end.

(** The relations the rules below work for: reflexive, transitive, and
    allowing an allocation. *)
Class Frame (R : heap → heap → Prop) : Prop := {
  frame_refl : ∀ h, R h h;
  frame_trans : ∀ h1 h2 h3, R h1 h2 → R h2 h3 → R h1 h3;
  frame_alloc : ∀ h c, R h (h ++ [c]);
}.

Section Outcome.
Context {R : heap → heap → Prop} `{!Frame R}.

Local Lemma R_refl h : R h h.
Proof. apply frame_refl. Qed.
Local Lemma R_trans h1 h2 h3 : R h1 h2 → R h2 h3 → R h1 h3.
Proof. apply frame_trans. Qed.
Local Lemma R_alloc h c : R h (h ++ [c]).
Proof. apply frame_alloc. Qed.

Lemma outcome_ret {A} (a : A) (h : heap) (Q : A → heap → Prop) :
  Q a h → outcome R (ret a) h Q.
Proof. intros HQ. split; [apply R_refl|done]. Qed.

Lemma outcome_throw {A} (e : exn) (h : heap) (Q : A → heap → Prop) :
  outcome R (throw e) h Q.
Proof. apply R_refl. Qed.

Lemma outcome_stuck {A} (h : heap) (Q : A → heap → Prop) : outcome R stuck h Q.
Proof. done. Qed.

Lemma outcome_bind {A B} (m : M A) (k : A → M B) (h : heap)
    (Q : A → heap → Prop) (Q' : B → heap → Prop) :
  outcome R m h Q →
  (∀ a h', R h h' → Q a h' → outcome R (k a) h' (fun b h'' => R h h'' → Q' b h'')) →
  outcome R (bind m k) h Q'.
Proof.
  unfold outcome, bind. destruct (m h) as [a h'|e h'|]; [|done|done].
  intros [HR HQ] Hk. specialize (Hk a h' HR HQ).
  destruct (k a h') as [b h''|e h''|]; [|by eapply R_trans|done].
  destruct Hk as [HR' HQ']. split; [by eapply R_trans|]. apply HQ'. by eapply R_trans.
Qed.

Lemma outcome_weaken {A} (m : M A) (h : heap) (Q Q' : A → heap → Prop) :
  outcome R m h Q → (∀ a h', R h h' → Q a h' → Q' a h') → outcome R m h Q'.
Proof.
  unfold outcome. destruct (m h); [|done|done]. intros [? ?] HQ. split; [done|by apply HQ].
Qed.

Lemma outcome_top {A} (m : M A) (h : heap) (Q : A → heap → Prop) :
  outcome R m h Q → outcome R m h (fun _ _ => True).
Proof. intros Hm. by eapply outcome_weaken. Qed.

Lemma outcome_bind_top {A B} (m : M A) (k : A → M B) (h : heap)
    (Q : A → heap → Prop) :
  outcome R m h Q →
  (∀ a h', R h h' → Q a h' → outcome R (k a) h' (fun _ _ => True)) →
  outcome R (bind m k) h (fun _ _ => True).
Proof.
  intros Hm Hk. eapply outcome_bind; [exact Hm|].
  intros a h' HR HQ. eapply outcome_weaken; [by apply Hk|done].
Qed.

Lemma outcome_top_bind {A B} (m : M A) (k : A → M B) (h : heap) :
  outcome R m h (fun _ _ => True) →
  (∀ a h', R h h' → outcome R (k a) h' (fun _ _ => True)) →
  outcome R (bind m k) h (fun _ _ => True).
Proof.
  intros Hm Hk. eapply outcome_bind; [exact Hm|].
  intros a h' HR _. eapply outcome_weaken; [by apply Hk|done].
Qed.

(** The operations that only read. *)
Definition pure {A} (m : M A) : Prop :=
  ∀ h, match m h with Ok _ h' | Throw _ h' => h' = h | Stuck => True end.

Lemma outcome_pure {A} (m : M A) (h : heap) :
  pure m → outcome R m h (fun _ h' => h' = h).
Proof.
  intros Hp. unfold outcome. specialize (Hp h).
  destruct (m h); subst; [split; [apply R_refl|done]|apply R_refl|done].
Qed.

Lemma outcome_top_pure {A} (m : M A) (h : heap) :
  pure m → outcome R m h (fun _ _ => True).
Proof. intros Hp. eapply outcome_top. by apply outcome_pure. Qed.

Lemma pure_read_cell (l : nat) : pure (read_cell l).
Proof. intros h. unfold read_cell. by destruct (h !! l). Qed.

Lemma pure_bind {A B} (m : M A) (k : A → M B) :
  pure m → (∀ a, pure (k a)) → pure (bind m k).
Proof.
  intros Hm Hk h. unfold bind. specialize (Hm h).
  destruct (m h) as [a h'|e h'|]; subst; [apply Hk|done|done].
Qed.

Lemma pure_ret {A} (a : A) : pure (ret a).
Proof. by intros h. Qed.

Lemma pure_throw {A} (e : exn) : pure (@throw A e).
Proof. by intros h. Qed.

Lemma pure_stuck {A} : pure (@stuck A).
Proof. by intros h. Qed.

Lemma pure_getObjectType (v : value) : pure (getObjectType v).
Proof.
  destruct v; try apply pure_ret.
  apply pure_bind; [apply pure_read_cell|intros; apply pure_ret].
Qed.

Lemma pure_get_prop (o : value) (p : propname) : pure (get_prop o p).
Proof.
  destruct o; unfold get_prop; try apply pure_throw;
    try (case_match; first [apply pure_ret|apply pure_stuck]).
  apply pure_bind; [apply pure_read_cell|].
  intros c. case_match; [apply pure_ret|apply pure_stuck].
Qed.

Lemma pure_array_method (o : value) (m : string) : pure (array_method o m).
Proof.
  destruct o; try apply pure_stuck. unfold array_method.
  apply pure_bind; [apply pure_read_cell|].
  intros []; try apply pure_stuck.
  case_match; [|apply pure_ret].
  apply pure_bind; [apply pure_getObjectType|].
  intros t. case_match; [apply pure_stuck|apply pure_throw].
Qed.

Lemma pure_has_index (o : value) (i : nat) : pure (has_index o i).
Proof.
  destruct o; try apply pure_ret.
  apply pure_bind; [apply pure_read_cell|intros; apply pure_ret].
Qed.

Lemma pure_array_length (o : value) : pure (array_length o).
Proof.
  destruct o; try apply pure_stuck.
  apply pure_bind; [apply pure_read_cell|intros []; try apply pure_ret; apply pure_stuck].
Qed.

Lemma pure_Object_keys (o : value) : pure (Object_keys o).
Proof.
  destruct o; try apply pure_ret; try apply pure_throw.
  apply pure_bind; [apply pure_read_cell|intros; apply pure_ret].
Qed.

Lemma pure_map_list {A B} (l : list A) (f : A → M B) :
  (∀ a, pure (f a)) → pure (map_list l f).
Proof.
  intros Hf. induction l as [|a r IH]; [apply pure_ret|].
  simpl. apply pure_bind; [done|]. intros b.
  apply pure_bind; [done|]. intros bs. apply pure_ret.
Qed.

Lemma outcome_alloc (c : cell) (h : heap) :
  outcome R (alloc c) h (fun r h' => r = VRef (length h) ∧ h' = h ++ [c]).
Proof. split; [apply R_alloc|done]. Qed.

Lemma outcome_Object_values (o : value) (h : heap) :
  outcome R (Object_values o) h (fun _ _ => True).
Proof.
  unfold Object_values.
  eapply outcome_bind; [apply outcome_pure, pure_Object_keys|].
  intros keys h1 _ ->.
  eapply outcome_bind;
    [apply outcome_pure, pure_map_list; intros; apply pure_get_prop|].
  intros vals h1 _ ->.
  eapply outcome_weaken; [apply outcome_alloc|done].
Qed.

(** Loops: each turn is run from a store related to the one at entry. *)
Lemma outcome_forEach_list {A} (l : list A) (f : A → M unit) (h : heap) :
  (∀ a h', R h h' → outcome R (f a) h' (fun _ _ => True)) →
  outcome R (forEach_list l f) h (fun _ _ => True).
Proof.
  revert h. induction l as [|a r IH]; intros h Hf; [by apply outcome_ret|].
  simpl. eapply outcome_bind; [apply Hf, R_refl|].
  intros _ h1 HR _. eapply outcome_weaken; [|done].
  apply IH. intros a' h2 HR'. apply Hf. by eapply R_trans.
Qed.

Lemma outcome_forEach_from (n : nat) : ∀ (k : nat) (arr : value)
    (f : value → nat → M unit) (h : heap),
  (∀ item i h', R h h' → outcome R (f item i) h' (fun _ _ => True)) →
  outcome R (forEach_from k n arr f) h (fun _ _ => True).
Proof.
  induction n as [|n IH]; intros k arr f h Hf; [by apply outcome_ret|].
  simpl. eapply outcome_bind; [apply outcome_pure, pure_has_index|].
  intros present h1 _ ->.
  eapply outcome_bind.
  { instantiate (1 := fun _ _ => True). destruct present; [|by apply outcome_ret].
    eapply outcome_bind; [apply outcome_pure, pure_get_prop|].
    intros item h1 _ ->. eapply outcome_weaken; [apply Hf, R_refl|done]. }
  intros _ h1 HR _. eapply outcome_weaken; [|done].
  apply IH. intros item i h2 HR'. apply Hf. by eapply R_trans.
Qed.

Lemma outcome_forEach (arr : value) (f : value → nat → M unit) (h : heap) :
  (∀ item i h', R h h' → outcome R (f item i) h' (fun _ _ => True)) →
  outcome R (forEach arr f) h (fun _ _ => True).
Proof.
  intros Hf. unfold forEach.
  eapply outcome_bind; [apply outcome_pure, pure_array_method|].
  intros _ ? _ ->.
  eapply outcome_bind; [apply outcome_pure, pure_array_length|].
  intros len h1 _ ->. eapply outcome_weaken; [by apply outcome_forEach_from|done].
Qed.

Lemma outcome_map_from (n : nat) : ∀ (k : nat) (arr : value)
    (f : value → M value) (h : heap),
  (∀ item h', R h h' → outcome R (f item) h' (fun _ _ => True)) →
  outcome R (map_from k n arr f) h (fun _ _ => True).
Proof.
  induction n as [|n IH]; intros k arr f h Hf; [by apply outcome_ret|].
  simpl. eapply outcome_bind; [apply outcome_pure, pure_has_index|].
  intros present h1 _ ->.
  eapply outcome_bind.
  { instantiate (1 := fun _ _ => True). destruct present; [|by apply outcome_ret].
    eapply outcome_bind; [apply outcome_pure, pure_get_prop|].
    intros item h1 _ ->.
    eapply outcome_bind; [apply Hf, R_refl|].
    intros y h1 _ _. by apply outcome_ret. }
  intros y h1 HR _.
  eapply outcome_bind.
  { apply IH. intros item h2 HR'. apply Hf. by eapply R_trans. }
  intros ys h2 _ _. by apply outcome_ret.
Qed.

Lemma outcome_array_map (arr : value) (f : value → M value) (h : heap) :
  (∀ item h', R h h' → outcome R (f item) h' (fun _ _ => True)) →
  outcome R (array_map arr f) h (fun _ _ => True).
Proof.
  intros Hf. unfold array_map.
  eapply outcome_bind; [apply outcome_pure, pure_array_method|].
  intros _ ? _ ->.
  eapply outcome_bind; [apply outcome_pure, pure_array_length|].
  intros len h1 _ ->.
  eapply outcome_bind; [by apply outcome_map_from|].
  intros ys h1 _ _. eapply outcome_weaken; [apply outcome_alloc|done].
Qed.

Lemma outcome_while_length (budget : nat) : ∀ (arr : value) (body : M unit) (h : heap),
  (∀ h', R h h' → outcome R body h' (fun _ _ => True)) →
  outcome R (while_length budget arr body) h (fun _ _ => True).
Proof.
  induction budget as [|b IH]; intros arr body h Hb.
  - simpl. eapply outcome_bind; [apply outcome_pure, pure_array_length|].
    intros n h1 _ ->. destruct (n =? 0); [by apply outcome_ret|apply outcome_stuck].
  - simpl. eapply outcome_bind; [apply outcome_pure, pure_array_length|].
    intros n h1 _ ->. destruct (n =? 0); [by apply outcome_ret|].
    eapply outcome_bind; [apply Hb, R_refl|].
    intros _ h1 HR _. eapply outcome_weaken; [|done].
    apply IH. intros h2 HR'. apply Hb. by eapply R_trans.
Qed.

End Outcome.

(** ** Writes that leave arrays and mappings alone *)

(** From [h] to [h'] every object keeps its kind, and every array and
    mapping at a location below [n] is as it was. *)
Definition keeps (n : nat) (h h' : heap) : Prop :=
  same_types h h'
  ∧ ∀ l c, l < n → h !! l = Some c → composite c → h' !! l = Some c.

(** A value the code may write properties to without touching an array or
    a mapping below [n]: an object at [n] or above, or a function. *)
Definition writable (n : nat) (h : heap) (v : value) : Prop :=
  match v with
  | VRef l => n ≤ l ∨ ∃ c, h !! l = Some c ∧ cell_type c = TFunction
  | _ => True
  end.

Lemma keeps_prefix (n : nat) (h h' : heap) : h `prefix_of` h' → keeps n h h'.
Proof.
  intros Hp. split.
  - intros l c Hl. exists c. split; [by eapply prefix_lookup_Some|done].
  - intros l c _ Hl _. by eapply prefix_lookup_Some.
Qed.

#[global] Instance keeps_frame (n : nat) : Frame (keeps n).
Proof.
  split.
  - intros h. split; [apply same_types_refl|done].
  - intros h1 h2 h3 [Hs12 Hk12] [Hs23 Hk23]. split; [by eapply same_types_trans|].
    intros l c Hl Hc Hcomp. apply Hk23; [done| |done]. by apply Hk12.
  - intros h c. apply keeps_prefix, prefix_alloc.
Qed.

#[global] Instance prefix_frame : Frame (@prefix cell).
Proof.
  split; [done| |].
  - intros h1 h2 h3 ? ?. by etrans.
  - intros h c. apply prefix_alloc.
Qed.

Lemma keeps_length (n : nat) (h h' : heap) : keeps n h h' → length h ≤ length h'.
Proof. intros [Hs _]. by apply same_types_length. Qed.

Lemma writable_keeps (n : nat) (h h' : heap) (v : value) :
  keeps n h h' → writable n h v → writable n h' v.
Proof.
  intros [Hs _]. destruct v; try done. intros [?|(c & Hc & Hf)]; [by left|right].
  destruct (Hs _ _ Hc) as (c' & Hc' & Ht). exists c'. split; [done|congruence].
Qed.

Lemma keeps_write (n l : nat) (h : heap) (c c' : cell) :
  writable n h (VRef l) → h !! l = Some c → cell_type c' = cell_type c →
  keeps n h (<[l := c']> h).
Proof.
  intros Hw Hl Ht. split; [by eapply same_types_write|].
  intros l' c0 Hl' Hc0 Hcomp. destruct (decide (l = l')) as [<-|Hne].
  - exfalso. destruct Hw as [?|(c1 & Hc1 & Hf)]; [lia|].
    rewrite Hl in Hc0, Hc1. injection Hc0 as ->. injection Hc1 as ->.
    unfold composite in Hcomp. by rewrite Hf in Hcomp.
  - by rewrite list_lookup_insert_ne.
Qed.

Lemma outcome_read_cell {R : heap → heap → Prop} `{!Frame R} (l : nat) (h : heap) :
  outcome R (read_cell l) h (fun c h' => h' = h ∧ h !! l = Some c).
Proof.
  unfold outcome, read_cell. destruct (h !! l); [|done]. split; [apply frame_refl|done].
Qed.

Lemma outcome_write_cell (n l : nat) (c' : cell) (h : heap) (c : cell) :
  writable n h (VRef l) → h !! l = Some c → cell_type c' = cell_type c →
  outcome (keeps n) (write_cell l c') h (fun _ _ => True).
Proof.
  intros Hw Hl Ht. unfold outcome, write_cell. rewrite Hl.
  split; [by eapply keeps_write|done].
Qed.

Lemma getObjectType_inv (v : value) (h h' : heap) (t : jstype) :
  getObjectType v h = Ok t h' → h' = h ∧ type_in h v = Some t.
Proof.
  destruct v; try (by intros [= <- <-]).
  unfold getObjectType, bind, read_cell, type_in.
  destruct (h !! l); [|done]. by intros [= <- <-].
Qed.

Lemma outcome_getObjectType {R : heap → heap → Prop} `{!Frame R} (v : value) (h : heap) :
  outcome R (getObjectType v) h (fun t h' => h' = h ∧ type_in h v = Some t).
Proof.
  unfold outcome. destruct (getObjectType v h) as [t h'|e h'|] eqn:E; [| |done].
  - destruct (getObjectType_inv _ _ _ _ E) as [-> Ht]. split; [apply frame_refl|done].
  - pose proof (pure_getObjectType v h) as Hp. rewrite E in Hp. subst.
    apply frame_refl.
Qed.

Section Writes.
Variable ToNumber : heap → value → jsnum.
Variable n : nat.

Lemma pure_to_number (v : value) : pure (to_number ToNumber v).
Proof. by destruct v; intros h. Qed.

Lemma outcome_set_prop (o : value) (p : propname) (x : value) (h : heap) :
  writable n h o → outcome (keeps n) (set_prop ToNumber o p x) h (fun _ _ => True).
Proof.
  intros Hw. unfold set_prop.
  destruct o; try apply outcome_throw;
    try (destruct (prop_is p "__proto__"); [by apply outcome_ret|apply outcome_throw]).
  eapply outcome_bind; [apply outcome_read_cell|].
  intros c h1 _ [-> Hl].
  destruct (negb (cell_has c p) && prop_is p "__proto__").
  { destruct x; first [by apply outcome_ret|apply outcome_stuck]. }
  eapply outcome_weaken; [|done].
  destruct c as [elems named|props|f s props].
  - destruct (array_index p); [by eapply outcome_write_cell|].
    destruct (String.eqb (key_string p) "length"); [|by eapply outcome_write_cell].
    eapply outcome_bind; [apply outcome_pure, pure_to_number|].
    intros num h1 _ ->. eapply outcome_weaken; [|done].
    destruct (length_of_num num); [by eapply outcome_write_cell|apply outcome_throw].
  - by eapply outcome_write_cell.
  - destruct (_ && _); [apply outcome_throw|by eapply outcome_write_cell].
Qed.

Lemma outcome_splice1 (o : value) (p : propname) (h : heap) :
  writable n h o → outcome (keeps n) (splice1 ToNumber o p) h (fun _ _ => True).
Proof.
  intros Hw. unfold splice1.
  eapply outcome_bind; [apply outcome_pure, pure_array_method|].
  intros _ ? _ ->. eapply outcome_weaken; [|done].
  destruct o; try apply outcome_throw.
  eapply outcome_bind; [apply outcome_read_cell|].
  intros c h1 _ [-> Hl]. eapply outcome_weaken; [|done].
  destruct c as [elems named|props|f s props]; try apply outcome_throw.
  eapply outcome_bind.
  { instantiate (1 := fun _ h' => h' = h).
    destruct p; [apply outcome_pure, pure_to_number|by apply outcome_ret]. }
  intros start h1 _ ->. eapply outcome_weaken; [|done].
  by eapply outcome_write_cell.
Qed.

Lemma outcome_delete_prop (o : value) (p : propname) (h : heap) :
  writable n h o → outcome (keeps n) (delete_prop o p) h (fun _ _ => True).
Proof.
  intros Hw. destruct o; try by apply outcome_ret. unfold delete_prop.
  eapply outcome_bind; [apply outcome_read_cell|].
  intros c h1 _ [-> Hl]. eapply outcome_weaken; [|done].
  destruct c as [elems named|props|f s props]; try by eapply outcome_write_cell.
  destruct (array_index p); by eapply outcome_write_cell.
Qed.

(** The copy made on entry may be written to. *)
Lemma outcome_shallow_copy (v : value) (h : heap) :
  n ≤ length h →
  outcome (keeps n) (shallow_copy v) h (fun r h' =>
    writable n h' r
    ∧ ∀ t, type_in h v = Some t → is_composite t = true → r = VRef (length h)).
Proof.
  intros Hn.
  destruct v; try (apply outcome_ret; split; [done|by intros t [= <-]]).
  unfold shallow_copy.
  eapply outcome_bind; [apply outcome_read_cell|].
  intros c h1 _ [-> Hl]. eapply outcome_weaken.
  { instantiate (1 := fun r h' =>
      writable n h' r ∧ (composite c → r = VRef (length h))).
    destruct c as [elems named|props|f s props].
    - eapply outcome_weaken; [apply outcome_alloc|].
      intros r h' _ [-> ->]. split; [by left|done].
    - eapply outcome_weaken; [apply outcome_alloc|].
      intros r h' _ [-> ->]. split; [by left|done].
    - apply outcome_ret. split; [|done]. right. eauto. }
  intros r h' _ [Hw Hr] _. split; [done|].
  intros t Ht Hc. apply Hr. unfold type_in in Ht. rewrite Hl in Ht.
  injection Ht as <-. done.
Qed.

End Writes.

Lemma outcome_relax {A} (R R' : heap → heap → Prop) (m : M A) (h : heap)
    (Q : A → heap → Prop) :
  (∀ h1 h2, R h1 h2 → R' h1 h2) → outcome R m h Q → outcome R' m h Q.
Proof.
  intros HR. unfold outcome. destruct (m h); [|by apply HR|done].
  intros [? ?]. split; [by apply HR|done].
Qed.

Ltac opure lem :=
  eapply outcome_bind; [apply outcome_pure, lem|intros ? ? _ ->].

Section FrameDirect.
Variable call : fid → value → M value.
Variable ToNumber : heap → value → jsnum.
Variable n : nat.

(** The user functions leave the objects of the store as they are: they
    may create objects, and change none. *)
Definition framed : Prop :=
  ∀ f v h, outcome prefix (call f v) h (fun _ _ => True).

(** A replacement that changes no object when the write applies it: a
    literal, which is not called, or any value when the user functions
    change none. *)
Definition tame (h : heap) (v : value) : Prop := framed ∨ literal h v.

Lemma tame_keeps (h h' : heap) (v : value) : keeps n h h' → tame h v → tame h' v.
Proof.
  intros [Hs _] [?|Hl]; [by left|right]. by eapply literal_same_types.
Qed.

Lemma tame_undef (h : heap) : tame h VUndef.
Proof. right. by exists TUndefined. Qed.

Lemma tame_function (h : heap) (v : value) :
  tame h v → type_in h v = Some TFunction → framed.
Proof. intros [?|(t & Ht & Hne)] Hf; [done|congruence]. Qed.

Lemma outcome_call_function (f arg : value) (h : heap) :
  framed → outcome (keeps n) (call_function call f arg) h (fun _ _ => True).
Proof.
  intros call_frame.
  destruct f; try apply outcome_throw. unfold call_function.
  eapply outcome_bind; [apply outcome_read_cell|].
  intros c h1 _ [-> Hl]. eapply outcome_weaken; [|done].
  destruct c; try apply outcome_throw.
  eapply outcome_relax; [|apply call_frame]. apply keeps_prefix.
Qed.

(** The replacement a write uses: the value itself, or what it returns
    when it is a function. *)
Lemma outcome_replacement (tv : jstype) (v : value) (result : value) (p : propname)
    (h : heap) :
  tame h v → type_in h v = Some tv →
  outcome (keeps n)
    (if bool_decide (tv = TFunction)
     then let* cur := get_prop result p in call_function call v cur
     else ret v) h (fun r h' => tame h' r).
Proof.
  intros Ht Htv. destruct (bool_decide_reflect (tv = TFunction)) as [->|Hne].
  - pose proof (tame_function _ _ Ht Htv) as Hframed.
    eapply outcome_bind; [apply outcome_top_pure, pure_get_prop|].
    intros cur h1 Hk1 _. eapply outcome_weaken; [by apply outcome_call_function|].
    intros r h2 _ _ _. by left.
  - by apply outcome_ret.
Qed.

(** A call leaves the arrays and mappings below [n] alone when it copies,
    or when it is handed an object that may be written to; a write that
    copies an array or a mapping returns the copy. *)
Definition direct_ok (self : value → propname → bool → option value → M value) : Prop :=
  ∀ obj prop b args h,
    n ≤ length h → (b = true → writable n h obj) →
    (∀ v, args = Some v → tame h v) →
    outcome (keeps n) (self obj prop b args) h (fun r _ =>
      b = false → is_Some args →
      ∀ t, type_in h obj = Some t → is_composite t = true → r = VRef (length h)).

(** The branches of [findDirectPropInObject] that follow the copy. *)
Lemma branches_direct_ok self (type : jstype) (result : value) (prop : propname)
    (b : bool) (args : option value) (h1 : heap) :
  direct_ok self → n ≤ length h1 → writable n h1 result →
  is_composite type = true → (∀ v, args = Some v → tame h1 v) →
  outcome (keeps n)
    (if prop_is prop "" then
       if bool_decide (is_Some args) then ret result else ret VUndef
     else if prop_is prop "*" then
       if bool_decide (is_Some args) then
         (match type with
          | TArray =>
              if is_undef (default VUndef args) then
                let* n := array_length result in
                while_length n result
                  (self result (PIdx 0) true (Some (default VUndef args)) ;;; ret tt)
              else
                let* length := array_length result in
                forEach result (fun item index =>
                  let itemIndex := length - 1 - index in
                  let* tv := getObjectType (default VUndef args) in
                  let* itemValue :=
                    (if bool_decide (tv = TFunction)
                     then let* cur := get_prop result (PIdx itemIndex) in
                          call_function call (default VUndef args) cur
                     else ret (default VUndef args)) in
                  if is_undef itemValue then
                    self result (PIdx itemIndex) true (Some VUndef) ;;; ret tt
                  else
                    let* newResult :=
                      self result (PIdx itemIndex) b (Some itemValue) in
                    let* x := get_prop newResult (PIdx itemIndex) in
                    set_prop ToNumber result (PIdx itemIndex) x)
          | _ =>
              let* keys := Object_keys result in
              forEach_list keys (fun key =>
                self result key true (Some (default VUndef args)) ;;; ret tt)
          end) ;;;
         ret result
       else
         match type with
         | TArray => ret result
         | _ => Object_values result
         end
     else
       if bool_decide (is_Some args) then
         let* tv := getObjectType (default VUndef args) in
         let* replaceWith :=
           (if bool_decide (tv = TFunction)
            then let* cur := get_prop result prop in
                 call_function call (default VUndef args) cur
            else ret (default VUndef args)) in
         (if is_undef replaceWith && bool_decide (type = TArray)
          then splice1 ToNumber result prop
          else if is_undef replaceWith && bool_decide (type = TObject)
               then delete_prop result prop
               else set_prop ToNumber result prop replaceWith) ;;;
         ret result
       else get_prop result prop) h1
    (fun r _ => is_Some args → r = result).
Proof.
  intros Hself Hn1 Hw Hcomp Htame.
  assert (∀ h', keeps n h1 h' → writable n h' result) as Hw'
    by (intros h' Hk; by eapply writable_keeps).
  assert (∀ v h', args = Some v → keeps n h1 h' → tame h' v) as Htame'
    by (intros v h' Hv Hk; eapply tame_keeps; [done|by apply Htame]).
  assert (∀ o p b' a h', keeps n h1 h' → (b' = true → writable n h' o) →
            tame h' a →
            outcome (keeps n) (self o p b' (Some a)) h' (fun _ _ => True)) as Hcall.
  { intros o p b' a h' Hk Hb' Ha. eapply outcome_top, Hself; [|done|].
    - apply keeps_length in Hk. lia.
    - by intros v [= <-]. }
  assert (∀ (m : M value) h', outcome (keeps n) m h' (fun _ _ => True) →
            outcome (keeps n) (m ;;; ret tt) h' (fun _ _ => True)) as Hunit.
  { intros m h' Hm. apply outcome_top_bind; [done|]. intros. by apply outcome_ret. }
  destruct (prop_is prop "").
  { destruct args; apply outcome_ret; [done|cbv beta; by intros ?%is_Some_None]. }
  destruct (prop_is prop "*").
  { destruct args as [v|]; simpl.
    - eapply outcome_bind; [|intros; by apply outcome_ret].
      instantiate (1 := fun _ _ => True).
      destruct type; try discriminate.
      + destruct (is_undef v).
        * apply outcome_top_bind; [apply outcome_top_pure, pure_array_length|].
          intros len h2 Hk2. apply outcome_while_length. intros h3 Hk3.
          assert (keeps n h1 h3) as Hk13 by by eapply frame_trans.
          apply Hunit, Hcall; [done| |by apply Htame'].
          intros _. by apply Hw'.
        * apply outcome_top_bind; [apply outcome_top_pure, pure_array_length|].
          intros len h2 Hk2. apply outcome_forEach. intros item i h3 Hk3.
          assert (keeps n h1 h3) as Hk13 by by eapply frame_trans.
          eapply outcome_bind_top; [apply outcome_getObjectType|].
          intros tv h3' _ [-> Htv].
          eapply outcome_bind_top; [apply outcome_replacement; [by apply Htame'|done]|].
          intros itemValue h4 Hk4 Hitem.
          assert (keeps n h1 h4) as Hk14 by by eapply frame_trans.
          destruct (is_undef itemValue).
          -- apply Hunit, Hcall; [done| |apply tame_undef]. intros _. by apply Hw'.
          -- apply outcome_top_bind.
             { apply Hcall; [done| |done]. intros _. by apply Hw'. }
             intros newResult h5 Hk5.
             apply outcome_top_bind; [apply outcome_top_pure, pure_get_prop|].
             intros x h6 Hk6. apply outcome_set_prop, Hw'.
             eapply frame_trans; [done|]. by eapply frame_trans.
      + apply outcome_top_bind; [apply outcome_top_pure, pure_Object_keys|].
        intros keys h2 Hk2. apply outcome_forEach_list. intros key h3 Hk3.
        assert (keeps n h1 h3) as Hk13 by by eapply frame_trans.
        apply Hunit, Hcall; [done| |by apply Htame'].
        intros _. by apply Hw'.
    - eapply outcome_weaken; [|intros ? ? _ _; cbv beta; by intros ?%is_Some_None].
      instantiate (1 := fun _ _ => True).
      destruct type; try discriminate;
        [by apply outcome_ret|apply outcome_Object_values]. }
  destruct args as [v|]; simpl.
  - eapply outcome_bind; [apply outcome_getObjectType|].
    intros tv h2 _ [-> Htv].
    eapply outcome_bind; [apply outcome_replacement; [by apply Htame|done]|].
    intros replaceWith h3 Hk3 _.
    eapply outcome_bind; [|intros; by apply outcome_ret].
    instantiate (1 := fun _ _ => True).
    destruct (_ && _); [by apply outcome_splice1, Hw'|].
    destruct (_ && _); [by apply outcome_delete_prop, Hw'|].
    by apply outcome_set_prop, Hw'.
  - eapply outcome_weaken; [apply outcome_top_pure, pure_get_prop|].
    intros ? ? _ _. cbv beta. by intros ?%is_Some_None.
Qed.

Lemma body_direct_ok self :
  direct_ok self → direct_ok (findDirectPropInObject_body call ToNumber self).
Proof.
  intros Hself obj prop b args h Hn Hb Htame. unfold findDirectPropInObject_body.
  eapply outcome_bind; [apply outcome_getObjectType|].
  intros type h1 _ [-> Htype].
  destruct (is_composite type) eqn:Hcomp; simpl negb; cbv iota; swap 1 2.
  { apply outcome_ret. intros _ _ _ t Ht Hc. congruence. }
  eapply outcome_bind.
  { instantiate (1 := fun result h' =>
      writable n h' result ∧ (b = false → result = VRef (length h))).
    destruct b.
    - apply outcome_ret. split; [by apply Hb|done].
    - eapply outcome_weaken; [by apply outcome_shallow_copy|].
      intros r h' _ [Hw Hr]. split; [done|]. intros _. by eapply Hr. }
  intros result h1 HR1 [Hw Hres].
  eapply outcome_weaken.
  { apply (branches_direct_ok self type result prop b args h1); try done.
    - apply keeps_length in HR1. lia.
    - intros v Hv. eapply tame_keeps; [done|by apply Htame]. }
  intros r h2 _ Hr _ _ Hb' Hargs t Ht Hc. cbv beta in Hr. rewrite Hr by done.
  by apply Hres.
Qed.

Lemma findDirectPropInObject_ok (fuel : nat) :
  direct_ok (findDirectPropInObject call ToNumber fuel).
Proof.
  induction fuel as [|fuel IH].
  - intros obj prop b args h _ _ _. apply outcome_stuck.
  - rewrite findDirectPropInObject_S. by apply body_direct_ok.
Qed.

End FrameDirect.

Section FramePath.
Variable call : fid → value → M value.
Variable ToNumber : heap → value → jsnum.
Variable n : nat.

Definition path_ok (self : value → string → bool → option value → M value) : Prop :=
  ∀ obj pathStr args h,
    n ≤ length h → (∀ v, args = Some v → tame call h v) →
    outcome (keeps n) (self obj pathStr false args) h (fun r _ =>
      is_Some args →
      ∀ t, type_in h obj = Some t → is_composite t = true → r = VRef (length h)).

Lemma body_path_ok direct self :
  direct_ok call n direct → path_ok self →
  path_ok (findPropInObject_body ToNumber direct self).
Proof.
  intros Hdirect Hself obj pathStr args h Hn Htame. unfold findPropInObject_body.
  eapply outcome_bind; [apply outcome_getObjectType|].
  intros type h1 _ [-> Htype].
  destruct (parse_path pathStr) as [|prop [|prop2 rest]].
  { apply outcome_stuck. }
  { destruct args as [v|]; simpl.
    - eapply outcome_weaken; [apply Hdirect; [done|done|]|].
      + intros v' [= <-]. by apply Htame.
      + intros r h' _ Hr _. by apply Hr.
    - eapply outcome_weaken; [by apply Hdirect|].
      intros r h' _ _ _. cbv beta. by intros ?%is_Some_None. }
  cbv iota.
  eapply outcome_bind; [by apply outcome_shallow_copy|].
  intros result h1 HR1 [Hw Hres].
  assert (∀ h', keeps n h1 h' → writable n h' result) as Hw'
    by (intros h' Hk; by eapply writable_keeps).
  assert (∀ o p h', keeps n h1 h' →
            outcome (keeps n) (self o p false args) h' (fun _ _ => True)) as Hcall.
  { intros o p h' Hk. eapply outcome_top, Hself.
    - apply keeps_length in Hk, HR1. lia.
    - intros v Hv. apply (tame_keeps call n h); [by eapply frame_trans|by apply Htame]. }
  eapply outcome_weaken.
  { instantiate (1 := fun r _ => is_Some args → r = result).
    destruct args as [v|]; simpl.
    - destruct (String.eqb prop "*").
      + eapply outcome_bind; [|intros; by apply outcome_ret].
        instantiate (1 := fun _ _ => True).
        destruct type; try by apply outcome_ret.
        * apply outcome_forEach. intros item i h2 Hk2.
          apply outcome_top_bind; [by apply Hcall|].
          intros r h3 Hk3. apply outcome_set_prop, Hw'. by eapply frame_trans.
        * apply outcome_top_bind; [apply outcome_top_pure, pure_Object_keys|].
          intros keys h2 Hk2. apply outcome_forEach_list. intros key h3 Hk3.
          assert (keeps n h1 h3) as Hk13 by by eapply frame_trans.
          apply outcome_top_bind; [apply outcome_top_pure, pure_get_prop|].
          intros cur h4 Hk4.
          assert (keeps n h1 h4) as Hk14 by by eapply frame_trans.
          apply outcome_top_bind; [by apply Hcall|].
          intros r h5 Hk5. apply outcome_set_prop, Hw'. by eapply frame_trans.
      + eapply outcome_bind; [apply outcome_top_pure, pure_get_prop|].
        intros cur h2 Hk2 _.
        eapply outcome_bind.
        { instantiate (1 := fun _ _ => True).
          destruct (is_undef cur); [|by apply outcome_ret].
          apply outcome_top_bind; [eapply outcome_top, outcome_alloc|].
          intros fresh h3 Hk3. apply outcome_set_prop, Hw'.
          eapply frame_trans; [done|]. done. }
        intros _ h3 Hk3 _.
        assert (keeps n h1 h3) as Hk13 by by eapply frame_trans.
        eapply outcome_bind; [apply outcome_top_pure, pure_get_prop|].
        intros cur2 h4 Hk4 _.
        assert (keeps n h1 h4) as Hk14 by by eapply frame_trans.
        eapply outcome_bind; [by apply Hcall|].
        intros r h5 Hk5 _.
        assert (keeps n h1 h5) as Hk15 by by eapply frame_trans.
        eapply outcome_bind; [by apply outcome_set_prop, Hw'|].
        intros; by apply outcome_ret.
    - eapply outcome_weaken; [|intros ? ? _ _; cbv beta; by intros ?%is_Some_None].
      instantiate (1 := fun _ _ => True).
      destruct (_ && _).
      { apply outcome_array_map. intros item h2 Hk2. by apply Hcall. }
      destruct (_ && _).
      { apply outcome_top_bind; [apply outcome_Object_values|].
        intros vals h2 Hk2. apply outcome_array_map. intros item h3 Hk3.
        apply Hcall. by eapply frame_trans. }
      apply outcome_top_bind; [apply outcome_top_pure, pure_get_prop|].
      intros cur h2 Hk2.
      apply outcome_top_bind.
      { destruct (truthy cur); [by apply outcome_ret|eapply outcome_top, outcome_alloc]. }
      intros sub h3 Hk3. apply Hcall. by eapply frame_trans. }
  intros r h2 _ Hr _ _ Hargs t Ht Hc. cbv beta in Hr. rewrite Hr by done.
  by eapply Hres.
Qed.

Lemma findPropInObject_ok (fuel : nat) :
  path_ok (findPropInObject call ToNumber fuel).
Proof.
  induction fuel as [|fuel IH].
  - intros obj pathStr args h _ _. apply outcome_stuck.
  - rewrite findPropInObject_S. apply body_path_ok; [|done].
    by apply findDirectPropInObject_ok.
Qed.

End FramePath.

(** ** Reads *)

Section Reads.
Variable call : fid → value → M value.
Variable ToNumber : heap → value → jsnum.

Lemma outcome_shallow_copy_top {R : heap → heap → Prop} `{!Frame R}
    (v : value) (h : heap) :
  outcome R (shallow_copy v) h (fun _ _ => True).
Proof.
  destruct v; try by apply outcome_ret. unfold shallow_copy.
  apply outcome_top_bind; [apply outcome_top_pure, pure_read_cell|].
  intros c h1 _.
  destruct c; [eapply outcome_top, outcome_alloc..|by apply outcome_ret].
Qed.

(** A read through [findDirectPropInObject] only adds objects. *)
Lemma findDirectPropInObject_read (fuel : nat) (obj : value) (prop : propname)
    (b : bool) (h : heap) :
  outcome prefix (findDirectPropInObject call ToNumber fuel obj prop b None) h
    (fun _ _ => True).
Proof.
  destruct fuel as [|fuel]; [apply outcome_stuck|].
  rewrite findDirectPropInObject_S. unfold findDirectPropInObject_body.
  apply outcome_top_bind; [apply outcome_top_pure, pure_getObjectType|].
  intros type h1 Hp1. destruct (negb (is_composite type)); [by apply outcome_ret|].
  apply outcome_top_bind.
  { destruct b; [by apply outcome_ret|apply outcome_shallow_copy_top]. }
  intros result h2 Hp2. simpl.
  destruct (prop_is prop ""); [by apply outcome_ret|].
  destruct (prop_is prop "*").
  - destruct type; try apply outcome_Object_values. by apply outcome_ret.
  - apply outcome_top_pure, pure_get_prop.
Qed.

Definition path_read_ok (self : value → string → bool → option value → M value) : Prop :=
  ∀ obj pathStr b h, outcome prefix (self obj pathStr b None) h (fun _ _ => True).

Lemma body_path_read_ok self (fuel : nat) :
  path_read_ok self →
  path_read_ok
    (findPropInObject_body ToNumber (findDirectPropInObject call ToNumber fuel) self).
Proof.
  intros Hself obj pathStr b h. unfold findPropInObject_body.
  apply outcome_top_bind; [apply outcome_top_pure, pure_getObjectType|].
  intros type h1 Hp1.
  destruct (parse_path pathStr) as [|prop [|prop2 rest]].
  { apply outcome_stuck. }
  { simpl. apply findDirectPropInObject_read. }
  cbv iota.
  apply outcome_top_bind.
  { destruct b; [by apply outcome_ret|apply outcome_shallow_copy_top]. }
  intros result h2 Hp2. simpl.
  destruct (_ && _).
  { apply outcome_array_map. intros item h3 Hp3. apply Hself. }
  destruct (_ && _).
  { apply outcome_top_bind; [apply outcome_Object_values|].
    intros vals h3 Hp3. apply outcome_array_map. intros item h4 Hp4. apply Hself. }
  apply outcome_top_bind; [apply outcome_top_pure, pure_get_prop|].
  intros cur h3 Hp3.
  apply outcome_top_bind.
  { destruct (truthy cur); [by apply outcome_ret|eapply outcome_top, outcome_alloc]. }
  intros sub h4 Hp4. apply Hself.
Qed.

(** A read through [findPropInObject] only adds objects. *)
Lemma findPropInObject_read (fuel : nat) :
  path_read_ok (findPropInObject call ToNumber fuel).
Proof.
  induction fuel as [|fuel IH].
  - intros obj pathStr b h. apply outcome_stuck.
  - rewrite findPropInObject_S. by apply body_path_read_ok.
Qed.

End Reads.

(** ** C3 *)

Section NonDestructive.
Variable call : fid → value → M value.
Variable ToNumber : heap → value → jsnum.


End NonDestructive.

(** A user function that returns its argument and touches nothing. *)
Definition call_identity (f : fid) (arg : value) : M value := ret arg.

(** A user function that closes over the object at location 0 and stores
    its argument there as the property [b], like
    [x => { root.b = x; return x; }]. *)
Definition call_storing (f : fid) (arg : value) : M value :=
  set_prop ToNumber_decimal (VRef 0) (PStr "b") arg ;;; ret arg.

Definition transformer_heap : heap :=
  [CObj [("a", VNum 1)]; CFun 0 "x => { root.b = x; return x; }" []].

Lemma call_identity_frame (f : fid) (v : value) (h : heap) :
  outcome prefix (call_identity f v) h (fun _ _ => True).
Proof. split; [done|done]. Qed.


(** The run of that write: it returns the new root at location 2, and the
    original root still has its one property. *)
Lemma write_copies_example :
  ∃ h',
    path_set call_identity ToNumber_decimal 3 (VRef 0) "a" (VRef 1) transformer_heap
    = Ok (VRef 2) h'
    ∧ h' !! 0 = Some (CObj [("a", VNum 1)])
    ∧ h' !! 2 = Some (CObj [("a", VNum 1)]).
Proof. eexists. split; [by vm_compute|]. by split. Qed.




(** The multi-segment branch has no guard on the kind of its root: a
    function root is not copied, and the write stores into it in place. *)
Lemma function_root_written_in_place :
  ∃ h',
    path_set call_identity ToNumber_decimal 3 (VRef 0) "a.b" (VNum 1)
      [CFun 0 "() => {}" []] = Ok (VRef 0) h'
    ∧ h' !! 0 = Some (CFun 0 "() => {}" [("a", VRef 2)])
    ∧ h' !! 2 = Some (CObj [("b", VNum 1)]).
Proof. eexists. split; [by vm_compute|]. by split. Qed.

(** * [deepCopy] and [deepCompare] (C9) *)

(** ** Finite nestings of sequences and mappings *)

(** The value prints by the built-in [toString]: it is no object with a
    property [toString] of its own. *)
Definition prints (h : heap) (v : value) : Prop :=
  match v with
  | VRef l =>
      match h !! l with
      | Some c => own_method c "toString" = None
      | None => True
      end
  | _ => True
  end.

(** [v] is, in the store [h], a nesting of depth at most [d] of dense
    sequences (no hole, no named property) and mappings, over values that
    are neither.  No object of it has a property [toString] of its own,
    and no mapping has the key [__proto__], which an assignment does not
    store. *)
Fixpoint nested (d : nat) (h : heap) (v : value) {struct d} : Prop :=
  match v with
  | VRef l =>
      match h !! l with
      | Some (CArr elems named) =>
          match d with
          | O => False
          | S d' =>
              named = [] ∧ Forall (fun e => ∃ x, e = Some x ∧ nested d' h x) elems
          end
      | Some (CObj props) =>
          match d with
          | O => False
          | S d' =>
              assoc_get "toString" props = None ∧ assoc_get "__proto__" props = None
              ∧ Forall (fun kv => nested d' h kv.2) props
          end
      | Some (CFun _ _ props) => assoc_get "toString" props = None
      | None => False
      end
  | _ => True
  end.

(** [a], whose arrays and mappings are cells of [h] at [n] or above, has
    the shape of [b] in [h0]: the same value where [b] is not an array or
    a mapping, element by element for a sequence, and for a mapping the
    keys of [a] are the keys of [b], each with such a value. *)
Fixpoint copies (d : nat) (h0 : heap) (n : nat) (h : heap) (a b : value)
    {struct d} : Prop :=
  (a = b ∧ prints h0 b ∧ ∃ t, type_in h0 b = Some t ∧ is_composite t = false)
  ∨ match d with
    | O => False
    | S d' =>
        ∃ la lb, a = VRef la ∧ b = VRef lb ∧ n ≤ la ∧
          ((∃ ea eb, h !! la = Some (CArr ea []) ∧ h0 !! lb = Some (CArr eb []) ∧
              Forall2 (fun e f => ∃ x y, e = Some x ∧ f = Some y ∧
                                   copies d' h0 n h x y) ea eb)
           ∨ (∃ pa pb, h !! la = Some (CObj pa) ∧ h0 !! lb = Some (CObj pb) ∧
              assoc_get "toString" pb = None ∧
              (∀ k, is_Some (assoc_get k pa) ↔ is_Some (assoc_get k pb)) ∧
              ∀ k x, assoc_get k pa = Some x →
                     ∃ y, assoc_get k pb = Some y ∧ copies d' h0 n h x y))
    end.

Lemma nested_cases d h v :
  nested d h v →
  (prints h v ∧ ∃ t, type_in h v = Some t ∧ is_composite t = false)
  ∨ ∃ d' l, d = S d' ∧ v = VRef l ∧
      ((∃ eb, h !! l = Some (CArr eb []) ∧
              Forall (fun e => ∃ x, e = Some x ∧ nested d' h x) eb)
       ∨ (∃ pb, h !! l = Some (CObj pb) ∧ assoc_get "toString" pb = None
                ∧ assoc_get "__proto__" pb = None
                ∧ Forall (fun kv => nested d' h kv.2) pb)).
Proof.
  destruct v as [| | | | |l]; try (destruct d; left; (split; [exact I|by eexists])).
  destruct d as [|d']; simpl; destruct (h !! l) as [[elems named|props|f s ps]|] eqn:E;
    try done; try (intros H; left; (split; [done|by eexists])).
  - intros [-> H]. right. exists d', l. split_and!; [done..|]. left. by exists elems.
  - intros (? & ? & H). right. exists d', l. split_and!; [done..|]. right. by exists props.
Qed.

Lemma copies_agree d h0 n h h' a b :
  (∀ l c, n ≤ l → h !! l = Some c → h' !! l = Some c) →
  copies d h0 n h a b → copies d h0 n h' a b.
Proof.
  intros Hag. revert a b. induction d as [|d IH]; intros a b; simpl.
  { intros [H|[]]. by left. }
  intros [H|(la & lb & -> & -> & Hn & H)]; [by left|].
  right. exists la, lb. split_and!; [done..|].
  destruct H as [(ea & eb & Ha & Hb & Hall)|(pa & pb & Ha & Hb & Hts & Hkeys & Hall)].
  - left. exists ea, eb. split_and!; [by apply Hag|done|].
    eapply Forall2_impl; [exact Hall|]. intros e f (x & y & -> & -> & H).
    exists x, y. split_and!; [done..|]. by apply IH.
  - right. exists pa, pb. split_and!; [by apply Hag|done..|].
    intros k x Hk. destruct (Hall k x Hk) as (y & Hy & H). exists y. split; [done|].
    by apply IH.
Qed.

Lemma copies_from d h0 n n' h a b :
  n ≤ n' → copies d h0 n' h a b → copies d h0 n h a b.
Proof.
  intros Hle. revert a b. induction d as [|d IH]; intros a b; simpl.
  { intros [H|[]]. by left. }
  intros [H|(la & lb & -> & -> & Hn & H)]; [by left|].
  right. exists la, lb. split_and!; [done|done|lia|].
  destruct H as [(ea & eb & Ha & Hb & Hall)|(pa & pb & Ha & Hb & Hts & Hkeys & Hall)].
  - left. exists ea, eb. split_and!; [done..|].
    eapply Forall2_impl; [exact Hall|]. intros e f (x & y & -> & -> & H).
    exists x, y. split_and!; [done..|]. by apply IH.
  - right. exists pa, pb. split_and!; [done..|].
    intros k x Hk. destruct (Hall k x Hk) as (y & Hy & H). exists y. split; [done|].
    by apply IH.
Qed.

Lemma copies_leaf d h0 n h b t :
  prints h0 b → type_in h0 b = Some t → is_composite t = false → copies d h0 n h b b.
Proof. intros Hpr Ht Hc. destruct d; left; eauto. Qed.

Lemma copies_head d h0 n h a b :
  copies d h0 n h a b → a = b ∨ ∃ la lb, a = VRef la ∧ b = VRef lb.
Proof.
  destruct d; simpl; (intros [[-> _]|H]; [by left|]); [done|].
  destruct H as (la & lb & -> & -> & _). right. by eauto.
Qed.

Lemma prints_prefix h h' v t :
  h `prefix_of` h' → type_in h v = Some t → prints h v → prints h' v.
Proof.
  intros Hp Ht. destruct v as [| | | | |l]; try done. unfold prints, type_in in *.
  destruct (h !! l) as [c|] eqn:E; [|done].
  by rewrite (prefix_lookup_Some _ _ _ _ E Hp).
Qed.

(** The two sides of a copy are of the same kind. *)
Lemma copies_type d h0 n h a b :
  h0 `prefix_of` h → copies d h0 n h a b →
  ∃ t, type_in h a = Some t ∧ type_in h b = Some t.
Proof.
  intros Hp H.
  assert (Hleaf : a = b ∧ prints h0 b
                  ∧ (∃ t, type_in h0 b = Some t ∧ is_composite t = false) →
                  ∃ t, type_in h a = Some t ∧ type_in h b = Some t).
  { intros (-> & _ & t & Ht & _). exists t. split; by eapply type_in_prefix. }
  destruct d as [|d]; simpl in H; destruct H as [H|H]; [by auto|done|by auto|].
  destruct H as (la & lb & -> & -> & Hn & [(ea & eb & Ha & Hb & _)|(pa & pb & Ha & Hb & _)]).
  - exists TArray. simpl. rewrite Ha, (prefix_lookup_Some _ _ _ _ Hb Hp). done.
  - exists TObject. simpl. rewrite Ha, (prefix_lookup_Some _ _ _ _ Hb Hp). done.
Qed.

(** ** [toString] on a copy *)

Lemma to_string_leaf fuel h v t :
  prints h v → type_in h v = Some t → is_composite t = false →
  ∃ s, to_string (S fuel) v h = Ok s h.
Proof.
  rewrite to_string_S. unfold to_string_body.
  destruct v as [| |b|z|s|l]; simpl; try by eexists.
  destruct (h !! l) as [c|] eqn:E; [|done]. intros Hpr [= <-] Hc.
  destruct c as [elems named|props|f src ps]; try done.
  exists src. mrun. by rewrite Hpr.
Qed.

(** Where [toString] returns, [String] gives the same. *)
Lemma to_primitive_string_Ok fuel v h s :
  to_string fuel v h = Ok s h → to_primitive_string (to_string fuel) v h = Ok s h.
Proof.
  destruct v as [| | | | |l]; try done. intros H.
  unfold to_primitive_string, bind, read_cell.
  destruct fuel as [|fuel]; [done|].
  rewrite to_string_S in H. unfold to_string_body, bind, read_cell in H.
  destruct (h !! l) as [c|] eqn:E; [|done].
  destruct (own_method c "toString") as [m|] eqn:Em.
  - destruct (getObjectType m h) as [t h1|e h1|]; [|done..].
    by destruct (bool_decide (t = TFunction)).
  - rewrite to_string_S. unfold to_string_body, bind, read_cell. by rewrite E, Em.
Qed.

Lemma join_piece_Ok fuel x h s :
  to_string fuel x h = Ok s h →
  ∃ s', join_piece (to_string fuel) (Some x) h = Ok s' h.
Proof.
  intros H. destruct x; try (by exists ""); exists s; by apply to_primitive_string_Ok.
Qed.

Lemma join_with_same (str : value → M string) (h : heap) ea eb :
  Forall2 (fun e f => ∃ s, join_piece str e h = Ok s h ∧ join_piece str f h = Ok s h)
    ea eb →
  ∃ s, join_with str ea h = Ok s h ∧ join_with str eb h = Ok s h.
Proof.
  induction 1 as [|e f ea eb (s & He & Hf) Hall (t & Ha & Hb)]; [by exists ""|].
  destruct Hall as [|e' f' ea' eb' H' Hall']; [by exists s|].
  exists (s ++ "," ++ t)%string.
  change (join_with str (e :: e' :: ea'))
    with (let* s := join_piece str e in
          let* t := join_with str (e' :: ea') in ret (s ++ "," ++ t)%string).
  change (join_with str (f :: f' :: eb'))
    with (let* s := join_piece str f in
          let* t := join_with str (f' :: eb') in ret (s ++ "," ++ t)%string).
  split; by mrun.
Qed.

Lemma to_string_copies d : ∀ fuel h0 n h a b,
  h0 `prefix_of` h → copies d h0 n h a b → d < fuel →
  ∃ s, to_string fuel a h = Ok s h ∧ to_string fuel b h = Ok s h.
Proof.
  assert (Hleaf : ∀ fuel h0 (h : heap) a b,
    h0 `prefix_of` h → 0 < fuel →
    a = b ∧ prints h0 b ∧ (∃ t, type_in h0 b = Some t ∧ is_composite t = false) →
    ∃ s, to_string fuel a h = Ok s h ∧ to_string fuel b h = Ok s h).
  { intros fuel h0 h a b Hp Hf (-> & Hpr & t & Ht & Hc).
    destruct fuel as [|fuel]; [lia|].
    destruct (to_string_leaf fuel h b t) as [s Hs];
      [by eapply prints_prefix|by eapply type_in_prefix|done|].
    by exists s. }
  induction d as [|d IH]; intros fuel h0 n h a b Hp H Hf; simpl in H.
  { destruct H as [H|[]]. by eapply Hleaf. }
  destruct H as [H|(la & lb & -> & -> & Hn & H)]; [eapply Hleaf; [done|lia|done]|].
  destruct fuel as [|fuel]; [lia|]. rewrite to_string_S. unfold to_string_body.
  destruct H as [(ea & eb & Ha & Hb & Hall)|(pa & pb & Ha & Hb & Hts & Hkeys & Hall)].
  - apply (fun H => prefix_lookup_Some _ h _ _ H Hp) in Hb.
    destruct (join_with_same (to_string fuel) h ea eb) as (s & Hsa & Hsb).
    { eapply Forall2_impl; [exact Hall|]. intros e f (x & y & -> & -> & H).
      destruct (IH fuel h0 n h x y Hp H) as (s & Hx & Hy); [lia|].
      apply to_primitive_string_Ok in Hx as Hx'.
      apply to_primitive_string_Ok in Hy as Hy'.
      destruct (copies_head _ _ _ _ _ _ H) as [->|(lx & ly & -> & ->)];
        [|exists s; by split].
      destruct y; simpl; by eauto. }
    exists s. split; mrun; by simpl.
  - apply (fun H => prefix_lookup_Some _ h _ _ H Hp) in Hb.
    assert (assoc_get "toString" pa = None) as Hta.
    { destruct (assoc_get "toString" pa) eqn:E; [|done].
      destruct (proj1 (Hkeys "toString")) as [y Hy]; [by eexists|]. congruence. }
    exists "[object Object]". split; mrun; simpl; by rewrite ?Hta, ?Hts.
Qed.

(** ** [deepCompare] on a copy *)

Lemma all_keys_true (keys : list propname) (f : propname → M bool) (h : heap) :
  Forall (fun k => f k h = Ok true h) keys → all_keys keys f h = Ok true h.
Proof.
  induction 1 as [|k keys Hk _ IH]; [done|].
  simpl. by rewrite (bind_Ok _ _ _ _ _ Hk).
Qed.

Lemma present_from_dense i elems :
  Forall is_Some elems → present_from i elems = map PIdx (seq i (length elems)).
Proof.
  intros H. revert i. induction H as [|e elems [x ->] _ IH]; intros i; [done|].
  simpl. by rewrite IH.
Qed.

Lemma opt_to_string_same (str : value → M string) (h : heap) a b :
  (∃ s, str a h = Ok s h ∧ str b h = Ok s h) →
  a = b ∨ (∃ la lb, a = VRef la ∧ b = VRef lb) →
  ∃ o, opt_to_string str a h = Ok o h ∧ opt_to_string str b h = Ok o h.
Proof.
  intros (s & Ha & Hb) [->|(la & lb & -> & ->)].
  - destruct b; simpl; try (by exists None); exists (Some s); unfold opt_to_string;
      split; by mrun.
  - exists (Some s). unfold opt_to_string. split; by mrun.
Qed.

Lemma deepCompare_tail (self : value → value → M bool) (str : value → M string)
    (h : heap) a b t :
  getObjectType a h = Ok t h → getObjectType b h = Ok t h →
  (is_composite t = true →
   ∃ keys, Object_keys a h = Ok keys h ∧
     Forall (fun key => ∃ x y, get_prop a key h = Ok x h ∧ get_prop b key h = Ok y h ∧
                          self x y h = Ok true h) keys) →
  (∃ o, opt_to_string str a h = Ok o h ∧ opt_to_string str b h = Ok o h) →
  deepCompare_body str self a b h = Ok true h.
Proof.
  intros Ha Hb Hkeys (o & Hoa & Hob). unfold deepCompare_body.
  rewrite (bind_Ok _ _ _ _ _ Ha). rewrite (bind_Ok _ _ _ _ _ Hb).
  rewrite bool_decide_eq_false_2 by (by intros ?).
  erewrite bind_Ok; cycle 1.
  { destruct (is_composite t); [|done].
    destruct Hkeys as (keys & Hk & Hall); [done|].
    rewrite (bind_Ok _ _ _ _ _ Hk). apply all_keys_true.
    eapply Forall_impl; [exact Hall|]. intros key (x & y & Hx & Hy & Hs).
    cbv beta. rewrite (bind_Ok _ _ _ _ _ Hx). by rewrite (bind_Ok _ _ _ _ _ Hy). }
  simpl. rewrite (bind_Ok _ _ _ _ _ Hoa). rewrite (bind_Ok _ _ _ _ _ Hob).
  by rewrite bool_decide_eq_true_2.
Qed.

Lemma deepCompare_copies d : ∀ fuel h0 n h a b,
  h0 `prefix_of` h → copies d h0 n h a b → S d < fuel →
  deepCompare fuel a b h = Ok true h.
Proof.
  induction d as [|d IH]; intros fuel h0 n h a b Hp H Hf;
    (destruct fuel as [|fuel]; [lia|]); rewrite deepCompare_S;
    (destruct (to_string_copies _ fuel _ _ _ _ _ Hp H) as (s & Hsa & Hsb); [lia|]);
    pose proof (copies_head _ _ _ _ _ _ H) as Hhead;
    pose proof (opt_to_string_same _ h a b (ex_intro _ s (conj Hsa Hsb)) Hhead) as Hopt;
    simpl in H.
  - destruct H as [(-> & _ & t & Ht & Hc)|[]].
    apply (type_in_prefix _ h) in Ht; [|done]. apply getObjectType_type_in in Ht.
    apply deepCompare_tail with t; [done|done|by rewrite Hc|done].
  - destruct H as [(-> & _ & t & Ht & Hc)|(la & lb & -> & -> & Hn & H)].
    { apply (type_in_prefix _ h) in Ht; [|done]. apply getObjectType_type_in in Ht.
      apply deepCompare_tail with t; [done|done|by rewrite Hc|done]. }
    destruct H as [(ea & eb & Ha & Hb & Hall)|(pa & pb & Ha & Hb & Hts & Hkeys & Hall)];
      apply (fun H => prefix_lookup_Some _ h _ _ H Hp) in Hb.
    + apply deepCompare_tail with TArray; [by apply (getObjectType_ref h la _ Ha)|
        by apply (getObjectType_ref h lb _ Hb)| |done].
      intros _. eexists. split; [by apply (Object_keys_array h la _ _ Ha)|].
      rewrite app_nil_r, present_from_dense.
      2:{ eapply Forall2_Forall_l; [exact Hall|]. apply Forall_true.
          intros e f (x & y & -> & _). by eexists. }
      apply Forall_forall. intros key (i & -> & Hi)%list_elem_of_fmap.
      apply elem_of_seq in Hi. destruct (lookup_lt_is_Some_2 ea i) as [e He]; [lia|].
      destruct (Forall2_lookup_l _ _ _ _ _ Hall He) as (f & Hfl & x & y & -> & -> & Hxy).
      exists x, y. split_and!.
      * rewrite (get_prop_ref h la _ (PIdx i) Ha) by done.
        simpl. unfold elem_get. by rewrite He.
      * rewrite (get_prop_ref h lb _ (PIdx i) Hb) by done.
        simpl. unfold elem_get. by rewrite Hfl.
      * apply IH with h0 n; [done|done|lia].
    + apply deepCompare_tail with TObject; [by apply (getObjectType_ref h la _ Ha)|
        by apply (getObjectType_ref h lb _ Hb)| |done].
      intros _. eexists. split; [by apply (Object_keys_object h la _ Ha)|].
      apply Forall_forall. intros key (k & -> & Hk)%list_elem_of_fmap.
      apply elem_of_own_keys, assoc_get_is_Some in Hk. destruct Hk as [x Hx].
      destruct (Hall k x Hx) as (y & Hy & Hxy).
      exists x, y. split_and!.
      * rewrite (get_prop_ref h la _ (PStr k) Ha)
          by (eapply visible_has, cell_has_key, Hx).
        simpl. unfold named_get. simpl. by rewrite Hx.
      * rewrite (get_prop_ref h lb _ (PStr k) Hb)
          by (eapply visible_has, cell_has_key, Hy).
        simpl. unfold named_get. simpl. by rewrite Hy.
      * apply IH with h0 n; [done|done|lia].
Qed.

(** ** [deepCopy] builds a copy *)

Lemma prefix_write (h hi : heap) n c :
  h `prefix_of` hi → length h ≤ n → h `prefix_of` <[n := c]> hi.
Proof.
  intros [k ->] Hn. rewrite insert_app_r_alt by done. by apply prefix_app_r.
Qed.

Lemma elem_set_end elems x : elem_set elems (length elems) x = elems ++ [Some x].
Proof. unfold elem_set. by rewrite Nat.ltb_irrefl, Nat.sub_diag. Qed.

Section CopyLoop.
Variable ToNumber : heap → value → jsnum.
Variable self : value → M value.
Variable d : nat.
Variable h0 : heap.

(** What the recursive call is assumed to do. *)
Hypothesis self_copies : ∀ h v,
  nested d h0 v → h0 `prefix_of` h →
  ∃ v' h', self v h = Ok v' h' ∧ h `prefix_of` h' ∧ copies d h0 (length h) h' v' v.

(** The body of the [forEach] in [deepCopy]. *)
Definition copy_entry (obj newObj : value) (key : propname) : M unit :=
  let* v := get_prop obj key in
  let* tv := getObjectType v in
  if is_composite tv then
    let* v := get_prop obj key in
    let* c := self v in
    set_prop ToNumber newObj key c
  else
    let* v := get_prop obj key in
    set_prop ToNumber newObj key v.

Lemma copy_entry_ok obj key x n cell hi :
  h0 `prefix_of` hi → get_prop obj key hi = Ok x hi → nested d h0 x →
  hi !! n = Some cell → settable cell key → assignable cell key = true →
  ∃ c hi', copy_entry obj (VRef n) key hi = Ok tt (<[n := cell_set cell key c]> hi')
    ∧ hi `prefix_of` hi' ∧ copies d h0 (length hi) hi' c x.
Proof.
  intros Hp Hget Hx Hn Hs Hasg. unfold copy_entry. rewrite (bind_Ok _ _ _ _ _ Hget).
  assert (Hcomp : ∀ t, getObjectType x hi = Ok t hi → is_composite t = true →
    ∃ c hi', (let* tv := getObjectType x in
              if is_composite tv then
                let* v := get_prop obj key in
                let* c := self v in set_prop ToNumber (VRef n) key c
              else let* v := get_prop obj key in set_prop ToNumber (VRef n) key v) hi
             = Ok tt (<[n := cell_set cell key c]> hi')
      ∧ hi `prefix_of` hi' ∧ copies d h0 (length hi) hi' c x).
  { intros t Ht Hc. rewrite (bind_Ok _ _ _ _ _ Ht), Hc. rewrite (bind_Ok _ _ _ _ _ Hget).
    destruct (self_copies hi x Hx Hp) as (c & hi' & Hrun & Hp' & Hcopy).
    exists c, hi'. rewrite (bind_Ok _ _ _ _ _ Hrun). split_and!; [|done..].
    apply set_prop_cell; [|done..]. by apply (prefix_lookup_Some _ _ _ _ Hn Hp'). }
  destruct (nested_cases _ _ _ Hx) as [(Hpr & t & Ht & Hc)|(d' & l & -> & -> & H)].
  - exists x, hi. apply (type_in_prefix _ hi) in Ht as Ht'; [|done].
    apply getObjectType_type_in in Ht'. rewrite (bind_Ok _ _ _ _ _ Ht'), Hc.
    rewrite (bind_Ok _ _ _ _ _ Hget). split_and!; [by apply set_prop_cell|done|].
    by eapply copies_leaf.
  - destruct H as [(eb & Hb & _)|(pb & Hb & _)];
      apply (fun H => prefix_lookup_Some _ hi _ _ H Hp) in Hb;
      eapply Hcomp; [by apply (getObjectType_ref hi l _ Hb)|done|
                     by apply (getObjectType_ref hi l _ Hb)|done].
Qed.

(** Cells at [S n] or above survive a run that only adds cells followed by
    a write at [n]. *)
Lemma agree_after_write (hi hi' : heap) n (c : cell) :
  hi `prefix_of` hi' →
  ∀ l c', S n ≤ l → hi !! l = Some c' → <[n := c]> hi' !! l = Some c'.
Proof.
  intros Hp l c' Hl H. rewrite list_lookup_insert_ne by lia.
  by apply (prefix_lookup_Some _ _ _ _ H Hp).
Qed.

Lemma copy_array_loop lb eb n (h : heap) :
  h0 !! lb = Some (CArr eb []) →
  Forall (fun e => ∃ x, e = Some x ∧ nested d h0 x) eb →
  h0 `prefix_of` h → n = length h →
  ∀ rest done acc hi,
    eb = done ++ rest → h `prefix_of` hi → hi !! n = Some (CArr acc []) →
    Forall2 (fun e f => ∃ x y, e = Some x ∧ f = Some y ∧ copies d h0 (S n) hi x y)
      acc done →
    ∃ acc' hf,
      forEach_list (map PIdx (seq (length done) (length rest)))
        (copy_entry (VRef lb) (VRef n)) hi = Ok tt hf
      ∧ h `prefix_of` hf ∧ hf !! n = Some (CArr acc' [])
      ∧ Forall2 (fun e f => ∃ x y, e = Some x ∧ f = Some y ∧ copies d h0 (S n) hf x y)
          acc' eb.
Proof.
  intros Hb Heb Hp0 Hn. induction rest as [|e rest IH]; intros done acc hi -> Hp Hcell Hacc.
  { exists acc, hi. rewrite app_nil_r. by split_and!. }
  assert (He : ∃ x, e = Some x ∧ nested d h0 x).
  { rewrite Forall_app, Forall_cons in Heb. by destruct Heb as (_ & He & _). }
  destruct He as (x & -> & Hx).
  assert (Hp0i : h0 `prefix_of` hi) by by etrans.
  destruct (copy_entry_ok (VRef lb) (PIdx (length done)) x n (CArr acc []) hi)
    as (c & hi' & Hrun & Hp' & Hcopy); [done| |done|done|done|done|].
  { rewrite (get_prop_ref hi lb (CArr (done ++ Some x :: rest) []) _
               (prefix_lookup_Some _ _ _ _ Hb Hp0i)) by done.
    simpl. unfold elem_get. by rewrite list_lookup_middle. }
  assert (Hlen : S n ≤ length hi) by (by apply lookup_lt_Some in Hcell).
  apply Forall2_length in Hacc as Hl.
  assert (Hset : cell_set (CArr acc []) (PIdx (length done)) c = CArr (acc ++ [Some c]) []).
  { simpl. by rewrite <- Hl, elem_set_end. }
  rewrite Hset in Hrun.
  destruct (IH (done ++ [Some x]) (acc ++ [Some c])
              (<[n := CArr (acc ++ [Some c]) []]> hi')) as (acc' & hf & Hloop & Hpf & Hcf & Hf).
  - by rewrite <- app_assoc.
  - apply prefix_write; [by etrans|lia].
  - apply list_lookup_insert_eq. apply (prefix_length _ _) in Hp'. lia.
  - apply Forall2_app.
    + eapply Forall2_impl; [exact Hacc|]. intros e f (x' & y' & -> & -> & H).
      exists x', y'. split_and!; [done..|].
      eapply copies_agree; [|exact H]. by apply agree_after_write.
    + constructor; [|by constructor]. exists c, x. split_and!; [done..|].
      eapply copies_agree; [by apply (agree_after_write hi' hi')|].
      by apply copies_from with (length hi).
  - exists acc', hf. split_and!; [|done..].
    cbn [length seq map forEach_list]. rewrite (bind_Ok _ _ _ _ _ Hrun).
    rewrite length_app in Hloop. cbn [length] in Hloop.
    by rewrite Nat.add_1_r in Hloop.
Qed.

Lemma copy_object_loop lb pb n (h : heap) :
  h0 !! lb = Some (CObj pb) → assoc_get "__proto__" pb = None →
  Forall (fun kv => nested d h0 kv.2) pb →
  h0 `prefix_of` h → n = length h →
  ∀ ks acc hi,
    Forall (fun k => k ∈ map fst pb) ks →
    h `prefix_of` hi → hi !! n = Some (CObj acc) →
    (∀ k x, assoc_get k acc = Some x →
            ∃ y, assoc_get k pb = Some y ∧ copies d h0 (S n) hi x y) →
    ∃ acc' hf,
      forEach_list (map PStr ks) (copy_entry (VRef lb) (VRef n)) hi = Ok tt hf
      ∧ h `prefix_of` hf ∧ hf !! n = Some (CObj acc')
      ∧ (∀ k, k ∈ ks ∨ is_Some (assoc_get k acc) → is_Some (assoc_get k acc'))
      ∧ ∀ k x, assoc_get k acc' = Some x →
               ∃ y, assoc_get k pb = Some y ∧ copies d h0 (S n) hf x y.
Proof.
  intros Hb Hproto Hpb Hp0 Hn.
  induction ks as [|k ks IH]; intros acc hi Hks Hp Hcell Hacc.
  { exists acc, hi. split_and!; try done. by intros k [?%elem_of_nil|?]. }
  apply Forall_cons in Hks as [Hk Hks].
  apply assoc_get_is_Some in Hk as [y Hy].
  assert (k ≠ "__proto__") as Hkp by (intros ->; congruence).
  assert (Hyn : nested d h0 y).
  { apply assoc_get_elem_of in Hy. rewrite Forall_forall in Hpb. by apply (Hpb _ Hy). }
  assert (Hp0i : h0 `prefix_of` hi) by by etrans.
  destruct (copy_entry_ok (VRef lb) (PStr k) y n (CObj acc) hi)
    as (c & hi' & Hrun & Hp' & Hcopy);
    [done| |done|done|done|by apply assignable_mapping|].
  { rewrite (get_prop_ref hi lb (CObj pb) _ (prefix_lookup_Some _ _ _ _ Hb Hp0i))
      by (eapply visible_has, cell_has_key, Hy).
    simpl. unfold named_get. simpl. by rewrite Hy. }
  assert (Hlen : S n ≤ length hi) by (by apply lookup_lt_Some in Hcell).
  simpl in Hrun.
  destruct (IH (assoc_set k c acc) (<[n := CObj (assoc_set k c acc)]> hi'))
    as (acc' & hf & Hloop & Hpf & Hcf & Hhas & Hf).
  - done.
  - apply prefix_write; [by etrans|lia].
  - apply list_lookup_insert_eq. apply (prefix_length _ _) in Hp'. lia.
  - intros k' x'. destruct (decide (k' = k)) as [->|Hne].
    + rewrite assoc_get_set_eq. intros [= <-]. exists y. split; [done|].
      eapply copies_agree; [by apply (agree_after_write hi' hi')|].
      by apply copies_from with (length hi).
    + rewrite assoc_get_set_ne by done. intros Hx'.
      destruct (Hacc k' x' Hx') as (y' & Hy' & H). exists y'. split; [done|].
      eapply copies_agree; [|exact H]. by apply agree_after_write.
  - exists acc', hf. split_and!; [|done|done| |done].
    + cbn [map forEach_list]. by rewrite (bind_Ok _ _ _ _ _ Hrun).
    + intros k' Hk'. apply Hhas.
      destruct (decide (k' = k)) as [->|Hne];
        [right; rewrite assoc_get_set_eq; by eexists|].
      destruct Hk' as [[?|?]%elem_of_cons|?]; [done|by left|].
      right. by rewrite assoc_get_set_ne.
Qed.

End CopyLoop.

Section DeepCopy.
Variable ToNumber : heap → value → jsnum.

(** [deepCopy] of a finite nesting returns, and what it returns is a copy
    built from new cells, every cell of the store being as it was. *)
Lemma deepCopy_copies d : ∀ fuel h0 h v,
  nested d h0 v → h0 `prefix_of` h → d < fuel →
  ∃ v' h', deepCopy ToNumber fuel v h = Ok v' h' ∧ h `prefix_of` h'
    ∧ copies d h0 (length h) h' v' v.
Proof.
  induction d as [d IH] using lt_wf_ind. intros fuel h0 h v Hv Hp Hf.
  destruct fuel as [|fuel]; [lia|]. rewrite deepCopy_S. unfold deepCopy_body.
  destruct (nested_cases _ _ _ Hv) as [(Hpr & t & Ht & Hc)|(d' & l & -> & -> & H)].
  { exists v, h. apply (type_in_prefix _ h) in Ht as Ht'; [|done].
    apply getObjectType_type_in in Ht'. rewrite (bind_Ok _ _ _ _ _ Ht'), Hc.
    split_and!; [done..|]. by eapply copies_leaf. }
  assert (Hself : ∀ h v, nested d' h0 v → h0 `prefix_of` h →
    ∃ v' h', deepCopy ToNumber fuel v h = Ok v' h' ∧ h `prefix_of` h'
      ∧ copies d' h0 (length h) h' v' v).
  { intros h1 v1 Hv1 Hp1. apply IH; [lia|done|done|lia]. }
  assert (Hp1 : h0 `prefix_of` h ++ [CArr [] []]) by (etrans; [exact Hp|apply prefix_alloc]).
  assert (Hp2 : h0 `prefix_of` h ++ [CObj []]) by (etrans; [exact Hp|apply prefix_alloc]).
  destruct H as [(eb & Hb & Hall)|(pb & Hb & Hts & Hproto & Hall)].
  - rewrite (bind_Ok _ _ _ _ _
               (getObjectType_ref h l _ (prefix_lookup_Some _ _ _ _ Hb Hp))).
    simpl. rewrite (bind_Ok _ _ _ _ _ (alloc_Ok _ h)).
    rewrite (bind_Ok _ _ _ _ _
               (Object_keys_array _ l _ _ (prefix_lookup_Some _ _ _ _ Hb Hp1))).
    rewrite app_nil_r, present_from_dense.
    2:{ eapply Forall_impl; [exact Hall|]. intros e (x & -> & _). by eexists. }
    destruct (copy_array_loop ToNumber (deepCopy ToNumber fuel) d' h0 Hself
                l eb (length h) h Hb Hall Hp eq_refl eb [] [] (h ++ [CArr [] []]))
      as (acc & hf & Hloop & Hpf & Hcf & Hacc);
      [done|apply prefix_alloc|apply lookup_alloc_new|constructor|].
    exists (VRef (length h)), hf. split_and!; [|done|].
    + erewrite bind_Ok; [|exact Hloop]. done.
    + simpl. right. exists (length h), l. split_and!; [done..|]. left.
      exists acc, eb. split_and!; [done..|].
      eapply Forall2_impl; [exact Hacc|]. intros e f (x & y & -> & -> & H).
      exists x, y. split_and!; [done..|]. apply copies_from with (S (length h)); [lia|done].
  - rewrite (bind_Ok _ _ _ _ _
               (getObjectType_ref h l _ (prefix_lookup_Some _ _ _ _ Hb Hp))).
    simpl. rewrite (bind_Ok _ _ _ _ _ (alloc_Ok _ h)).
    rewrite (bind_Ok _ _ _ _ _
               (Object_keys_object _ l _ (prefix_lookup_Some _ _ _ _ Hb Hp2))).
    destruct (copy_object_loop ToNumber (deepCopy ToNumber fuel) d' h0 Hself
                l pb (length h) h Hb Hproto Hall Hp eq_refl (own_keys pb) []
                (h ++ [CObj []]))
      as (acc & hf & Hloop & Hpf & Hcf & Hhas & Hacc);
      [|apply prefix_alloc|apply lookup_alloc_new|done|].
    { apply Forall_forall. intros k Hk. by apply elem_of_own_keys. }
    exists (VRef (length h)), hf. split_and!; [|done|].
    + erewrite bind_Ok; [|exact Hloop]. done.
    + simpl. right. exists (length h), l. split_and!; [done..|]. right.
      exists acc, pb. split_and!; [done..| |].
      * intros k. split.
        -- intros [x Hx]. destruct (Hacc k x Hx) as (y & Hy & _). by eexists.
        -- intros Hk. apply Hhas. left.
           by apply elem_of_own_keys, assoc_get_is_Some.
      * intros k x Hk. destruct (Hacc k x Hk) as (y & Hy & H). exists y.
        split; [done|]. apply copies_from with (S (length h)); [lia|done].
Qed.


End DeepCopy.

(** A mapping holding a string and a sequence that holds a number and an
    empty mapping: [{a: [1, {}], b: "x"}]. *)
Definition copy_heap : heap :=
  [CObj [("a", VRef 1); ("b", VStr "x")]; CArr [Some (VNum 1); Some (VRef 2)] []; CObj []].


(** The copy of that value: new cells for the mapping, the sequence and
    the empty mapping, the store before them as it was. *)
Lemma deepCopy_example :
  deepCopy ToNumber_decimal 4 (VRef 0) copy_heap
  = Ok (VRef 3)
      (copy_heap ++ [CObj [("a", VRef 4); ("b", VStr "x")];
                     CArr [Some (VNum 1); Some (VRef 5)] []; CObj []]).
Proof. by vm_compute. Qed.


(** Where density matters: [Object.keys] skips a hole, so the copy of
    [[1, <hole>]] is [[1]], which is of another length and prints
    differently. *)
Lemma deepCopy_drops_trailing_hole :
  ∃ h', deepCopy ToNumber_decimal 2 (VRef 0) [CArr [Some (VNum 1); None] []]
        = Ok (VRef 1) h'
    ∧ h' !! 1 = Some (CArr [Some (VNum 1)] [])
    ∧ deepCompare 3 (VRef 1) (VRef 0) h' = Ok false h'.
Proof. eexists. split; [by vm_compute|]. by split. Qed.

(** * The rest of the module: [queryObject] and [applyDefaults] *)

(** ** The two functions *)

(** The own enumerable entries of a value, in the order a spread
    [...o] copies them. *)
Definition own_entries (o : value) : M (list (string * value)) :=
  match o with
  | VUndef | VNull | VBool _ | VNum _ => ret []
  | VStr s => ret (string_entries s)
  | VRef l =>
      let* c := read_cell l in
      ret (match c with
           | CArr elems named => elem_entries 0 elems ++ spread_props named
           | CObj props => spread_props props
           | CFun _ _ props => spread_props props
           end)
  end.

Section Rest.
Variable call : fid → value → M value.
Variable ToNumber : heap → value → jsnum.

(** [pathStr.toString()], the first thing [findPropInObject] does with its
    path: a [TypeError] on [undefined] and [null].  A number from [1e21]
    on prints with an exponent on the platform, which is not modelled:
    the segments of the path are what is printed. *)
Definition path_string (fuel : nat) (pathStr : value) : M string :=
  match pathStr with
  | VUndef | VNull => throw TypeError
  | VNum n =>
      if (Z.abs n <? 10 ^ 21)%Z then to_string fuel pathStr else stuck
  | _ => to_string fuel pathStr
  end.

(** [findPropInObject(obj, pathStr)] as a caller writes it, with a path
    that is any value. *)
Definition read_path (fuel : nat) (obj pathStr : value) : M value :=
  let* p := path_string fuel pathStr in
  findPropInObject call ToNumber fuel obj p false None.

Definition queryObject (fuel : nat) (query obj : value) : M value :=
  (* handle query strings *)
  let* tq := getObjectType query in
  if bool_decide (tq = TString) then read_path fuel obj query else
  (* handle query objects *)
  let* tq := getObjectType query in
  if bool_decide (tq = TObject) then
    let* keys := Object_keys query in
    let* init := alloc (CObj []) in
    reduce keys init (fun prev next =>
      let* acc := spread_object prev in
      let* q := get_prop query next in
      let* v := read_path fuel obj q in
      define_prop acc next v ;;;
      ret acc)
  else ret obj.

(** A parameter with the default [{}]. *)
Definition or_empty (v : value) : M value :=
  if is_undef v then alloc (CObj []) else ret v.

(** [{...a, ...b}] *)
Definition spread_two (a b : value) : M value :=
  let* o := spread_object a in
  let* entries := own_entries b in
  forEach_list entries (fun kv => define_prop o (PStr kv.1) kv.2) ;;;
  ret o.

Definition applyDefaults_body (self : value → value → M value)
    (settings defaults : value) : M value :=
  let* settings := or_empty settings in
  let* defaults := or_empty defaults in
  let* both := spread_two settings defaults in
  let* keys := Object_keys both in
  let* init := alloc (CObj []) in
  reduce keys init (fun p n =>
    let* s := get_prop settings n in
    let* ts := getObjectType s in
    let value := negb (bool_decide (ts = TUndefined)) in
    let* d := get_prop defaults n in
    let* td := getObjectType d in
    let* defaultValue :=
      (if bool_decide (td = TObject)
       then let* s := get_prop settings n in
            let* d := get_prop defaults n in
            self s d
       else get_prop defaults n) in
    let* acc := spread_object p in
    let* v := (if value then get_prop settings n else ret defaultValue) in
    define_prop acc n v ;;;
    ret acc).

Fixpoint applyDefaults (fuel : nat) {struct fuel} : value → value → M value :=
  match fuel with
  | O => fun _ _ => stuck
  | S fuel' => applyDefaults_body (applyDefaults fuel')
  end.

Lemma applyDefaults_S (fuel : nat) :
  applyDefaults (S fuel) = applyDefaults_body (applyDefaults fuel).
Proof. reflexivity. Qed.

End Rest.

Arguments own_entries : simpl never.
Arguments path_string : simpl never.
Arguments read_path : simpl never.
Arguments queryObject : simpl never.
Arguments or_empty : simpl never.
Arguments spread_two : simpl never.
Arguments applyDefaults : simpl never.
Arguments applyDefaults_body : simpl never.
Arguments reduce : simpl never.

(** ** Operations that only write to the objects they create *)

(** Every object below [n] is in [h'] as it is in [h]. *)
Definition same_below (n : nat) (h h' : heap) : Prop :=
  ∀ l c, l < n → h !! l = Some c → h' !! l = Some c.

#[global] Instance same_below_frame (n : nat) : Frame (same_below n).
Proof.
  split.
  - by intros h l c _ H.
  - intros h1 h2 h3 H12 H23 l c Hl H. by apply H23, H12.
  - intros h c l c' _ H. by apply lookup_app_l_Some.
Qed.

Lemma same_below_prefix (n : nat) (h h' : heap) : h `prefix_of` h' → same_below n h h'.
Proof. intros Hp l c _ H. by eapply prefix_lookup_Some. Qed.

Lemma same_below_length (n : nat) (h h' : heap) :
  n ≤ length h → same_below n h h' → n ≤ length h'.
Proof.
  intros Hn Hs. destruct n as [|n]; [lia|].
  destruct (lookup_lt_is_Some_2 h n) as [c Hc]; [lia|].
  apply (Hs n c) in Hc; [|lia]. apply lookup_lt_Some in Hc. lia.
Qed.

(** Nothing below the length of [h] has changed: [h] is still there. *)
Lemma same_below_all (h h' : heap) : same_below (length h) h h' → h `prefix_of` h'.
Proof.
  intros Hs. exists (drop (length h) h'). rewrite <- (take_drop (length h) h') at 1.
  f_equal. apply list_eq. intros i. destruct (decide (i < length h)) as [Hi|Hi].
  - destruct (lookup_lt_is_Some_2 h i Hi) as [c Hc].
    rewrite lookup_take_lt by done. by rewrite Hc, (Hs i c Hi Hc).
  - rewrite lookup_take_ge by lia. rewrite lookup_ge_None_2; [done|lia].
Qed.

(** An object created since the store had [n] objects. *)
Definition fresh (n : nat) (v : value) : Prop := ∃ l, v = VRef l ∧ n ≤ l.

Lemma outcome_write_fresh (n l : nat) (c : cell) (h : heap) :
  n ≤ l → outcome (same_below n) (write_cell l c) h (fun _ _ => True).
Proof.
  intros Hl. unfold outcome, write_cell. destruct (h !! l); [|done].
  split; [|done]. intros l' c' Hl' H. rewrite list_lookup_insert_ne by lia. done.
Qed.

Section Fresh.
Variable ToNumber : heap → value → jsnum.
Variable n : nat.

Lemma outcome_set_prop_fresh (o : value) (p : propname) (x : value) (h : heap) :
  fresh n o → outcome (same_below n) (set_prop ToNumber o p x) h (fun _ _ => True).
Proof.
  intros (l & -> & Hl). unfold set_prop.
  eapply outcome_bind_top; [apply outcome_read_cell|].
  intros c h1 _ [-> Hc].
  destruct (negb (cell_has c p) && prop_is p "__proto__").
  { destruct x; first [by apply outcome_ret|apply outcome_stuck]. }
  destruct c as [elems named|props|f s props]; try by apply outcome_write_fresh.
  - destruct (array_index p); [by apply outcome_write_fresh|].
    destruct (String.eqb (key_string p) "length"); [|by apply outcome_write_fresh].
    eapply outcome_bind_top; [apply outcome_pure, pure_to_number|].
    intros num h1 _ ->.
    destruct (length_of_num num); [by apply outcome_write_fresh|apply outcome_throw].
  - destruct (_ && _); [apply outcome_throw|by apply outcome_write_fresh].
Qed.

Lemma outcome_define_prop_fresh (o : value) (p : propname) (x : value) (h : heap) :
  fresh n o → outcome (same_below n) (define_prop o p x) h (fun _ _ => True).
Proof.
  intros (l & -> & Hl). unfold define_prop.
  eapply outcome_bind_top; [apply outcome_read_cell|].
  intros c h1 _ [-> Hc].
  destruct c as [elems named|props|f s props];
    first [by apply outcome_write_fresh|apply outcome_stuck].
Qed.

End Fresh.

Section Generic.
Context {R : heap → heap → Prop} `{!Frame R}.

Lemma outcome_spread_object (o : value) (h : heap) :
  outcome R (spread_object o) h (fun r _ => r = VRef (length h)).
Proof.
  unfold spread_object.
  destruct o; try (eapply outcome_weaken; [apply outcome_alloc|by intros ? ? _ [-> _]]).
  eapply outcome_bind; [apply outcome_read_cell|].
  intros c h1 _ [-> Hc].
  destruct c; (eapply outcome_weaken; [apply outcome_alloc|by intros ? ? _ [-> _]]).
Qed.

Lemma pure_own_entries (o : value) : pure (own_entries o).
Proof.
  destruct o; try apply pure_ret. unfold own_entries.
  apply pure_bind; [apply pure_read_cell|]. intros c. apply pure_ret.
Qed.

(** A fold keeps what every turn keeps. *)
Lemma outcome_reduce {A B} (I : B → heap → Prop) (f : B → A → M B) (l : list A) :
  ∀ (acc : B) (h : heap),
    I acc h →
    (∀ b a h', R h h' → I b h' → outcome R (f b a) h' I) →
    outcome R (reduce l acc f) h I.
Proof.
  induction l as [|a l IH]; intros acc h Hacc Hf; [by apply outcome_ret|].
  change (reduce (a :: l) acc f) with (let* acc' := f acc a in reduce l acc' f).
  eapply outcome_bind; [apply Hf; [apply frame_refl|done]|].
  intros b h1 HR Hb. eapply outcome_weaken; [|done].
  apply IH; [done|]. intros b' a' h2 HR' Hb'. apply Hf; [|done]. by eapply frame_trans.
Qed.

End Generic.

Lemma pure_join_with (str : value → M string) (elems : list (option value)) :
  (∀ v, pure (str v)) → pure (join_with str elems).
Proof.
  intros Hstr.
  assert (Hprim : ∀ v, pure (to_primitive_string str v)).
  { intros []; try apply Hstr. unfold to_primitive_string.
    apply pure_bind; [apply pure_read_cell|]. intros c.
    destruct (own_method c "toString"); [|apply Hstr].
    destruct (own_method c "valueOf"); [|apply Hstr].
    apply pure_bind; [apply pure_getObjectType|]. intros tm.
    apply pure_bind; [apply pure_getObjectType|]. intros tw.
    destruct (_ && _); [apply pure_stuck|apply Hstr]. }
  assert (Hpiece : ∀ e, pure (join_piece str e)).
  { intros [v|]; [|apply pure_ret]. unfold join_piece.
    destruct v; first [apply pure_ret|apply Hprim]. }
  induction elems as [|e [|e' r] IH]; [apply pure_ret|apply Hpiece|].
  change (join_with str (e :: e' :: r))
    with (let* s := join_piece str e in
          let* t := join_with str (e' :: r) in ret (s ++ "," ++ t)%string).
  apply pure_bind; [apply Hpiece|]. intros s.
  apply pure_bind; [apply IH|]. intros t. apply pure_ret.
Qed.

Lemma pure_to_string (fuel : nat) : ∀ v, pure (to_string fuel v).
Proof.
  induction fuel as [|fuel IH]; intros v; [apply pure_stuck|].
  rewrite to_string_S. unfold to_string_body.
  destruct v; try apply pure_ret.
  apply pure_bind; [apply pure_read_cell|]. intros c.
  destruct (own_method c "toString").
  { apply pure_bind; [apply pure_getObjectType|]. intros t.
    destruct (bool_decide _); [apply pure_stuck|apply pure_throw]. }
  destruct c as [elems named| |]; [|apply pure_ret..].
  destruct (assoc_get "join" named); [|by apply pure_join_with].
  apply pure_bind; [apply pure_getObjectType|]. intros t.
  destruct (bool_decide _); [apply pure_stuck|apply pure_ret].
Qed.

Lemma pure_path_string (fuel : nat) (v : value) : pure (path_string fuel v).
Proof.
  unfold path_string. destruct v; try apply pure_throw; try apply pure_to_string.
  destruct (_ <? _)%Z; [apply pure_to_string|apply pure_stuck].
Qed.

(** ** What [queryObject], [applyDefaults] and [deepCopy] leave alone *)

Section RestFrames.
Variable call : fid → value → M value.
Variable ToNumber : heap → value → jsnum.

Lemma outcome_read_path (n fuel : nat) (obj pathStr : value) (h : heap) :
  outcome (same_below n) (read_path call ToNumber fuel obj pathStr) h (fun _ _ => True).
Proof.
  unfold read_path.
  eapply outcome_bind_top; [apply outcome_pure, pure_path_string|].
  intros p h1 _ ->.
  eapply outcome_relax; [apply same_below_prefix|]. apply findPropInObject_read.
Qed.

Lemma queryObject_below (n fuel : nat) (query obj : value) (h : heap) :
  n ≤ length h →
  outcome (same_below n) (queryObject call ToNumber fuel query obj) h (fun _ _ => True).
Proof.
  intros Hn. unfold queryObject.
  eapply outcome_bind_top; [apply outcome_pure, pure_getObjectType|].
  intros tq h1 _ ->. destruct (bool_decide (tq = TString)); [apply outcome_read_path|].
  eapply outcome_bind_top; [apply outcome_pure, pure_getObjectType|].
  intros tq' h1 _ ->. destruct (bool_decide (tq' = TObject)); [|by apply outcome_ret].
  eapply outcome_bind_top; [apply outcome_pure, pure_Object_keys|].
  intros keys h1 _ ->.
  eapply outcome_bind_top; [apply outcome_alloc|].
  intros init h1 Hk1 [-> ->].
  eapply outcome_top, (outcome_reduce (fun _ _ => True)); [done|].
  intros prev next h2 Hk2 _.
  assert (n ≤ length h2) as Hn2.
  { eapply same_below_length; [|exact Hk2]. rewrite length_app. lia. }
  eapply outcome_bind; [apply outcome_spread_object|].
  intros acc h3 Hk3 ->. eapply outcome_weaken; [|done].
  eapply outcome_bind_top; [apply outcome_top_pure, pure_get_prop|].
  intros q h4 Hk4 _.
  eapply outcome_bind_top; [apply outcome_read_path|].
  intros v h5 Hk5 _.
  eapply outcome_bind_top; [apply outcome_define_prop_fresh; by eexists|].
  intros _ h6 _ _. by apply outcome_ret.
Qed.

Lemma outcome_or_empty {R : heap → heap → Prop} `{!Frame R} (v : value) (h : heap) :
  outcome R (or_empty v) h (fun _ _ => True).
Proof.
  unfold or_empty. destruct (is_undef v); [eapply outcome_top, outcome_alloc|].
  by apply outcome_ret.
Qed.

Lemma outcome_spread_two (n : nat) (a b : value) (h : heap) :
  n ≤ length h →
  outcome (same_below n) (spread_two a b) h (fun _ _ => True).
Proof.
  intros Hn. unfold spread_two.
  eapply outcome_bind_top; [apply outcome_spread_object|].
  intros o h1 Hk1 ->.
  eapply outcome_bind_top; [apply outcome_pure, pure_own_entries|].
  intros entries h2 _ ->.
  eapply outcome_bind_top; [|intros; by apply outcome_ret].
  apply outcome_forEach_list. intros kv h3 Hk3.
  apply outcome_define_prop_fresh. by eexists.
Qed.

Definition defaults_below (n : nat) (self : value → value → M value) : Prop :=
  ∀ s d h, n ≤ length h → outcome (same_below n) (self s d) h (fun _ _ => True).

Lemma applyDefaults_body_below (n : nat) self :
  defaults_below n self → defaults_below n (applyDefaults_body self).
Proof.
  intros Hself s d h Hn. unfold applyDefaults_body.
  eapply outcome_bind_top; [apply outcome_or_empty|]. intros settings h1 Hk1 _.
  eapply outcome_bind_top; [apply outcome_or_empty|]. intros defaults h2 Hk2 _.
  assert (same_below n h h2) as Hk02 by by eapply frame_trans.
  eapply outcome_bind_top;
    [apply outcome_spread_two; by eapply same_below_length|].
  intros both h3 Hk3 _.
  eapply outcome_bind_top; [apply outcome_top_pure, pure_Object_keys|].
  intros keys h4 Hk4 _.
  eapply outcome_bind_top; [eapply outcome_top, outcome_alloc|].
  intros init h5 Hk5 _.
  assert (same_below n h h5) as Hk05.
  { eapply frame_trans; [exact Hk02|]. eapply frame_trans; [exact Hk3|].
    by eapply frame_trans. }
  eapply outcome_top, (outcome_reduce (fun _ _ => True)); [done|].
  intros p key h6 Hk6 _.
  assert (n ≤ length h6) as Hn6.
  { eapply same_below_length; [|exact Hk6]. by eapply same_below_length. }
  eapply outcome_bind_top; [apply outcome_pure, pure_get_prop|]. intros sv h7 _ ->.
  eapply outcome_bind_top; [apply outcome_pure, pure_getObjectType|]. intros ts h7 _ ->.
  eapply outcome_bind_top; [apply outcome_pure, pure_get_prop|]. intros dv h7 _ ->.
  eapply outcome_bind_top; [apply outcome_pure, pure_getObjectType|]. intros td h7 _ ->.
  eapply outcome_bind_top.
  { instantiate (1 := fun _ _ => True).
    destruct (bool_decide (td = TObject)); [|apply outcome_top_pure, pure_get_prop].
    eapply outcome_bind_top; [apply outcome_pure, pure_get_prop|]. intros s' h7 _ ->.
    eapply outcome_bind_top; [apply outcome_pure, pure_get_prop|]. intros d' h7 _ ->.
    by apply Hself. }
  intros defaultValue h7 Hk7 _.
  eapply outcome_bind; [apply outcome_spread_object|].
  intros acc h8 Hk8 ->. eapply outcome_weaken; [|done].
  eapply outcome_bind_top.
  { instantiate (1 := fun _ _ => True).
    destruct (negb _); [apply outcome_top_pure, pure_get_prop|by apply outcome_ret]. }
  intros v h9 Hk9 _.
  eapply outcome_bind_top; [apply outcome_define_prop_fresh|intros; by apply outcome_ret].
  eexists. split; [done|]. eapply same_below_length; [exact Hn6|exact Hk7].
Qed.

Lemma applyDefaults_below (n fuel : nat) : defaults_below n (applyDefaults fuel).
Proof.
  induction fuel as [|fuel IH]; [intros s d h _; apply outcome_stuck|].
  rewrite applyDefaults_S. by apply applyDefaults_body_below.
Qed.

Lemma deepCopy_below (n fuel : nat) : ∀ (v : value) (h : heap),
  n ≤ length h → outcome (same_below n) (deepCopy ToNumber fuel v) h (fun _ _ => True).
Proof.
  induction fuel as [|fuel IH]; intros v h Hn; [apply outcome_stuck|].
  rewrite deepCopy_S. unfold deepCopy_body.
  eapply outcome_bind_top; [apply outcome_pure, pure_getObjectType|].
  intros type h1 _ ->. destruct (is_composite type); [|by apply outcome_ret].
  eapply outcome_bind_top; [apply outcome_alloc|].
  intros newObj h1 Hk1 [-> ->].
  eapply outcome_bind_top; [apply outcome_top_pure, pure_Object_keys|].
  intros keys h2 Hk2 _.
  eapply outcome_bind_top; [|intros; by apply outcome_ret].
  apply outcome_forEach_list. intros key h3 Hk3.
  assert (same_below n (h ++ [if bool_decide (type = TArray) then CArr [] [] else CObj []]) h3)
    as Hk13 by by eapply frame_trans.
  assert (n ≤ length h3) as Hn3.
  { eapply same_below_length; [|exact Hk13]. rewrite length_app. lia. }
  eapply outcome_bind_top; [apply outcome_pure, pure_get_prop|]. intros x h4 _ ->.
  eapply outcome_bind_top; [apply outcome_pure, pure_getObjectType|]. intros tv h4 _ ->.
  destruct (is_composite tv).
  - eapply outcome_bind_top; [apply outcome_pure, pure_get_prop|]. intros x' h4 _ ->.
    eapply outcome_bind_top; [by apply IH|]. intros c h5 Hk5 _.
    apply outcome_set_prop_fresh. by eexists.
  - eapply outcome_bind_top; [apply outcome_pure, pure_get_prop|]. intros x' h4 _ ->.
    apply outcome_set_prop_fresh. by eexists.
Qed.

End RestFrames.

(** ** [deepCompare] only reads *)

Lemma pure_all_keys (keys : list propname) (f : propname → M bool) :
  (∀ k, pure (f k)) → pure (all_keys keys f).
Proof.
  intros Hf. induction keys as [|k keys IH]; [apply pure_ret|].
  simpl. apply pure_bind; [apply Hf|]. intros [|]; [apply IH|apply pure_ret].
Qed.

Lemma pure_opt_to_string (str : value → M string) (v : value) :
  (∀ v, pure (str v)) → pure (opt_to_string str v).
Proof.
  intros Hstr. unfold opt_to_string.
  destruct v; try apply pure_ret;
    (apply pure_bind; [apply Hstr|intros ?; apply pure_ret]).
Qed.

(** [deepCompare] only reads, as long as it runs no [toString] other
    than the built-in ones. *)
Lemma pure_deepCompare (fuel : nat) : ∀ a b, pure (deepCompare fuel a b).
Proof.
  induction fuel as [|fuel IH]; intros a b; [apply pure_stuck|].
  rewrite deepCompare_S. unfold deepCompare_body.
  apply pure_bind; [apply pure_getObjectType|]. intros typeA.
  apply pure_bind; [apply pure_getObjectType|]. intros typeB.
  destruct (bool_decide (typeA ≠ typeB)); [apply pure_ret|].
  apply pure_bind.
  { destruct (is_composite typeA); [|apply pure_ret].
    apply pure_bind; [apply pure_Object_keys|]. intros keys.
    apply pure_all_keys. intros k.
    apply pure_bind; [apply pure_get_prop|]. intros x.
    apply pure_bind; [apply pure_get_prop|]. intros y. apply IH. }
  intros same. destruct (negb same); [apply pure_ret|].
  apply pure_bind; [apply pure_opt_to_string, pure_to_string|]. intros sa.
  apply pure_bind; [apply pure_opt_to_string, pure_to_string|]. intros sb.
  apply pure_ret.
Qed.

(** ** What [mergeObjects] leaves alone *)

Lemma outcome_below_prefix {A} (m : M A) (h : heap) (Q : A → heap → Prop) :
  outcome (same_below (length h)) m h Q → outcome prefix m h Q.
Proof.
  unfold outcome. destruct (m h) as [a h'|e h'|]; [|apply same_below_all|done].
  intros [Hs HQ]. split; [by apply same_below_all|done].
Qed.

(** The values of a fragment are all literals: none is a function. *)
Definition literal_fragment (h : heap) (objB : value) : Prop :=
  ∃ l c, objB = VRef l ∧ h !! l = Some c ∧ composite c ∧ ∀ p, literal h (cell_get c p).

Section MergeFrame.
Variable call : fid → value → M value.
Variable ToNumber : heap → value → jsnum.


End MergeFrame.

(** ** [queryObject] with a query object *)

Lemma reduce_nil {A B} (acc : B) (f : B → A → M B) : reduce [] acc f = ret acc.
Proof. reflexivity. Qed.

Lemma reduce_cons {A B} (a : A) (l : list A) (acc : B) (f : B → A → M B) :
  reduce (a :: l) acc f = (let* acc' := f acc a in reduce l acc' f).
Proof. reflexivity. Qed.

Lemma spread_object_object (h : heap) (l : nat) ps :
  h !! l = Some (CObj ps) →
  spread_object (VRef l) h = Ok (VRef (length h)) (h ++ [CObj (spread_props ps)]).
Proof. intros H. unfold spread_object, bind, read_cell. by rewrite H. Qed.

Lemma define_prop_object (h : heap) (l : nat) props p x :
  h !! l = Some (CObj props) →
  define_prop (VRef l) p x h
  = Ok tt (<[l := CObj (assoc_set (key_string p) x props)]> h).
Proof.
  intros H. unfold define_prop, bind, read_cell. rewrite H.
  unfold write_cell. by rewrite H.
Qed.

Section Query.
Variable call : fid → value → M value.
Variable ToNumber : heap → value → jsnum.

(** The read of [p] on [obj] gives [v] from [h] and from every store that
    [h] grows into, and only adds objects. *)
Definition reads_as (fuel : nat) (obj : value) (p : string) (v : value) (h : heap) : Prop :=
  ∀ h', h `prefix_of` h' →
    ∃ h'', findPropInObject call ToNumber fuel obj p false None h' = Ok v h''
           ∧ h' `prefix_of` h''.

(** What the result of a query holds at [k]. *)
Definition answers (answer : string → value) (pq : list (string * value)) (k : string)
  : option value :=
  match assoc_get k pq with
  | Some (VStr p) => Some (answer p)
  | _ => None
  end.

Lemma read_path_string (fuel : nat) (obj : value) (p : string) :
  read_path call ToNumber (S fuel) obj (VStr p)
  = findPropInObject call ToNumber (S fuel) obj p false None.
Proof. reflexivity. Qed.

Lemma query_fold (fuel : nat) (obj : value) (answer : string → value)
    (h : heap) (q : nat) pq :
  h !! q = Some (CObj pq) →
  Forall (fun kv => ∃ p, kv.2 = VStr p ∧ reads_as (S fuel) obj p (answer p) h) pq →
  ∀ ks done (hi : heap) (r : nat) pr,
    Forall (fun k => k ∈ map fst pq) ks →
    h `prefix_of` hi → length h ≤ r → hi !! r = Some (CObj pr) →
    (∀ k, assoc_get k pr = if decide (k ∈ done) then answers answer pq k else None) →
    ∃ r' pr' h',
      reduce (map PStr ks) (VRef r) (fun prev next =>
        let* acc := spread_object prev in
        let* qv := get_prop (VRef q) next in
        let* v := read_path call ToNumber (S fuel) obj qv in
        define_prop acc next v ;;; ret acc) hi = Ok (VRef r') h'
      ∧ h `prefix_of` h' ∧ length h ≤ r' ∧ h' !! r' = Some (CObj pr')
      ∧ ∀ k, assoc_get k pr'
             = if decide (k ∈ done ++ ks) then answers answer pq k else None.
Proof.
  intros Hq Hall. induction ks as [|k ks IH]; intros done hi r pr Hks Hp Hr Hcell Hpr.
  { exists r, pr, hi. rewrite app_nil_r. by split_and!. }
  apply Forall_cons in Hks as [Hk Hks].
  apply assoc_get_is_Some in Hk as [qv Hqv].
  pose proof (assoc_get_elem_of _ _ _ Hqv) as Hin.
  rewrite Forall_forall in Hall. destruct (Hall _ Hin) as (p & Hp' & Hread).
  simpl in Hp'. subst qv.
  set (h1 := hi ++ [CObj (spread_props pr)]).
  assert (h `prefix_of` h1) as Hp1 by (etrans; [exact Hp|apply prefix_alloc]).
  destruct (Hread h1 Hp1) as (h2 & Hrun & Hp2).
  assert (h2 !! length hi = Some (CObj (spread_props pr))) as Hacc.
  { eapply prefix_lookup_Some; [|exact Hp2]. apply lookup_alloc_new. }
  set (pr1 := assoc_set k (answer p) (spread_props pr)).
  destruct (IH (done ++ [k]) (<[length hi := CObj pr1]> h2) (length hi) pr1)
    as (r' & pr' & h' & Hloop & Hpf & Hrf & Hcf & Hf).
  - done.
  - apply prefix_write; [by etrans|]. apply prefix_length in Hp. lia.
  - apply prefix_length in Hp. lia.
  - by eapply lookup_write_eq.
  - intros k'. unfold pr1. destruct (decide (k' = k)) as [->|Hne].
    + rewrite assoc_get_set_eq. rewrite decide_True by (apply elem_of_app; right; by left).
      unfold answers. by rewrite Hqv.
    + rewrite assoc_get_set_ne, assoc_get_spread, Hpr by done.
      destruct (decide (k' ∈ done)) as [Hd|Hd].
      * rewrite decide_True by (apply elem_of_app; by left). done.
      * rewrite decide_False; [done|].
        intros [?|?%list_elem_of_singleton]%elem_of_app; done.
  - exists r', pr', h'. split_and!; [|done..|].
    + cbn [map]. rewrite reduce_cons.
      erewrite bind_Ok; [exact Hloop|].
      erewrite bind_Ok by (by apply spread_object_object).
      erewrite bind_Ok.
      2:{ apply get_prop_ref; [eapply prefix_lookup_Some; [exact Hq|exact Hp1]|].
          eapply visible_has, cell_has_key, Hqv. }
      simpl. unfold named_get. simpl. rewrite Hqv. simpl.
      rewrite read_path_string. erewrite bind_Ok by exact Hrun.
      erewrite bind_Ok by (by apply define_prop_object).
      done.
    + intros k'. rewrite Hf. by rewrite <- app_assoc.
Qed.

(** X15: a query object is answered key by key: the result is a new
    mapping with the keys of the query, each holding what the read of the
    path given for it returns, and no object of the store is changed. *)
Theorem queryObject_object (fuel : nat) (obj : value) (answer : string → value)
    (h : heap) (q : nat) pq :
  h !! q = Some (CObj pq) →
  Forall (fun kv => ∃ p, kv.2 = VStr p ∧ reads_as (S fuel) obj p (answer p) h) pq →
  ∃ r pr h',
    queryObject call ToNumber (S fuel) (VRef q) obj h = Ok (VRef r) h'
    ∧ h `prefix_of` h' ∧ length h ≤ r ∧ h' !! r = Some (CObj pr)
    ∧ ∀ k, assoc_get k pr = answers answer pq k.
Proof.
  intros Hq Hall.
  destruct (query_fold fuel obj answer h q pq Hq Hall (own_keys pq) []
              (h ++ [CObj []]) (length h) [])
    as (r & pr & h' & Hloop & Hp & Hr & Hcell & Hpr).
  - apply Forall_forall. intros k Hk. by apply elem_of_own_keys.
  - apply prefix_alloc.
  - done.
  - apply lookup_alloc_new.
  - intros k. by rewrite decide_False by apply not_elem_of_nil.
  - exists r, pr, h'. split_and!; [|done..|].
    + unfold queryObject.
      rewrite (bind_Ok _ _ _ _ _ (getObjectType_ref h q _ Hq)). simpl.
      rewrite (bind_Ok _ _ _ _ _ (getObjectType_ref h q _ Hq)). simpl.
      rewrite (bind_Ok _ _ _ _ _ (Object_keys_object h q _ Hq)).
      rewrite (bind_Ok _ _ _ _ _ (alloc_Ok _ h)). exact Hloop.
    + intros k. rewrite Hpr. simpl. destruct (decide (k ∈ own_keys pq)) as [|Hn]; [done|].
      unfold answers. destruct (assoc_get k pq) eqn:E; [|done].
      exfalso. apply Hn, elem_of_own_keys, assoc_get_is_Some. by eexists.
Qed.

(** The read of a key of a mapping is such a read. *)
Lemma reads_as_key (fuel : nat) (h : heap) (o : nat) po (p : string) :
  h !! o = Some (CObj po) → plain p = true → p ≠ "" → p ≠ "*" →
  visible (CObj po) (PStr p) = true →
  reads_as (S (S fuel)) (VRef o) p (default VUndef (assoc_get p po)) h.
Proof.
  intros Ho Hplain Hne Hstar Hvis h' Hp. eexists. split; [|apply prefix_alloc].
  rewrite findPropInObject_S. unfold findPropInObject_body.
  erewrite bind_Ok
    by (apply getObjectType_ref; eapply prefix_lookup_Some; [exact Ho|exact Hp]).
  rewrite parse_path_plain by done. simpl.
  apply direct_read_object; [|done..]. by eapply prefix_lookup_Some.
Qed.

End Query.

(** ** [applyDefaults] on two mappings *)

(** [{...a, ...b}] on the own properties. *)
Definition spread_over (pa pb : list (string * value)) : list (string * value) :=
  foldl (fun acc kv => assoc_set kv.1 kv.2 acc) (spread_props pa) (spread_props pb).

Lemma elem_of_assoc_set_keys k v ps k' :
  k' ∈ map fst (assoc_set k v ps) ↔ k' = k ∨ k' ∈ map fst ps.
Proof.
  rewrite <- !assoc_get_is_Some. destruct (decide (k' = k)) as [->|Hne].
  - rewrite assoc_get_set_eq. split; [by left|by eexists].
  - rewrite assoc_get_set_ne by done. split; [by right|by intros [|]].
Qed.

Lemma elem_of_foldl_set_keys es : ∀ acc k,
  k ∈ map fst (foldl (fun acc kv => assoc_set kv.1 kv.2 acc) acc es)
  ↔ k ∈ map fst acc ∨ k ∈ map fst es.
Proof.
  induction es as [|[k' v'] es IH]; intros acc k; simpl.
  - split; [by left|]. by intros [?|?%elem_of_nil].
  - rewrite IH, elem_of_assoc_set_keys, elem_of_cons. tauto.
Qed.

Lemma map_fst_spread_props ps : map fst (spread_props ps) = own_keys ps.
Proof.
  unfold spread_props. rewrite map_map. simpl. apply map_id.
Qed.

Lemma elem_of_spread_over_keys pa pb k :
  k ∈ own_keys (spread_over pa pb) ↔ k ∈ map fst pa ∨ k ∈ map fst pb.
Proof.
  unfold spread_over.
  rewrite elem_of_own_keys, elem_of_foldl_set_keys, !map_fst_spread_props.
  by rewrite !elem_of_own_keys.
Qed.

Lemma type_undefined (h : heap) (v : value) (t : jstype) :
  type_in h v = Some t → bool_decide (t = TUndefined) = is_undef v.
Proof.
  destruct v; simpl; try (by intros [= <-]).
  destruct (h !! l) as [[]|]; by intros [= <-].
Qed.

(** No key is the name of a member of [Object.prototype]. *)
Definition plain_keys (ps : list (string * value)) : Prop :=
  Forall (fun kv => inherited TObject (PStr kv.1) = false) ps.

(** A mapping decides its own keys, and those of a mapping with plain
    keys. *)
Lemma visible_keys ps pd k :
  plain_keys pd → k ∈ map fst ps ∨ k ∈ map fst pd → visible (CObj ps) (PStr k) = true.
Proof.
  intros Hpd [Hk|Hk].
  - apply assoc_get_is_Some in Hk as [v Hv]. eapply visible_has, cell_has_key, Hv.
  - apply visible_plain. apply list_elem_of_fmap in Hk as ([k' v] & -> & Hin).
    unfold plain_keys in Hpd. rewrite Forall_forall in Hpd. by apply (Hpd _ Hin).
Qed.

Section Defaults.

Lemma set_entries (n : nat) es : ∀ acc (hi : heap),
  hi !! n = Some (CObj acc) →
  forEach_list es (fun kv => define_prop (VRef n) (PStr kv.1) kv.2) hi
  = Ok tt (<[n := CObj (foldl (fun acc kv => assoc_set kv.1 kv.2 acc) acc es)]> hi).
Proof.
  induction es as [|[k v] es IH]; intros acc hi Hn; simpl.
  - by rewrite list_insert_id.
  - erewrite bind_Ok by (by apply define_prop_object). simpl.
    erewrite IH by (by eapply lookup_write_eq). by rewrite list_insert_insert_eq.
Qed.

Lemma spread_two_objects (h : heap) (a b : nat) pa pb :
  h !! a = Some (CObj pa) → h !! b = Some (CObj pb) →
  spread_two (VRef a) (VRef b) h
  = Ok (VRef (length h)) (h ++ [CObj (spread_over pa pb)]).
Proof.
  intros Ha Hb. unfold spread_two.
  erewrite bind_Ok by (by apply spread_object_object).
  erewrite bind_Ok.
  2:{ unfold own_entries. erewrite bind_Ok by (by apply read_cell_Ok, lookup_alloc_old).
      reflexivity. }
  erewrite bind_Ok by (apply set_entries, lookup_alloc_new).
  by rewrite insert_alloc_new.
Qed.

(** What the result holds at [k]: the setting if there is one that is not
    [undefined], the default otherwise. *)
Definition filled (ps pd : list (string * value)) (k : string) : option value :=
  if decide (k ∈ map fst ps ∨ k ∈ map fst pd) then
    let s := default VUndef (assoc_get k ps) in
    Some (if is_undef s then default VUndef (assoc_get k pd) else s)
  else None.

Lemma type_in_prop (h : heap) ps k :
  Forall (fun kv => is_Some (type_in h kv.2)) ps →
  is_Some (type_in h (default VUndef (assoc_get k ps))).
Proof.
  intros Hall. destruct (assoc_get k ps) as [v|] eqn:E; [|by eexists].
  apply assoc_get_elem_of in E. rewrite Forall_forall in Hall. by apply (Hall _ E).
Qed.

Lemma defaults_fold (self : value → value → M value) (h : heap) (s d : nat) ps pd :
  h !! s = Some (CObj ps) → h !! d = Some (CObj pd) →
  plain_keys ps → plain_keys pd →
  Forall (fun kv => is_Some (type_in h kv.2)) ps →
  Forall (fun kv => ∃ t, type_in h kv.2 = Some t ∧
     (t ≠ TObject
      ∨ is_undef (default VUndef (assoc_get kv.1 ps)) = false
        ∧ ∀ hi, h `prefix_of` hi →
            ∃ r h'', self (default VUndef (assoc_get kv.1 ps)) kv.2 hi = Ok r h''
                     ∧ hi `prefix_of` h'')) pd →
  ∀ ks done (hi : heap) (r : nat) pr,
    Forall (fun k => k ∈ map fst ps ∨ k ∈ map fst pd) ks →
    h `prefix_of` hi → length h ≤ r → hi !! r = Some (CObj pr) →
    (∀ k, assoc_get k pr = if decide (k ∈ done) then filled ps pd k else None) →
    ∃ r' pr' h',
      reduce (map PStr ks) (VRef r) (fun p n =>
        let* sv := get_prop (VRef s) n in
        let* ts := getObjectType sv in
        let value := negb (bool_decide (ts = TUndefined)) in
        let* dv := get_prop (VRef d) n in
        let* td := getObjectType dv in
        let* defaultValue :=
          (if bool_decide (td = TObject)
           then let* sv := get_prop (VRef s) n in
                let* dv := get_prop (VRef d) n in
                self sv dv
           else get_prop (VRef d) n) in
        let* acc := spread_object p in
        let* v := (if value then get_prop (VRef s) n else ret defaultValue) in
        define_prop acc n v ;;;
        ret acc) hi = Ok (VRef r') h'
      ∧ h `prefix_of` h' ∧ length h ≤ r' ∧ h' !! r' = Some (CObj pr')
      ∧ ∀ k, assoc_get k pr' = if decide (k ∈ done ++ ks) then filled ps pd k else None.
Proof.
  intros Hs Hd Hks0 Hkd0 Hps Hpd.
  induction ks as [|k ks IH]; intros done hi r pr Hks Hp Hr Hcell Hpr.
  { exists r, pr, hi. rewrite app_nil_r. by split_and!. }
  apply Forall_cons in Hks as [Hk Hks].
  set (sv := default VUndef (assoc_get k ps)).
  set (dv := default VUndef (assoc_get k pd)).
  destruct (type_in_prop h ps k Hps) as [ts Hts]. fold sv in Hts.
  pose proof (prefix_lookup_Some _ _ _ _ Hs Hp) as Hs'.
  pose proof (prefix_lookup_Some _ _ _ _ Hd Hp) as Hd'.
  assert (visible (CObj ps) (PStr k) = true) as Hvs by by eapply visible_keys.
  assert (visible (CObj pd) (PStr k) = true) as Hvd
    by (eapply visible_keys; [exact Hks0|tauto]).
  assert (get_prop (VRef s) (PStr k) hi = Ok sv hi) as Hgs
    by (by rewrite (get_prop_ref hi s _ (PStr k) Hs')).
  assert (get_prop (VRef d) (PStr k) hi = Ok dv hi) as Hgd
    by (by rewrite (get_prop_ref hi d _ (PStr k) Hd')).
  set (v := if is_undef sv then dv else sv).
  (* the default value is computed, from [hi] to some [h2] *)
  assert (∃ td dflt h2,
    type_in h dv = Some td
    ∧ (if bool_decide (td = TObject)
       then let* sv := get_prop (VRef s) (PStr k) in
            let* dv := get_prop (VRef d) (PStr k) in
            self sv dv
       else get_prop (VRef d) (PStr k)) hi = Ok dflt h2
    ∧ hi `prefix_of` h2
    ∧ (if is_undef sv then dflt else sv) = v) as (td & dflt & h2 & Htd & Hdflt & Hp2 & Hv).
  { assert (∃ td, type_in h dv = Some td ∧
       (td ≠ TObject
        ∨ is_undef sv = false
          ∧ ∀ hi, h `prefix_of` hi →
              ∃ r h'', self sv dv hi = Ok r h'' ∧ hi `prefix_of` h''))
      as (td & Htd & Hcase).
    { unfold dv, sv. destruct (assoc_get k pd) as [x|] eqn:E.
      - apply assoc_get_elem_of in E. rewrite Forall_forall in Hpd.
        by apply (Hpd _ E).
      - exists TUndefined. split; [done|by left]. }
    exists td. destruct Hcase as [Hnobj|[Hdef Hself]].
    - exists dv, hi. rewrite bool_decide_eq_false_2 by done. by split_and!.
    - destruct (Hself hi Hp) as (r0 & h'' & Hrun & Hp'').
      destruct (bool_decide (td = TObject)).
      + exists r0, h''. rewrite (bind_Ok _ _ _ _ _ Hgs), (bind_Ok _ _ _ _ _ Hgd).
        split_and!; [done..|]. unfold v. by rewrite Hdef.
      + exists dv, hi. by split_and!. }
  pose proof (prefix_lookup_Some _ _ _ _ Hcell Hp2) as Hcell2.
  set (pr1 := assoc_set k v (spread_props pr)).
  destruct (IH (done ++ [k]) (<[length h2 := CObj pr1]> (h2 ++ [CObj (spread_props pr)]))
              (length h2) pr1)
    as (r' & pr' & h' & Hloop & Hpf & Hrf & Hcf & Hf).
  - done.
  - rewrite insert_alloc_new. etrans; [exact Hp|]. etrans; [exact Hp2|apply prefix_alloc].
  - apply prefix_length in Hp, Hp2. lia.
  - rewrite insert_alloc_new. apply lookup_alloc_new.
  - intros k'. unfold pr1. destruct (decide (k' = k)) as [->|Hne].
    + rewrite assoc_get_set_eq. rewrite decide_True by (apply elem_of_app; right; by left).
      unfold filled. by rewrite decide_True.
    + rewrite assoc_get_set_ne, assoc_get_spread, Hpr by done.
      destruct (decide (k' ∈ done)) as [Hd0|Hd0].
      * rewrite decide_True by (apply elem_of_app; by left). done.
      * rewrite decide_False; [done|].
        intros [?|?%list_elem_of_singleton]%elem_of_app; done.
  - exists r', pr', h'. split_and!; [|done..|].
    + cbn [map]. rewrite reduce_cons.
      erewrite bind_Ok; [exact Hloop|].
      rewrite (bind_Ok _ _ _ _ _ Hgs).
      erewrite bind_Ok
        by (apply getObjectType_type_in; eapply type_in_prefix; [exact Hp|exact Hts]).
      rewrite (bind_Ok _ _ _ _ _ Hgd).
      erewrite bind_Ok
        by (apply getObjectType_type_in; eapply type_in_prefix; [exact Hp|exact Htd]).
      rewrite (bind_Ok _ _ _ _ _ Hdflt).
      erewrite bind_Ok by (by apply spread_object_object).
      rewrite (type_undefined h sv ts Hts).
      erewrite bind_Ok with (a := v).
      2:{ rewrite <- Hv. destruct (is_undef sv); simpl; [done|].
          rewrite (get_prop_ref _ s (CObj ps) (PStr k)); [done| |done].
          apply lookup_alloc_old. by eapply prefix_lookup_Some. }
      erewrite bind_Ok by (apply define_prop_object, lookup_alloc_new).
      done.
    + intros k'. rewrite Hf. by rewrite <- app_assoc.
Qed.

(** The defaults a call on two mappings can take: at every key, a value
    that is no mapping, or a mapping under a setting that is not
    [undefined] with which the recursive call returns. *)
Definition defaults_ok (self : value → value → M value) (h : heap)
    (ps pd : list (string * value)) : Prop :=
  Forall (fun kv => ∃ t, type_in h kv.2 = Some t ∧
     (t ≠ TObject
      ∨ is_undef (default VUndef (assoc_get kv.1 ps)) = false
        ∧ ∀ hi, h `prefix_of` hi →
            ∃ r h'', self (default VUndef (assoc_get kv.1 ps)) kv.2 hi = Ok r h''
                     ∧ hi `prefix_of` h'')) pd.

Lemma applyDefaults_run (fuel : nat) (h : heap) (s d : nat) ps pd :
  h !! s = Some (CObj ps) → h !! d = Some (CObj pd) →
  plain_keys ps → plain_keys pd →
  Forall (fun kv => is_Some (type_in h kv.2)) ps →
  defaults_ok (applyDefaults fuel) h ps pd →
  ∃ r pr h',
    applyDefaults (S fuel) (VRef s) (VRef d) h = Ok (VRef r) h'
    ∧ h `prefix_of` h' ∧ length h ≤ r ∧ h' !! r = Some (CObj pr)
    ∧ ∀ k, assoc_get k pr = filled ps pd k.
Proof.
  intros Hs Hd Hks Hkd Hps Hpd.
  set (h1 := h ++ [CObj (spread_over ps pd)]).
  destruct (defaults_fold (applyDefaults fuel) h s d ps pd Hs Hd Hks Hkd Hps Hpd
              (own_keys (spread_over ps pd)) [] (h1 ++ [CObj []]) (length h1) [])
    as (r & pr & h' & Hloop & Hp & Hr & Hcell & Hpr).
  - apply Forall_forall. intros k Hk. by apply elem_of_spread_over_keys.
  - etrans; [apply prefix_alloc|apply prefix_alloc].
  - unfold h1. rewrite length_app. lia.
  - apply lookup_alloc_new.
  - intros k. by rewrite decide_False by apply not_elem_of_nil.
  - exists r, pr, h'. split_and!; [|done..|].
    + rewrite applyDefaults_S. unfold applyDefaults_body, or_empty. simpl.
      rewrite !bind_ret.
      rewrite (bind_Ok _ _ _ _ _ (spread_two_objects h s d ps pd Hs Hd)).
      erewrite bind_Ok by (apply Object_keys_object, lookup_alloc_new).
      rewrite (bind_Ok _ _ _ _ _ (alloc_Ok _ _)). exact Hloop.
    + intros k. rewrite Hpr. simpl.
      destruct (decide (k ∈ own_keys (spread_over ps pd))) as [|Hn]; [done|].
      unfold filled. rewrite decide_False; [done|].
      by rewrite <- elem_of_spread_over_keys.
Qed.

(** Every value is of some kind: no reference to no object. *)
Definition valid_values (h : heap) (ps : list (string * value)) : Prop :=
  Forall (fun kv => is_Some (type_in h kv.2)) ps.

(** No value is a mapping. *)
Definition flat_values (h : heap) (pd : list (string * value)) : Prop :=
  Forall (fun kv => ∃ t, type_in h kv.2 = Some t ∧ t ≠ TObject) pd.

Lemma valid_values_prefix (h h' : heap) ps :
  h `prefix_of` h' → valid_values h ps → valid_values h' ps.
Proof.
  intros Hp Hv. eapply Forall_impl; [exact Hv|].
  intros kv [t Ht]. exists t. by eapply type_in_prefix.
Qed.

Lemma flat_values_prefix (h h' : heap) pd :
  h `prefix_of` h' → flat_values h pd → flat_values h' pd.
Proof.
  intros Hp Hv. eapply Forall_impl; [exact Hv|].
  intros kv (t & Ht & Hn). exists t. split; [by eapply type_in_prefix|done].
Qed.

Lemma flat_defaults_ok self (h : heap) ps pd : flat_values h pd → defaults_ok self h ps pd.
Proof.
  intros Hv. eapply Forall_impl; [exact Hv|].
  intros kv (t & Ht & Hn). exists t. split; [done|by left].
Qed.

(** The defaults of a call that fills one level below the top: a default
    that is a mapping holds no mapping itself and stands under a setting
    that is a mapping too, and neither has a key that is the name of a
    member of [Object.prototype]. *)
Definition two_level (h : heap) (ps pd : list (string * value)) : Prop :=
  Forall (fun kv => ∃ t, type_in h kv.2 = Some t ∧
     (t ≠ TObject
      ∨ ∃ dl pd' sl ps',
          kv.2 = VRef dl ∧ h !! dl = Some (CObj pd') ∧ flat_values h pd'
          ∧ assoc_get kv.1 ps = Some (VRef sl) ∧ h !! sl = Some (CObj ps')
          ∧ valid_values h ps' ∧ plain_keys ps' ∧ plain_keys pd')) pd.

Lemma two_level_ok (fuel : nat) (h : heap) ps pd :
  two_level h ps pd → defaults_ok (applyDefaults (S fuel)) h ps pd.
Proof.
  intros Hv. eapply Forall_impl; [exact Hv|].
  intros [k dv] (t & Ht & Hcase). exists t. split; [done|].
  destruct Hcase as [?|(dl & pd' & sl & ps' & Hdv & Hdl & Hflat & Hsv & Hsl & Hvalid
                          & Hks' & Hkd')];
    [by left|right].
  simpl in *. subst dv. rewrite Hsv. simpl. split; [done|]. intros hi Hp.
  destruct (applyDefaults_run fuel hi sl dl ps' pd') as (r & pr & h' & Hrun & Hp' & _).
  - by eapply prefix_lookup_Some.
  - by eapply prefix_lookup_Some.
  - done.
  - done.
  - by eapply valid_values_prefix.
  - apply flat_defaults_ok. by eapply flat_values_prefix.
  - by exists (VRef r), h'.
Qed.

(** X19: a [null] first argument is not replaced by the default [{}]:
    with a mapping of defaults that has a key, reading that key of [null]
    raises a [TypeError]. *)
Theorem applyDefaults_null (fuel : nat) (h : heap) (d : nat) pd :
  h !! d = Some (CObj pd) → pd ≠ [] →
  ∃ h', applyDefaults (S fuel) VNull (VRef d) h = Throw TypeError h'
        ∧ h `prefix_of` h'.
Proof.
  intros Hd Hne.
  assert (∃ k ks, own_keys (spread_over [] pd) = k :: ks) as (k & ks & Hkeys).
  { destruct (own_keys (spread_over [] pd)) as [|k ks] eqn:E; [|by eauto].
    exfalso. destruct pd as [|[k v] pd]; [done|].
    assert (k ∈ own_keys (spread_over [] ((k, v) :: pd))) as Hin.
    { apply elem_of_spread_over_keys. right. by left. }
    rewrite E in Hin. by apply elem_of_nil in Hin. }
  assert (spread_two VNull (VRef d) h
          = Ok (VRef (length h)) (h ++ [CObj (spread_over [] pd)])) as Hboth.
  { unfold spread_two. change (spread_object VNull) with (alloc (CObj [])).
    rewrite (bind_Ok _ _ _ _ _ (alloc_Ok _ h)).
    erewrite bind_Ok.
    2:{ unfold own_entries. erewrite bind_Ok by (by apply read_cell_Ok, lookup_alloc_old).
        reflexivity. }
    erewrite bind_Ok by (apply set_entries, lookup_alloc_new).
    by rewrite insert_alloc_new. }
  eexists. split.
  - rewrite applyDefaults_S. unfold applyDefaults_body, or_empty. simpl.
    rewrite !bind_ret. rewrite (bind_Ok _ _ _ _ _ Hboth).
    erewrite bind_Ok by (apply Object_keys_object, lookup_alloc_new).
    rewrite Hkeys.
    rewrite (bind_Ok _ _ _ _ _ (alloc_Ok _ _)).
    cbn [map]. rewrite reduce_cons. reflexivity.
  - etrans; [apply prefix_alloc|apply prefix_alloc].
Qed.

End Defaults.

(** ** More on [deepCompare] *)

(** A finite nesting has its own shape. *)
Lemma nested_copies_self (d : nat) : ∀ (h : heap) (v : value),
  nested d h v → copies d h 0 h v v.
Proof.
  induction d as [|d IH]; intros h v Hv;
    (destruct (nested_cases _ _ _ Hv) as [(Hpr & t & Ht & Hc)|(d' & l & Hd & -> & H)];
     [exact (copies_leaf _ _ _ _ _ _ Hpr Ht Hc)|]); [done|].
  injection Hd as <-. simpl. right. exists l, l. split_and!; [done|done|lia|].
  destruct H as [(eb & Hb & Hall)|(pb & Hb & Hts & _ & Hall)].
  - left. exists eb, eb. split_and!; [done..|].
    apply Forall2_same_length_lookup. split; [done|].
    intros i e f He Hf. rewrite He in Hf. injection Hf as <-.
    rewrite Forall_forall in Hall.
    destruct (Hall e (list_elem_of_lookup_2 _ _ _ He)) as (x & -> & Hx).
    exists x, x. split_and!; [done..|]. by apply IH.
  - right. exists pb, pb. split_and!; [done..|].
    intros k x Hk. exists x. split; [done|]. apply IH.
    apply assoc_get_elem_of in Hk. rewrite Forall_forall in Hall. by apply (Hall _ Hk).
Qed.

(** A value that is not an object. *)
Definition primitive (v : value) : Prop :=
  match v with VRef _ => False | _ => True end.

Lemma type_in_primitive (h : heap) (v : value) :
  primitive v → ∃ t, type_in h v = Some t ∧ is_composite t = false.
Proof. destruct v; try done; intros _; by eexists. Qed.

Lemma deepCompare_primitives (fuel : nat) (h : heap) (a b : value) :
  primitive a → primitive b →
  deepCompare (S (S fuel)) a b h = Ok (bool_decide (a = b)) h.
Proof.
  intros Ha Hb. rewrite deepCompare_S. unfold deepCompare_body.
  rewrite to_string_S. unfold to_string_body.
  destruct a as [| |x|x|x|]; try done; destruct b as [| |y|y|y|]; try done;
    try reflexivity.
  - (* booleans *) destruct x, y; reflexivity.
  - (* numbers *)
    change (Ok (bool_decide (Some (pretty x) = Some (pretty y))) h
            = Ok (bool_decide (VNum x = VNum y)) h).
    f_equal. apply bool_decide_ext. split; [|by intros [= ->]].
    intros [= Hxy]. f_equal. by apply (inj pretty).
  - (* strings *)
    change (Ok (bool_decide (Some x = Some y)) h = Ok (bool_decide (VStr x = VStr y)) h).
    f_equal. apply bool_decide_ext. split; [by intros [= ->]|by intros [= ->]].
Qed.

(** The entries of [pa] are entries of [pb], none is an array or a
    mapping, and neither the two mappings nor an entry has a property
    [toString] of its own. *)
Definition included (h : heap) (pa pb : list (string * value)) : Prop :=
  assoc_get "toString" pa = None ∧ assoc_get "toString" pb = None ∧
  ∀ k x, assoc_get k pa = Some x →
    assoc_get k pb = Some x ∧ prints h x
    ∧ ∃ t, type_in h x = Some t ∧ is_composite t = false.

Lemma included_compare (fuel : nat) (h : heap) (a b : nat) pa pb :
  h !! a = Some (CObj pa) → h !! b = Some (CObj pb) → included h pa pb →
  deepCompare (S (S (S fuel))) (VRef a) (VRef b) h = Ok true h.
Proof.
  intros Ha Hb (Hta & Htb & Hinc). rewrite deepCompare_S.
  apply deepCompare_tail with TObject; [by apply (getObjectType_ref h a _ Ha)|
    by apply (getObjectType_ref h b _ Hb)| |].
  - intros _. eexists. split; [by apply (Object_keys_object h a _ Ha)|].
    apply Forall_forall. intros key (k & -> & Hk)%list_elem_of_fmap.
    apply elem_of_own_keys, assoc_get_is_Some in Hk. destruct Hk as [x Hx].
    destruct (Hinc k x Hx) as (Hy & Hpr & t & Ht & Hc).
    exists x, x. split_and!.
    + rewrite (get_prop_ref h a _ (PStr k) Ha)
        by (eapply visible_has, cell_has_key, Hx).
      simpl. unfold named_get. simpl. by rewrite Hx.
    + rewrite (get_prop_ref h b _ (PStr k) Hb)
        by (eapply visible_has, cell_has_key, Hy).
      simpl. unfold named_get. simpl. by rewrite Hy.
    + apply deepCompare_copies with 0 h 0; [done| |lia].
      by apply copies_leaf with t.
  - exists (Some "[object Object]"). unfold opt_to_string.
    rewrite to_string_S. unfold to_string_body. split; mrun; simpl; by rewrite ?Hta, ?Htb.
Qed.

(** ** The path syntax: names joined by dots and brackets *)

(** One step of a path as it is written: [.name] or [[name]]. *)
Inductive accessor : Type :=
  | Dot (name : string)
  | Bracket (name : string).

Definition accessor_name (a : accessor) : string :=
  match a with Dot s | Bracket s => s end.

Fixpoint render_accessors (accs : list accessor) : string :=
  match accs with
  | [] => EmptyString
  | Dot s :: r => String "." (s ++ render_accessors r)
  | Bracket s :: r => String "[" (s ++ String "]" (render_accessors r))
  end.

(** A path such as [data.entries[0][3].title]. *)
Definition render_path (first : string) (accs : list accessor) : string :=
  (first ++ render_accessors accs)%string.

(** A name: not empty, no dot and no bracket in it. *)
Definition name_ok (s : string) : Prop := plain s = true ∧ s ≠ EmptyString.

(** What the accessors are once the last bracket is gone and the others
    are dots. *)
Fixpoint dotted (accs : list accessor) : string :=
  match accs with
  | [] => EmptyString
  | Dot s :: r => String "." (s ++ dotted r)
  | Bracket s :: r =>
      String "." (s ++ match r with [] => EmptyString | _ => String "." (dotted r) end)
  end.

Lemma string_app_cons c r b : (String c r ++ b)%string = String c (r ++ b).
Proof. reflexivity. Qed.

Lemma string_app_nil_r (s : string) : (s ++ "")%string = s.
Proof. induction s as [|c r IH]; [done|]. by rewrite string_app_cons, IH. Qed.

Lemma strip_trailing_app (a b : string) :
  b ≠ EmptyString →
  strip_trailing_bracket (a ++ b) = (a ++ strip_trailing_bracket b)%string.
Proof.
  intros Hb. induction a as [|c r IH]; [done|].
  change (String c r ++ b)%string with (String c (r ++ b)).
  destruct (r ++ b)%string as [|c' t] eqn:E.
  - destruct r; [simpl in E; by subst|done].
  - change (strip_trailing_bracket (String c (String c' t)))
      with (String c (strip_trailing_bracket (String c' t))).
    rewrite IH. done.
Qed.

Lemma brackets_to_dots_app (a b : string) :
  brackets_to_dots (a ++ b) = (brackets_to_dots a ++ brackets_to_dots b)%string.
Proof.
  induction a as [|c r IH]; [done|]. rewrite string_app_cons. simpl. by rewrite IH.
Qed.

Lemma render_accessors_nonempty a accs : render_accessors (a :: accs) ≠ EmptyString.
Proof. by destruct a. Qed.

Lemma name_no_bracket s : name_ok s → no_bracket s = true.
Proof. intros [H _]. by apply plain_split in H as [_ ?]. Qed.

Lemma name_no_dot s : name_ok s → no_dot s = true.
Proof. intros [H _]. by apply plain_split in H as [? _]. Qed.

Lemma no_bracket_dot s : no_bracket s = true → no_bracket (String "." s) = true.
Proof. intros H. cbn [no_bracket]. by rewrite H. Qed.

Lemma brackets_to_dots_cons c s :
  brackets_to_dots (String c s)
  = String (if Ascii.eqb c "[" || Ascii.eqb c "]" then "."%char else c) (brackets_to_dots s).
Proof. reflexivity. Qed.

(** The first two steps of the parser on the accessors. *)
Lemma accessors_dotted accs :
  Forall (fun a => name_ok (accessor_name a)) accs →
  brackets_to_dots (strip_trailing_bracket (render_accessors accs)) = dotted accs.
Proof.
  induction accs as [|a r IH]; [done|].
  intros Hall. apply Forall_cons in Hall as [Ha Hr]. specialize (IH Hr).
  pose proof (name_no_bracket _ Ha) as Hnb.
  destruct a as [s|s]; cbn [accessor_name] in Ha, Hnb; cbn [render_accessors dotted].
  - destruct r as [|a' r'].
    + cbn [render_accessors dotted]. rewrite !string_app_nil_r.
      rewrite strip_trailing_no_bracket by by apply no_bracket_dot.
      by rewrite brackets_to_dots_no_bracket by by apply no_bracket_dot.
    + rewrite <- (string_app_cons "." s).
      rewrite strip_trailing_app by apply render_accessors_nonempty.
      rewrite brackets_to_dots_app, IH.
      rewrite brackets_to_dots_no_bracket by by apply no_bracket_dot.
      by rewrite string_app_cons.
  - destruct r as [|a' r'].
    + cbn [render_accessors]. rewrite string_app_nil_r.
      rewrite <- (string_app_cons "[" s).
      rewrite strip_trailing_app by done.
      change (strip_trailing_bracket "]") with EmptyString.
      rewrite !string_app_nil_r.
      rewrite brackets_to_dots_cons. change (Ascii.eqb "[" "[" || Ascii.eqb "[" "]") with true.
      cbv iota. by rewrite brackets_to_dots_no_bracket.
    + rewrite <- (string_app_cons "[" s).
      rewrite strip_trailing_app by done.
      change (String "]" (render_accessors (a' :: r')))
        with ("]" ++ render_accessors (a' :: r'))%string.
      rewrite strip_trailing_app by apply render_accessors_nonempty.
      rewrite !brackets_to_dots_app, IH.
      rewrite brackets_to_dots_cons. change (Ascii.eqb "[" "[" || Ascii.eqb "[" "]") with true.
      cbv iota. rewrite brackets_to_dots_no_bracket by done.
      change (brackets_to_dots "]") with ".".
      by rewrite !string_app_cons.
Qed.

Lemma collapse_dots_head c r :
  Ascii.eqb c "." = false → collapse_dots (String c r) = String c (collapse_dots r).
Proof. intros Hc. destruct r as [|c' r']; [done|]. simpl. by rewrite Hc. Qed.

(** A dot after a name stays. *)
Lemma collapse_dots_name_dot seg c r :
  no_dot seg = true → Ascii.eqb c "." = false →
  collapse_dots (seg ++ String "." (String c r))
  = (seg ++ String "." (collapse_dots (String c r)))%string.
Proof.
  intros Hseg Hc. induction seg as [|x t IH].
  - change (EmptyString ++ String "." (String c r))%string with (String "." (String c r)).
    change (collapse_dots (String "." (String c r)))
      with (if Ascii.eqb "." "." && Ascii.eqb c "." then collapse_dots (String c r)
            else String "." (collapse_dots (String c r))).
    by rewrite Hc, andb_false_r.
  - simpl in Hseg. apply andb_prop in Hseg as [Hx Ht]. apply negb_true_iff in Hx.
    change (String x t ++ String "." (String c r))%string
      with (String x (t ++ String "." (String c r))).
    rewrite collapse_dots_head by done. by rewrite (IH Ht).
Qed.

(** Of two dots after a name one goes. *)
Lemma collapse_dots_name_dots seg r :
  no_dot seg = true → seg ≠ EmptyString →
  collapse_dots (seg ++ String "." (String "." r))
  = collapse_dots (seg ++ String "." r).
Proof.
  intros Hseg Hne. induction seg as [|x t IH]; [done|].
  simpl in Hseg. apply andb_prop in Hseg as [Hx Ht]. apply negb_true_iff in Hx.
  change (String x t ++ ?s)%string with (String x (t ++ s)).
  change (String x t ++ String "." (String "." r))%string
    with (String x (t ++ String "." (String "." r))).
  change (String x t ++ String "." r)%string with (String x (t ++ String "." r)).
  rewrite !collapse_dots_head by done. f_equal.
  destruct t as [|y t']; [|by apply IH].
  change (EmptyString ++ ?s)%string with s.
  change (collapse_dots (String "." (String "." r)))
    with (collapse_dots (String "." r)). done.
Qed.

Lemma dotted_cons a r : ∃ t, dotted (a :: r) = String "." t.
Proof. destruct a; simpl; eauto. Qed.

(** The third step: the doubled dots go, and the names are joined by one
    dot each. *)
Lemma collapse_dotted accs : ∀ seg,
  name_ok seg → Forall (fun a => name_ok (accessor_name a)) accs →
  collapse_dots (seg ++ dotted accs) = join_dots (seg :: map accessor_name accs).
Proof.
  induction accs as [|a r IH]; intros seg Hseg Hall.
  { simpl. rewrite string_app_nil_r.
    apply collapse_dots_collapsed, no_dot_collapsed. by apply name_no_dot. }
  apply Forall_cons in Hall as [Ha Hr].
  pose proof (name_no_dot _ Hseg) as Hsd.
  assert (∃ c t, accessor_name a = String c t ∧ Ascii.eqb c "." = false)
    as (c & t & Hs & Hc).
  { pose proof (name_no_dot _ Ha) as Hd. destruct Ha as [_ Hne].
    destruct (accessor_name a) as [|c t]; [done|]. exists c, t. split; [done|].
    simpl in Hd. apply andb_prop in Hd as [Hd _]. by apply negb_true_iff in Hd. }
  assert (join_dots (seg :: map accessor_name (a :: r))
          = (seg ++ String "." (join_dots (accessor_name a :: map accessor_name r)))%string)
    as -> by done.
  rewrite <- (IH (accessor_name a) Ha Hr).
  destruct a as [s|s]; simpl in Hs, Ha |- *; subst s.
  - change (String c t ++ dotted r)%string with (String c (t ++ dotted r)).
    by rewrite collapse_dots_name_dot.
  - destruct r as [|a' r'].
    + cbn [dotted]. change (String c t ++ EmptyString)%string
        with (String c (t ++ EmptyString)).
      by rewrite collapse_dots_name_dot.
    + destruct (dotted_cons a' r') as [z Hz]. rewrite Hz.
      change (String c t ++ ?s)%string with (String c (t ++ s)).
      change (String c t ++ String "." (String "." z))%string
        with (String c (t ++ String "." (String "." z))).
      rewrite collapse_dots_name_dot by done.
      change (String c (t ++ String "." (String "." z)))
        with (String c t ++ String "." (String "." z))%string.
      rewrite collapse_dots_name_dots; [|by apply (name_no_dot _ Ha)|done].
      done.
Qed.

Lemma name_not_bracket seg t : name_ok seg → strip_brackets (seg ++ t) = strip_trailing_bracket (seg ++ t).
Proof.
  intros Hseg. pose proof (name_no_bracket _ Hseg) as Hb. destruct Hseg as [_ Hne].
  destruct seg as [|c r]; [done|].
  simpl in Hb. apply andb_prop in Hb as [Hb _]. apply andb_prop in Hb as [Hb _].
  apply negb_true_iff, Ascii.eqb_neq in Hb.
  change (String c r ++ t)%string with (String c (r ++ t)). unfold strip_brackets.
  destruct c as [[] [] [] [] [] [] [] []]; try reflexivity. done.
Qed.

(** X1: a path written as a first name followed by [.name] and [[name]]
    accessors, every name non-empty and without dot or bracket, parses to
    the list of its names, in order, whether they were written with dots
    or with brackets. *)
Theorem parse_render_path (first : string) (accs : list accessor) :
  name_ok first → Forall (fun a => name_ok (accessor_name a)) accs →
  parse_path (render_path first accs) = first :: map accessor_name accs.
Proof.
  intros Hfirst Hall. unfold parse_path, render_path.
  rewrite name_not_bracket by done.
  assert (brackets_to_dots (strip_trailing_bracket (first ++ render_accessors accs))
          = (first ++ dotted accs)%string) as ->.
  { destruct accs as [|a r].
    - simpl. rewrite string_app_nil_r.
      by rewrite strip_trailing_no_bracket, brackets_to_dots_no_bracket
        by (by apply name_no_bracket).
    - rewrite strip_trailing_app by apply render_accessors_nonempty.
      rewrite brackets_to_dots_app, accessors_dotted by done.
      by rewrite brackets_to_dots_no_bracket by by apply name_no_bracket. }
  rewrite collapse_dotted by done.
  apply split_join_dots; [done|].
  constructor; [by apply name_no_dot|].
  apply Forall_fmap. eapply Forall_impl; [exact Hall|].
  intros a Ha. by apply name_no_dot.
Qed.

(** X2: a path that starts with a bracketed name, such as [[0].title],
    parses to its names too: the leading bracket is removed with the
    first step of the parser, not turned into an empty first segment. *)
Theorem parse_render_bracket (s : string) (accs : list accessor) :
  name_ok s → Forall (fun a => name_ok (accessor_name a)) accs →
  parse_path (render_accessors (Bracket s :: accs)) = s :: map accessor_name accs.
Proof.
  intros Hs Hall. unfold parse_path.
  change (strip_brackets (render_accessors (Bracket s :: accs)))
    with (strip_trailing_bracket (s ++ String "]" (render_accessors accs))).
  assert (brackets_to_dots (strip_trailing_bracket (s ++ String "]" (render_accessors accs)))
          = (s ++ match accs with [] => EmptyString | _ => String "." (dotted accs) end)%string)
    as ->.
  { pose proof (accessors_dotted (Bracket s :: accs)) as H.
    cbn [render_accessors dotted] in H.
    change (String "[" (s ++ String "]" (render_accessors accs)))
      with ("[" ++ (s ++ String "]" (render_accessors accs)))%string in H.
    rewrite strip_trailing_app in H by (by destruct s).
    rewrite string_app_cons, brackets_to_dots_cons in H.
    change (Ascii.eqb "[" "[" || Ascii.eqb "[" "]") with true in H. cbv iota in H.
    change ("" ++ ?x)%string with x in H.
    assert (Forall (fun a => name_ok (accessor_name a)) (Bracket s :: accs)) as Hall'
      by by constructor.
    by injection (H Hall'). }
  assert (collapse_dots (s ++ match accs with [] => EmptyString | _ => String "." (dotted accs) end)
          = join_dots (s :: map accessor_name accs)) as ->.
  { destruct accs as [|a r].
    - rewrite string_app_nil_r. apply collapse_dots_collapsed, no_dot_collapsed.
      by apply name_no_dot.
    - destruct (dotted_cons a r) as [z Hz]. rewrite Hz.
      rewrite collapse_dots_name_dots; [|by apply name_no_dot|by destruct Hs].
      rewrite <- Hz. by apply collapse_dotted. }
  apply split_join_dots; [done|].
  constructor; [by apply name_no_dot|].
  apply Forall_fmap. eapply Forall_impl; [exact Hall|].
  intros a Ha. by apply name_no_dot.
Qed.

(** The segments of a joined string without brackets have none. *)
Lemma no_bracket_join segs :
  no_bracket (join_dots segs) = true → Forall (fun s => no_bracket s = true) segs.
Proof.
  induction segs as [|s r IH]; [done|]. intros H.
  destruct r as [|s' r']; [by constructor|].
  change (join_dots (s :: s' :: r')) with (s ++ String "." (join_dots (s' :: r')))%string in H.
  constructor.
  - clear IH. induction s as [|c t IHs]; [done|].
    rewrite string_app_cons in H. cbn [no_bracket] in H |- *.
    apply andb_prop in H as [-> H]. by rewrite IHs.
  - apply IH. apply no_bracket_suffix in H. cbn [no_bracket] in H.
    by apply andb_prop in H as [_ H].
Qed.

Lemma plain_join (s : string) : no_dot s = true → no_bracket s = true → plain s = true.
Proof.
  induction s as [|c r IH]; [done|]. cbn [no_dot no_bracket plain]. unfold plain_char.
  intros Hd Hb. apply andb_prop in Hd as [-> Hd]. apply andb_prop in Hb as [Hb1 Hb].
  apply andb_prop in Hb1 as [-> ->]. by rewrite IH.
Qed.

(** X3: whatever the string, the parser gives at least one segment, and
    no segment holds a dot or a bracket. *)
Theorem parse_path_segments (pathStr : string) :
  parse_path pathStr ≠ [] ∧ Forall (fun s => plain s = true) (parse_path pathStr).
Proof.
  destruct (parse_path_normal pathStr) as (Hne & Hd & Hb & _). split; [done|].
  apply no_bracket_join in Hb. rewrite Forall_forall in Hd, Hb |- *.
  intros s Hs. apply plain_join; auto.
Qed.

(** ** Reads that return *)

(** A value of the store: not a reference to no object. *)
Definition valid (h : heap) (v : value) : Prop := is_Some (type_in h v).

Definition cell_values (c : cell) : list value :=
  match c with
  | CArr elems named => omap id elems ++ map snd named
  | CObj props => map snd props
  | CFun _ _ props => map snd props
  end.

(** Every object of the store holds values of the store. *)
Definition closed (h : heap) : Prop :=
  ∀ l c, h !! l = Some c → Forall (valid h) (cell_values c).

Lemma valid_prefix (h h' : heap) (v : value) : h `prefix_of` h' → valid h v → valid h' v.
Proof. intros Hp [t Ht]. exists t. by eapply type_in_prefix. Qed.

Lemma valid_undef (h : heap) : valid h VUndef.
Proof. by eexists. Qed.

Lemma assoc_get_valid (h : heap) (k : string) ps :
  Forall (valid h) (map snd ps) → valid h (default VUndef (assoc_get k ps)).
Proof.
  intros Hall. destruct (assoc_get k ps) as [v|] eqn:E; [|apply valid_undef].
  apply assoc_get_elem_of in E. rewrite Forall_forall in Hall. apply Hall.
  apply list_elem_of_fmap. by exists (k, v).
Qed.

Lemma elem_get_valid (h : heap) (i : nat) elems :
  Forall (valid h) (omap id elems) → valid h (elem_get elems i).
Proof.
  intros Hall. unfold elem_get.
  destruct (elems !! i) as [[v|]|] eqn:E; try apply valid_undef.
  rewrite Forall_forall in Hall. apply Hall. apply list_elem_of_omap.
  exists (Some v). split; [by eapply list_elem_of_lookup_2|done].
Qed.

Lemma cell_get_valid (h : heap) (c : cell) (p : propname) :
  Forall (valid h) (cell_values c) → valid h (cell_get c p).
Proof.
  intros Hall. destruct c as [elems named|props|f s props]; simpl in *;
    try by apply assoc_get_valid.
  apply Forall_app in Hall as [He Hn].
  destruct (array_index p); [by apply elem_get_valid|].
  destruct (String.eqb (key_string p) "length"); [by eexists|by apply assoc_get_valid].
Qed.

Lemma spread_props_values (h : heap) ps :
  Forall (valid h) (map snd ps) → Forall (valid h) (map snd (spread_props ps)).
Proof.
  intros Hall. unfold spread_props. rewrite map_map. simpl.
  apply Forall_fmap, Forall_true. intros k. by apply assoc_get_valid.
Qed.

Lemma cell_copy_values (h : heap) (c : cell) :
  Forall (valid h) (cell_values c) → Forall (valid h) (cell_values (cell_copy c)).
Proof.
  destruct c as [elems named|props|f s props]; simpl; [|apply spread_props_values|done].
  intros [He _]%Forall_app. rewrite app_nil_r. unfold spread_elems.
  apply Forall_forall. intros v (o & Ho & Hv)%list_elem_of_omap.
  apply list_elem_of_fmap in Ho as (e & -> & He'). simpl in Hv. injection Hv as <-.
  destruct e as [x|]; [|apply valid_undef]. simpl.
  rewrite Forall_forall in He. apply He. apply list_elem_of_omap. by exists (Some x).
Qed.

Lemma closed_alloc (h : heap) (c : cell) :
  closed h → Forall (valid h) (cell_values c) → closed (h ++ [c]).
Proof.
  intros Hcl Hc l c' Hl.
  assert (Forall (valid h) (cell_values c')) as Hv.
  { apply lookup_app_Some in Hl as [Hl|[_ Hl]]; [by apply (Hcl l)|].
    destruct (l - length h); [|done]. by injection Hl as <-. }
  eapply Forall_impl; [exact Hv|]. intros v. apply valid_prefix, prefix_alloc.
Qed.

Lemma name_in_app s l1 l2 : name_in s (l1 ++ l2) = name_in s l1 || name_in s l2.
Proof. apply existsb_app. Qed.

(** A name that is no member name is found on no prototype. *)
Lemma member_name_inherited (s : string) (t : jstype) :
  member_name s = false → inherited t (PStr s) = false.
Proof.
  unfold member_name, inherited, members. rewrite !name_in_app, !orb_false_iff.
  intros (Hfo & Hfp & Ha & Hn & Hb & Hs & Ho).
  destruct t; rewrite ?name_in_app, ?Hfo, ?Hfp, ?Ha, ?Hn, ?Hb, ?Hs, ?Ho; done.
Qed.

Lemma get_prop_valid (h : heap) (o : value) (p : propname) :
  closed h → valid h o → o ≠ VNull → o ≠ VUndef → (∀ t, inherited t p = false) →
  ∃ v, get_prop o p h = Ok v h ∧ valid h v.
Proof.
  intros Hcl [t Ht] Hn Hu Hp. destruct o as [| |b|n|s|l]; try done.
  - exists VUndef. split; [|apply valid_undef]. unfold get_prop. by rewrite Hp.
  - exists VUndef. split; [|apply valid_undef]. unfold get_prop. by rewrite Hp.
  - exists (string_get s p). split; [unfold get_prop; by rewrite Hp, orb_true_r|].
    unfold string_get. destruct (array_index p).
    + destruct (String.get n s); by eexists.
    + destruct (String.eqb (key_string p) "length"); by eexists.
  - simpl in Ht. destruct (h !! l) as [c|] eqn:E; [|done].
    exists (cell_get c p). split; [by apply get_prop_ref, visible_plain|].
    apply cell_get_valid. by apply (Hcl l).
Qed.

(** The entry of both functions on any value of the store. *)
Lemma enter_valid (b : bool) (h : heap) (root : value) :
  closed h → valid h root →
  ∃ result h1,
    (if b then ret root else shallow_copy root) h = Ok result h1
    ∧ h `prefix_of` h1 ∧ closed h1 ∧ valid h1 result
    ∧ (root ≠ VNull → result ≠ VNull) ∧ (root ≠ VUndef → result ≠ VUndef)
    ∧ ((∃ l c, root = VRef l ∧ h !! l = Some c ∧ composite c) → ∃ l, result = VRef l).
Proof.
  intros Hcl Hv.
  assert (∃ result h1, Ok root h = Ok result h1
    ∧ h `prefix_of` h1 ∧ closed h1 ∧ valid h1 result
    ∧ (root ≠ VNull → result ≠ VNull) ∧ (root ≠ VUndef → result ≠ VUndef)
    ∧ ((∃ l c, root = VRef l ∧ h !! l = Some c ∧ composite c) → ∃ l, result = VRef l))
    as Hsame.
  { exists root, h. split_and!; try done. intros (l & c & -> & _). by eexists. }
  destruct b; [exact Hsame|].
  destruct root as [| | | | |l]; try exact Hsame.
  destruct Hv as [t Ht]. simpl in Ht. destruct (h !! l) as [c|] eqn:E; [|done].
  destruct (decide (composite c)) as [Hc|Hc].
  - exists (VRef (length h)), (h ++ [cell_copy c]).
    split_and!; try done.
    + by apply shallow_copy_cell.
    + apply prefix_alloc.
    + apply closed_alloc; [done|]. apply cell_copy_values. by apply (Hcl l).
    + exists (cell_type (cell_copy c)). simpl. by rewrite lookup_alloc_new.
    + intros _. by eexists.
  - assert (shallow_copy (VRef l) h = Ok (VRef l) h) as ->; [|exact Hsame].
    unfold shallow_copy. rewrite (bind_Ok _ _ _ _ _ (read_cell_Ok h l c E)).
    destruct c; try done; exfalso; by apply Hc.
Qed.

Lemma truthy_not_null (v : value) : truthy v = true → v ≠ VNull ∧ v ≠ VUndef.
Proof. by destruct v. Qed.

Section ReadReturns.
Variable call : fid → value → M value.
Variable ToNumber : heap → value → jsnum.

(** A read of one property returns, on any value of the store. *)
Lemma direct_read_returns (fuel : nat) (root : value) (s : string) (b : bool) (h : heap) :
  closed h → valid h root → s ≠ "*" → member_name s = false →
  ∃ v h',
    findDirectPropInObject call ToNumber (S fuel) root (PStr s) b None h = Ok v h'
    ∧ h `prefix_of` h' ∧ closed h' ∧ valid h' v.
Proof.
  intros Hcl Hv Hstar Hmem.
  rewrite findDirectPropInObject_S. unfold findDirectPropInObject_body.
  destruct Hv as [t Ht].
  rewrite (bind_Ok _ _ _ _ _ (getObjectType_type_in h root t Ht)).
  destruct (is_composite t) eqn:Hcomp;
    [change (negb true) with false|change (negb false) with true]; cbv iota.
  2:{ exists root, h. split_and!; try done. by exists t. }
  destruct (enter_valid b h root Hcl) as (result & h1 & Hrun & Hp & Hcl1 & Hv1 & _ & _ & Href);
    [by exists t|].
  rewrite (bind_Ok _ _ _ _ _ Hrun). simpl.
  destruct (prop_is (PStr s) "").
  { exists VUndef, h1. split_and!; try done. apply valid_undef. }
  rewrite prop_is_false by done.
  destruct Href as [l ->].
  { destruct root as [| | | | |l]; try (simpl in Ht; injection Ht as <-; done).
    simpl in Ht. destruct (h !! l) as [c|] eqn:E; [|done]. injection Ht as <-.
    by exists l, c. }
  destruct (get_prop_valid h1 (VRef l) (PStr s) Hcl1 Hv1) as (v & Hget & Hvv);
    [done|done|by intros ?; apply member_name_inherited|].
  exists v, h1. by split_and!.
Qed.

(** A read along a path without wildcard returns, from any value of
    the store other than [null] and [undefined]. *)
Lemma read_segments (b : bool) (segs : list string) :
  normal segs → Forall (fun s => s ≠ "*") segs →
  Forall (fun s => member_name s = false) segs →
  ∀ (fuel : nat) (root : value) (p : string) (h : heap),
    parse_path p = segs → length segs < fuel →
    closed h → valid h root → root ≠ VNull → root ≠ VUndef →
    ∃ v h',
      findPropInObject call ToNumber fuel root p b None h = Ok v h'
      ∧ h `prefix_of` h' ∧ closed h' ∧ valid h' v.
Proof.
  induction segs as [|s rest IH];
    intros Hnorm Hstar Hmem fuel root p h Hparse Hfuel Hcl Hv Hn Hu.
  { by destruct Hnorm. }
  apply Forall_cons in Hstar as [Hs Hrest]. apply Forall_cons in Hmem as [Hms Hmrest].
  destruct fuel as [|fuel]; [lia|]. cbn [length] in Hfuel.
  rewrite findPropInObject_S. unfold findPropInObject_body.
  destruct Hv as [t Ht].
  rewrite (bind_Ok _ _ _ _ _ (getObjectType_type_in h root t Ht)). rewrite Hparse.
  destruct rest as [|s2 rest'].
  { simpl. destruct fuel as [|fuel]; [lia|].
    apply direct_read_returns; [done|by exists t|done|done]. }
  cbv iota.
  destruct (enter_valid b h root Hcl) as (result & h1 & Hrun & Hp & Hcl1 & Hv1 & Hn1 & Hu1 & _);
    [by exists t|].
  rewrite (bind_Ok _ _ _ _ _ Hrun). simpl.
  assert (String.eqb s "*" = false) as -> by by apply String.eqb_neq.
  simpl.
  destruct (get_prop_valid h1 result (PStr s) Hcl1 Hv1) as (cur & Hget & Hcur);
    [auto|auto|by intros ?; apply member_name_inherited|].
  rewrite (bind_Ok _ _ _ _ _ Hget).
  assert (∃ sub h2, (if truthy cur then ret cur else alloc (CObj [])) h1 = Ok sub h2
            ∧ h1 `prefix_of` h2 ∧ closed h2 ∧ valid h2 sub ∧ sub ≠ VNull ∧ sub ≠ VUndef)
    as (sub & h2 & Hsub & Hp2 & Hcl2 & Hv2 & Hn2 & Hu2).
  { destruct (truthy cur) eqn:Etr.
    - exists cur, h1. apply truthy_not_null in Etr as [? ?]. by split_and!.
    - exists (VRef (length h1)), (h1 ++ [CObj []]). split_and!; try done.
      + apply prefix_alloc.
      + apply closed_alloc; [done|]. by constructor.
      + exists TObject. simpl. by rewrite lookup_alloc_new. }
  rewrite (bind_Ok _ _ _ _ _ Hsub).
  destruct (IH (normal_tail _ _ Hnorm ltac:(done)) Hrest Hmrest fuel sub
              (join_dots (s2 :: rest')) h2) as (v & h' & Hrec & Hp' & Hcl' & Hv').
  - apply parse_join_normal. by apply (normal_tail s).
  - cbn [length] in *. lia.
  - done.
  - done.
  - done.
  - done.
  - exists v, h'. split_and!; try done. etrans; [exact Hp|]. by etrans.
Qed.

(** X4: in a store whose objects hold values of the store, a read along
    a path without wildcard, none of whose segments is the name of a
    member of a built-in prototype ([toString], [constructor], [caller],
    [length], ...), returns, in either copy mode, from every root but
    [null] and [undefined]: it does not raise, it changes no object, and
    what it returns is a value of the store it leaves. *)
Theorem read_returns (fuel : nat) (root : value) (p : string) (b : bool) (h : heap) :
  closed h → valid h root → root ≠ VNull → root ≠ VUndef →
  Forall (fun s => s ≠ "*") (parse_path p) →
  Forall (fun s => member_name s = false) (parse_path p) →
  length (parse_path p) < fuel →
  ∃ v h',
    findPropInObject call ToNumber fuel root p b None h = Ok v h'
    ∧ h `prefix_of` h' ∧ closed h' ∧ valid h' v.
Proof.
  intros Hcl Hv Hn Hu Hstar Hmem Hfuel.
  by apply (read_segments b (parse_path p) (parse_path_normal p) Hstar Hmem).
Qed.

End ReadReturns.

(** ** Removing from an array *)

Section RemoveArray.
Variable call : fid → value → M value.
Variable ToNumber : heap → value → jsnum.

(** [set(arr, s, undefined)] on an array: [splice] takes one element out
    of the copy, at the position its first argument converts to. *)
Lemma remove_array (fuel : nat) (h : heap) (l : nat) elems named (p s : string)
    (num : jsnum) :
  h !! l = Some (CArr elems named) →
  parse_path p = [s] → s ≠ "" → s ≠ "*" →
  (∀ h', ToNumber h' (VStr s) = num) →
  path_remove call ToNumber (S (S fuel)) (VRef l) p h
  = Ok (VRef (length h))
       (h ++ [CArr (remove_at (spread_elems elems)
                      (splice_start (length elems) num)) []]).
Proof.
  intros Hl Hp Hne Hstar Hnum. unfold path_remove.
  rewrite findPropInObject_S. unfold findPropInObject_body.
  mrun. rewrite Hp. simpl.
  rewrite findDirectPropInObject_S. unfold findDirectPropInObject_body.
  mrun. simpl. mrun. rewrite !prop_is_false by done. simpl. mrun.
  unfold splice1. change (is_undef VUndef && true) with true. cbv iota.
  erewrite bind_Ok.
  2:{ erewrite bind_Ok by (eapply array_method_Ok; [apply lookup_alloc_new|done]).
      erewrite bind_Ok by (apply read_cell_Ok, lookup_alloc_new). cbv beta iota.
      erewrite bind_Ok with (a := num) by (unfold to_number; by rewrite Hnum).
      eapply write_cell_Ok, lookup_alloc_new. }
  rewrite insert_alloc_new. unfold spread_elems at 2. by rewrite length_map.
Qed.

End RemoveArray.

(** ** The wildcard on a mapping *)

Lemma assoc_get_written_all (x : value) ks : ∀ acc k,
  assoc_get k (foldl (fun acc k => props_written k x acc) acc ks)
  = if decide (k ∈ ks) then (if is_undef x then None else Some x)
    else assoc_get k acc.
Proof.
  induction ks as [|k' ks IH]; intros acc k; [done|].
  cbn [foldl]. rewrite IH, assoc_get_props_written.
  destruct (decide (k ∈ ks)) as [Hin|Hin].
  - by rewrite decide_True by by right.
  - destruct (decide (k = k')) as [->|Hne].
    + by rewrite decide_True by by left.
    + by rewrite decide_False by (by intros [?|?]%elem_of_cons).
Qed.

Section WildcardMapping.
Variable call : fid → value → M value.
Variable ToNumber : heap → value → jsnum.

(** A literal write at a key of an object, in place. *)
Lemma direct_write_object_in_place fuel h l ps k v :
  h !! l = Some (CObj ps) → k ≠ "" → k ≠ "*" → literal h v →
  (is_undef v = false → has_key k ps = true) →
  findDirectPropInObject call ToNumber (S fuel) (VRef l) (PStr k) true (Some v) h
  = Ok (VRef l) (<[l := CObj (props_written k v ps)]> h).
Proof.
  intros Hl Hk1 Hk2 (t & Ht & Hnf) Hown.
  rewrite findDirectPropInObject_S. unfold findDirectPropInObject_body.
  mrun. simpl. mrun. rewrite !prop_is_false by done. simpl.
  erewrite bind_Ok by (by apply getObjectType_type_in).
  rewrite bool_decide_eq_false_2 by done. mrun.
  unfold props_written. destruct (is_undef v) eqn:Ev; simpl; [by mrun|].
  assert (assignable (CObj ps) (PStr k) = true) as Ha by by apply assignable_has, Hown.
  by mrun.
Qed.

Lemma has_key_set k k' x ps : has_key k' ps = true → has_key k' (assoc_set k x ps) = true.
Proof.
  intros H. unfold has_key. destruct (decide (k = k')) as [->|Hne].
  - by rewrite assoc_get_set_eq.
  - by rewrite assoc_get_set_ne.
Qed.

(** The keys that the loop runs over are keys of the mapping when it
    comes to them: an assignment removes none. *)
Lemma wildcard_loop (fuel : nat) (x : value) (n : nat) ks : ∀ acc (hi : heap),
  hi !! n = Some (CObj acc) → literal hi x →
  Forall (fun k => k ≠ "" ∧ k ≠ "*") ks →
  (is_undef x = false → Forall (fun k => has_key k acc = true) ks) →
  forEach_list (map PStr ks) (fun key =>
    findDirectPropInObject call ToNumber (S fuel) (VRef n) key true (Some x) ;;; ret tt) hi
  = Ok tt (<[n := CObj (foldl (fun acc k => props_written k x acc) acc ks)]> hi).
Proof.
  induction ks as [|k ks IH]; intros acc hi Hn Hlit Hks Hown.
  { simpl. by rewrite list_insert_id. }
  apply Forall_cons in Hks as [[Hk1 Hk2] Hks]. cbn [map forEach_list foldl].
  erewrite bind_Ok.
  2:{ erewrite bind_Ok; [reflexivity|].
      apply direct_write_object_in_place; [done..|].
      intros Hx. specialize (Hown Hx). by apply Forall_cons in Hown as [? _]. }
  rewrite (IH (props_written k x acc));
    [by rewrite list_insert_insert_eq|by eapply lookup_write_eq| |done|].
  - eapply literal_same_types; [|exact Hlit]. by eapply same_types_write.
  - intros Hx. specialize (Hown Hx). apply Forall_cons in Hown as [_ Hown].
    unfold props_written. rewrite Hx.
    eapply Forall_impl; [exact Hown|]. intros k'. apply has_key_set.
Qed.

(** X9: [set(obj, '*', x)] with a literal [x] on a mapping that has
    neither the empty key nor the key [*]: a new mapping with the same
    keys, all holding [x]; with [undefined] for [x], a new mapping with no
    key at all. *)
Theorem wildcard_write_mapping (fuel : nat) (h : heap) (l : nat) ps (p : string) (x : value) :
  h !! l = Some (CObj ps) → parse_path p = ["*"] → literal h x →
  Forall (fun kv => kv.1 ≠ "" ∧ kv.1 ≠ "*") ps →
  ∃ pr,
    path_set call ToNumber (S (S (S fuel))) (VRef l) p x h
    = Ok (VRef (length h)) (h ++ [CObj pr])
    ∧ ∀ k, assoc_get k pr
           = if decide (k ∈ map fst ps) then (if is_undef x then None else Some x)
             else None.
Proof.
  intros Hl Hp Hlit Hkeys.
  exists (foldl (fun acc k => props_written k x acc) (spread_props ps)
            (own_keys (spread_props ps))).
  split.
  - unfold path_set. rewrite findPropInObject_S. unfold findPropInObject_body.
    mrun. rewrite Hp. simpl.
    rewrite findDirectPropInObject_S. unfold findDirectPropInObject_body.
    mrun. simpl. mrun. simpl.
    erewrite bind_Ok.
    2:{ apply wildcard_loop; [apply lookup_alloc_new| | |].
        - apply literal_prefix with h; [apply prefix_alloc|done].
        - apply Forall_forall. intros k Hk.
          apply elem_of_own_keys in Hk. rewrite map_fst_spread_props in Hk.
          apply elem_of_own_keys, list_elem_of_fmap in Hk as ([k' v] & -> & Hin).
          rewrite Forall_forall in Hkeys. by apply (Hkeys _ Hin).
        - intros _. apply Forall_forall. intros k Hk.
          apply elem_of_own_keys, assoc_get_is_Some in Hk as [v Hv].
          by eapply has_key_Some. }
    by rewrite insert_alloc_new.
  - intros k. rewrite assoc_get_written_all, assoc_get_spread.
    destruct (decide (k ∈ own_keys (spread_props ps))) as [Hin|Hin].
    + rewrite decide_True; [done|].
      apply elem_of_own_keys in Hin. rewrite map_fst_spread_props in Hin.
      by apply elem_of_own_keys.
    + rewrite decide_False.
      * destruct (assoc_get k ps) eqn:E; [|done]. exfalso. apply Hin.
        apply elem_of_own_keys. rewrite map_fst_spread_props.
        apply elem_of_own_keys, assoc_get_is_Some. by eexists.
      * intros Hk. apply Hin. apply elem_of_own_keys. rewrite map_fst_spread_props.
        by apply elem_of_own_keys.
Qed.

End WildcardMapping.

(** ** The wildcard on an array, with a literal *)

Lemma elem_set_in_range es j x : j < length es → elem_set es j x = <[j := Some x]> es.
Proof. intros Hj. unfold elem_set. by rewrite (proj2 (Nat.ltb_lt _ _) Hj). Qed.

Section WildcardArray.
Variable call : fid → value → M value.
Variable ToNumber : heap → value → jsnum.

(** A literal write at an index of an array, on a copy. *)
Lemma direct_write_index fuel (h : heap) (r : nat) es named (j : nat) (x : value) :
  h !! r = Some (CArr es named) → literal h x → x ≠ VUndef →
  findDirectPropInObject call ToNumber (S fuel) (VRef r) (PIdx j) false (Some x) h
  = Ok (VRef (length h)) (h ++ [CArr (elem_set (spread_elems es) j x) []]).
Proof.
  intros Hr (t & Ht & Hnf) Hx.
  rewrite findDirectPropInObject_S. unfold findDirectPropInObject_body.
  mrun. simpl. mrun. simpl.
  erewrite bind_Ok
    by (apply getObjectType_type_in; eapply type_in_prefix; [apply prefix_alloc|done]).
  rewrite bool_decide_eq_false_2 by done. mrun.
  replace (is_undef x) with false by by destruct x. simpl.
  erewrite bind_Ok by (eapply set_prop_index; [apply lookup_alloc_new|done]).
  by rewrite insert_alloc_new.
Qed.

Lemma wildcard_array_loop (fuel : nat) (x : value) (h : heap) (n len : nat) :
  length h ≤ n → x ≠ VUndef → literal h x →
  ∀ m k es (hi : heap),
    k + m = len → hi !! n = Some (CArr es []) → length es = len →
    Forall is_Some es →
    (∀ i, len - k ≤ i → i < len → es !! i = Some (Some x)) →
    h `prefix_of` hi →
    ∃ es' h',
      forEach_from k m (VRef n) (fun item index =>
        let itemIndex := len - 1 - index in
        let* tv := getObjectType x in
        let* itemValue :=
          (if bool_decide (tv = TFunction)
           then let* cur := get_prop (VRef n) (PIdx itemIndex) in
                call_function call x cur
           else ret x) in
        if is_undef itemValue then
          findDirectPropInObject call ToNumber (S fuel) (VRef n) (PIdx itemIndex) true
            (Some VUndef) ;;; ret tt
        else
          let* newResult :=
            findDirectPropInObject call ToNumber (S fuel) (VRef n) (PIdx itemIndex) false
              (Some itemValue) in
          let* y := get_prop newResult (PIdx itemIndex) in
          set_prop ToNumber (VRef n) (PIdx itemIndex) y) hi = Ok tt h'
      ∧ h' !! n = Some (CArr es' []) ∧ length es' = len
      ∧ (∀ i, i < len → es' !! i = Some (Some x))
      ∧ h `prefix_of` h'.
Proof.
  intros Hn Hx Hlit0.
  induction m as [|m IH]; intros k es hi Hk Hcell Hlen Hdense Hdone Hp.
  { exists es, hi. split_and!; try done. intros i Hi. apply Hdone; lia. }
  pose proof (literal_prefix _ _ _ Hp Hlit0) as Hlit.
  assert (k < len) as Hklt by lia.
  destruct (lookup_lt_is_Some_2 es k) as [e He]; [lia|].
  assert (∃ item, e = Some item) as [item ->].
  { rewrite Forall_forall in Hdense.
    destruct (Hdense e (list_elem_of_lookup_2 _ _ _ He)) as [item ->]. by eexists. }
  set (j := len - 1 - k).
  assert (j < length es) as Hj by (unfold j; lia).
  set (h1 := hi ++ [CArr (elem_set (spread_elems es) j x) []]).
  set (es1 := <[j := Some x]> es).
  destruct Hlit as (t & Ht & Hnf).
  destruct (IH (S k) es1 (<[n := CArr es1 []]> h1)) as (es' & h' & Hloop & Hc' & Hl' & Hall' & Hp').
  - lia.
  - apply list_lookup_insert_eq. unfold h1. rewrite length_app.
    apply lookup_lt_Some in Hcell. lia.
  - unfold es1. by rewrite length_insert.
  - unfold es1. apply Forall_insert; [done|by eexists].
  - intros i Hi1 Hi2. unfold es1. destruct (decide (i = j)) as [->|Hne].
    + by rewrite list_lookup_insert_eq.
    + rewrite list_lookup_insert_ne by done. apply Hdone; unfold j in Hne; lia.
  - apply prefix_write; [|done]. etrans; [exact Hp|apply prefix_alloc].
  - exists es', h'. split_and!; try done.
    cbn [forEach_from].
    erewrite bind_Ok by (by eapply has_index_Ok). rewrite He. cbv iota.
    erewrite bind_Ok; [exact Hloop|].
    erewrite bind_Ok by (by apply get_prop_ref). cbv beta. fold j.
    erewrite bind_Ok by (by apply getObjectType_type_in).
    rewrite bool_decide_eq_false_2 by done. rewrite bind_ret.
    replace (is_undef x) with false by by destruct x.
    erewrite bind_Ok by (by apply (direct_write_index fuel hi n es [] j x Hcell
                                      (ex_intro _ t (conj Ht Hnf)))).
    erewrite bind_Ok by (apply get_prop_ref; [apply lookup_alloc_new|done]).
    change (cell_get (CArr (elem_set (spread_elems es) j x) []) (PIdx j))
      with (elem_get (elem_set (spread_elems es) j x) j).
    rewrite elem_get_set_eq.
    erewrite set_prop_index; [|by apply lookup_alloc_old|done].
    by rewrite elem_set_in_range.
Qed.

(** X10: [set(arr, '*', x)] with a literal [x] other than [undefined]: a
    new array of the same length, every element of which is [x], holes
    included. *)
Theorem wildcard_write_array (fuel : nat) (h : heap) (l : nat) elems named
    (p : string) (x : value) :
  h !! l = Some (CArr elems named) → parse_path p = ["*"] →
  literal h x → x ≠ VUndef →
  ∃ h',
    path_set call ToNumber (S (S (S fuel))) (VRef l) p x h = Ok (VRef (length h)) h'
    ∧ h' !! length h = Some (CArr (replicate (length elems) (Some x)) [])
    ∧ h `prefix_of` h'.
Proof.
  intros Hl Hp Hlit Hx.
  destruct (wildcard_array_loop fuel x h (length h) (length elems) (le_n _) Hx Hlit
              (length elems) 0 (spread_elems elems) (h ++ [CArr (spread_elems elems) []]))
    as (es' & h' & Hloop & Hc' & Hl' & Hall' & Hp').
  - done.
  - apply lookup_alloc_new.
  - unfold spread_elems. by rewrite length_map.
  - unfold spread_elems. apply Forall_fmap, Forall_true. intros e. by eexists.
  - intros i Hi1 Hi2. lia.
  - apply prefix_alloc.
  - exists h'. split_and!; [| |done].
    + unfold path_set. rewrite findPropInObject_S. unfold findPropInObject_body.
      mrun. rewrite Hp. simpl.
      rewrite findDirectPropInObject_S. unfold findDirectPropInObject_body.
      mrun. simpl. mrun. simpl.
      replace (is_undef x) with false by by destruct x.
      erewrite bind_Ok; [reflexivity|].
      erewrite bind_Ok by (eapply array_length_Ok, lookup_alloc_new).
      unfold forEach.
      erewrite bind_Ok by (eapply array_method_Ok; [apply lookup_alloc_new|done]).
      erewrite bind_Ok by (eapply array_length_Ok, lookup_alloc_new).
      assert (length (spread_elems elems) = length elems) as Hlen
        by (unfold spread_elems; by rewrite length_map).
      rewrite !Hlen. exact Hloop.
    + rewrite Hc'. do 2 f_equal. apply list_eq. intros i.
      destruct (decide (i < length elems)) as [Hi|Hi].
      * rewrite Hall' by done. by rewrite lookup_replicate_2.
      * rewrite !lookup_ge_None_2; [done|rewrite length_replicate; lia|lia].
Qed.

End WildcardArray.

(** ** Reading where nothing is *)

Lemma entered_prefix (b : bool) (h : heap) (c : cell) : h `prefix_of` entered_heap b h c.
Proof. destruct b; [done|apply prefix_alloc]. Qed.

Lemma entered_get_object (b : bool) ps (s : string) :
  cell_get (entered_cell b (CObj ps)) (PStr s) = default VUndef (assoc_get s ps).
Proof.
  destruct b; simpl; unfold named_get; simpl; [done|]. by rewrite assoc_get_spread.
Qed.

Lemma entered_visible (b : bool) ps (s : string) :
  inherited TObject (PStr s) = false →
  visible (entered_cell b (CObj ps)) (PStr s) = true.
Proof. intros H. apply visible_plain. by destruct b. Qed.

Section ReadMissing.
Variable call : fid → value → M value.
Variable ToNumber : heap → value → jsnum.

(** The read of one key that a mapping does not have. *)
Lemma direct_read_missing (fuel : nat) (h : heap) (l : nat) ps (s : string) (b : bool) :
  h !! l = Some (CObj ps) → s ≠ "*" → inherited TObject (PStr s) = false →
  assoc_get s ps = None →
  ∃ h', findDirectPropInObject call ToNumber (S fuel) (VRef l) (PStr s) b None h
        = Ok VUndef h' ∧ h `prefix_of` h'.
Proof.
  intros Hl Hstar Hin Hs.
  exists (entered_heap b h (CObj ps)). split; [|apply entered_prefix].
  rewrite findDirectPropInObject_S. unfold findDirectPropInObject_body.
  mrun. simpl. rewrite (bind_Ok _ _ _ _ _ (enter_run b h l _ Hl eq_refl)).
  destruct (prop_is (PStr s) ""); [done|]. rewrite prop_is_false by done.
  rewrite (get_prop_ref _ _ _ (PStr s) (enter_lookup b h l _ Hl))
    by by apply entered_visible.
  by rewrite entered_get_object, Hs.
Qed.

(** Any path without wildcard and without the name of a member of
    [Object.prototype] reads [undefined] in an empty mapping. *)
Lemma read_empty (b : bool) (segs : list string) :
  normal segs → Forall (fun s => s ≠ "*") segs →
  Forall (fun s => inherited TObject (PStr s) = false) segs →
  ∀ (fuel : nat) (e : nat) (p : string) (h : heap),
    parse_path p = segs → length segs < fuel → h !! e = Some (CObj []) →
    ∃ h', findPropInObject call ToNumber fuel (VRef e) p b None h = Ok VUndef h'
          ∧ h `prefix_of` h'.
Proof.
  induction segs as [|s rest IH]; intros Hnorm Hstar Hin fuel e p h Hparse Hfuel He.
  { by destruct Hnorm. }
  apply Forall_cons in Hstar as [Hs Hrest]. apply Forall_cons in Hin as [Hi Hirest].
  destruct fuel as [|fuel]; [lia|]. cbn [length] in Hfuel.
  rewrite findPropInObject_S. unfold findPropInObject_body.
  rewrite (bind_Ok _ _ _ _ _ (getObjectType_ref h e _ He)). rewrite Hparse.
  destruct rest as [|s2 rest'].
  { simpl. destruct fuel as [|fuel]; [lia|]. by apply direct_read_missing with []. }
  cbv iota. rewrite (bind_Ok _ _ _ _ _ (enter_run b h e _ He eq_refl)). simpl.
  assert (String.eqb s "*" = false) as -> by by apply String.eqb_neq.
  simpl.
  rewrite (bind_Ok _ _ _ _ _ (get_prop_ref _ _ _ (PStr s) (enter_lookup b h e _ He)
                                (entered_visible b [] s Hi))).
  rewrite entered_get_object. simpl. rewrite (bind_Ok _ _ _ _ _ (alloc_Ok _ _)).
  destruct (IH (normal_tail _ _ Hnorm ltac:(done)) Hrest Hirest fuel
              (length (entered_heap b h (CObj []))) (join_dots (s2 :: rest'))
              (entered_heap b h (CObj []) ++ [CObj []])) as (h' & Hrun & Hp').
  - apply parse_join_normal. by apply (normal_tail s).
  - cbn [length] in *. lia.
  - apply lookup_alloc_new.
  - exists h'. split; [done|].
    etrans; [apply (entered_prefix b h (CObj []))|]. etrans; [apply prefix_alloc|done].
Qed.


End ReadMissing.

(** ** Writing through a number or a boolean *)

Section PrimitiveRoot.
Variable call : fid → value → M value.
Variable ToNumber : heap → value → jsnum.

(** X13: a write with a path of two segments or more on a number or a
    boolean, where the first segment is not the name of a member of a
    built-in prototype ([toString], [__proto__], ...): the first segment
    holds nothing, and storing the empty mapping there raises a
    [TypeError], the module being in strict mode. *)
Theorem write_through_primitive (fuel : nat) (root : value) (p s s2 : string)
    (rest : list string) (b : bool) (x : value) (h : heap) :
  (∃ z, root = VNum z) ∨ (∃ t, root = VBool t) →
  parse_path p = s :: s2 :: rest → s ≠ "*" → member_name s = false →
  findPropInObject call ToNumber (S fuel) root p b (Some x) h
  = Throw TypeError (h ++ [CObj []]).
Proof.
  intros Hroot Hp Hs Hmem. rewrite findPropInObject_S. unfold findPropInObject_body.
  assert (String.eqb s "*" = false) as Hs' by by apply String.eqb_neq.
  assert (prop_is (PStr s) "__proto__" = false) as Hproto.
  { apply prop_is_false. by intros ->. }
  pose proof (member_name_inherited s TNumber Hmem) as Hnum.
  pose proof (member_name_inherited s TBoolean Hmem) as Hbool.
  destruct Hroot as [[z ->]|[t ->]]; unfold getObjectType; rewrite bind_ret, Hp;
    cbv iota; (destruct b; unfold shallow_copy; rewrite bind_ret; simpl; rewrite Hs';
               unfold get_prop; rewrite ?Hnum, ?Hbool; simpl;
               unfold bind, alloc, set_prop; by rewrite Hproto).
Qed.

End PrimitiveRoot.

(** ** A transformer as the replacement *)

(** What a mapping decides, it can be assigned. *)
Lemma visible_assignable ps p :
  visible (CObj ps) p = true → assignable (CObj ps) p = true.
Proof.
  unfold visible. intros [H|H]%orb_true_iff; [by apply assignable_has|].
  apply assignable_plain. by apply negb_true_iff.
Qed.

Section Transformer.
Variable call : fid → value → M value.
Variable ToNumber : heap → value → jsnum.

(** X11: [set(obj, k, f)] with a function [f], where [k] is a key of the
    mapping or not the name of a member of [Object.prototype]: [f] is
    called on what the copy holds at [k], and what it returns is stored
    there, or the key is deleted when it returns [undefined]. *)
Theorem transformer_write (fuel : nat) (h : heap) (l : nat) ps (p k : string)
    (lf : nat) (code : nat) (src : string) fps (y : value) (h2 : heap) :
  h !! l = Some (CObj ps) → parse_path p = [k] → k ≠ "" → k ≠ "*" →
  visible (CObj ps) (PStr k) = true →
  h !! lf = Some (CFun code src fps) →
  call code (default VUndef (assoc_get k ps)) (h ++ [CObj (spread_props ps)]) = Ok y h2 →
  h ++ [CObj (spread_props ps)] `prefix_of` h2 →
  path_set call ToNumber (S (S fuel)) (VRef l) p (VRef lf) h
  = Ok (VRef (length h))
       (<[length h := CObj (props_written k y (spread_props ps))]> h2).
Proof.
  intros Hl Hp Hk1 Hk2 Hvis Hlf Hcall Hpre. unfold path_set.
  pose proof (visible_assignable _ _ Hvis) as Hass.
  rewrite <- visible_spread in Hvis. rewrite <- assignable_spread in Hass.
  rewrite findPropInObject_S. unfold findPropInObject_body.
  mrun. rewrite Hp. simpl.
  rewrite findDirectPropInObject_S. unfold findDirectPropInObject_body.
  mrun. simpl. mrun. rewrite !prop_is_false by done. simpl.
  erewrite bind_Ok by (by apply getObjectType_ref, lookup_alloc_old).
  simpl. rewrite ?bool_decide_eq_true_2 by done.
  erewrite bind_Ok.
  2:{ erewrite bind_Ok by (apply get_prop_ref; [apply lookup_alloc_new|done]).
      unfold call_function.
      erewrite bind_Ok by (by apply read_cell_Ok, lookup_alloc_old).
      simpl. unfold named_get. simpl. rewrite assoc_get_spread. exact Hcall. }
  assert (h2 !! length h = Some (CObj (spread_props ps))) as Hcopy.
  { eapply prefix_lookup_Some; [apply lookup_alloc_new|exact Hpre]. }
  unfold props_written. destruct (is_undef y); simpl.
  - erewrite bind_Ok by (by apply delete_prop_object). done.
  - erewrite bind_Ok by (by apply set_prop_object). done.
Qed.

End Transformer.

(** ** What a write shares with the original *)

Lemma outcome_and {A} (R : heap → heap → Prop) (m : M A) (h : heap)
    (Q1 Q2 : A → heap → Prop) :
  outcome R m h Q1 → (∀ a h', m h = Ok a h' → Q2 a h') →
  outcome R m h (fun a h' => Q1 a h' ∧ Q2 a h').
Proof.
  unfold outcome. destruct (m h) as [a h'|e h'|]; [|done..].
  intros [HR HQ] H2. split; [done|]. split; [done|by apply H2].
Qed.

Section Sharing.
Variable call : fid → value → M value.
Variable ToNumber : heap → value → jsnum.

Lemma write_result_keys (fuel : nat) (h : heap) (l : nat) po (p s : string)
    (rest : list string) (x : value) (r : value) (h' : heap) :
  h !! l = Some (CObj po) → parse_path p = s :: rest → rest ≠ [] → s ≠ "*" →
  literal h x ∨ framed call →
  path_set call ToNumber fuel (VRef l) p x h = Ok r h' →
  r = VRef (length h)
  ∧ ∃ pr, h' !! length h = Some (CObj pr)
          ∧ ∀ k, k ≠ s → assoc_get k pr = assoc_get k po.
Proof.
  intros Hl Hp Hne Hs Hx. unfold path_set.
  destruct fuel as [|fuel]; [done|].
  rewrite findPropInObject_S. unfold findPropInObject_body.
  rewrite (bind_Ok _ _ _ _ _ (getObjectType_ref h l _ Hl)). rewrite Hp.
  destruct rest as [|s2 rest']; [done|]. cbv iota.
  erewrite bind_Ok by (by apply shallow_copy_object). simpl.
  assert (String.eqb s "*" = false) as -> by by apply String.eqb_neq.
  destruct (visible (CObj (spread_props po)) (PStr s)) eqn:Hvis; cycle 1.
  { unfold bind at 1. unfold get_prop, bind, read_cell.
    by rewrite lookup_alloc_new, Hvis. }
  pose proof (visible_assignable _ _ Hvis) as Hass.
  erewrite bind_Ok by (apply get_prop_ref; [apply lookup_alloc_new|done]).
  simpl. unfold named_get. simpl. rewrite assoc_get_spread.
  set (n0 := length h). set (h1 := h ++ [CObj (spread_props po)]).
  (* the store and the copy when the recursive call starts *)
  assert (∃ h3 pc,
    (if is_undef (default VUndef (assoc_get s po))
     then let* fresh := alloc (CObj []) in set_prop ToNumber (VRef n0) (PStr s) fresh
     else ret tt) h1 = Ok tt h3
    ∧ h3 !! n0 = Some (CObj pc) ∧ S n0 ≤ length h3
    ∧ (∀ k, k ≠ s → assoc_get k pc = assoc_get k po)
    ∧ visible (CObj pc) (PStr s) = true
    ∧ (literal h3 x ∨ framed call)) as (h3 & pc & Hprep & Hc3 & Hlen3 & Hpc & Hvc & Hx3).
  { assert (literal h1 x ∨ framed call) as Hx1.
    { destruct Hx as [Hx|Hx]; [left|by right].
      apply literal_prefix with h; [apply prefix_alloc|done]. }
    destruct (is_undef (default VUndef (assoc_get s po))).
    - exists (<[n0 := CObj (assoc_set s (VRef (length h1)) (spread_props po))]>
                (h1 ++ [CObj []])), (assoc_set s (VRef (length h1)) (spread_props po)).
      split_and!.
      + rewrite (bind_Ok _ _ _ _ _ (alloc_Ok _ _)).
        apply set_prop_object; [apply lookup_alloc_old, lookup_alloc_new|done].
      + apply list_lookup_insert_eq. unfold h1, n0. rewrite !length_app. simpl. lia.
      + rewrite length_insert. unfold h1, n0. rewrite !length_app. simpl. lia.
      + intros k Hk. by rewrite assoc_get_set_ne, assoc_get_spread.
      + eapply visible_has, cell_has_key, assoc_get_set_eq.
      + destruct Hx1 as [Hx1|Hx1]; [left|by right].
        eapply literal_same_types; [|apply literal_prefix with h1; [apply prefix_alloc|done]].
        apply (same_types_write _ _ (CObj (spread_props po)));
          [apply lookup_alloc_old, lookup_alloc_new|done].
    - exists h1, (spread_props po). split_and!; try done.
      + apply lookup_alloc_new.
      + unfold h1, n0. rewrite length_app. simpl. lia.
      + intros k _. apply assoc_get_spread. }
  rewrite (bind_Ok _ _ _ _ _ Hprep).
  erewrite bind_Ok by (by apply get_prop_ref).
  set (cur := cell_get (CObj pc) (PStr s)).
  pose proof (findPropInObject_ok call ToNumber (S n0) fuel cur (join_dots (s2 :: rest'))
                (Some x) h3 Hlen3) as Hok.
  unfold outcome in Hok. unfold bind at 1.
  destruct (findPropInObject call ToNumber fuel cur (join_dots (s2 :: rest')) false (Some x) h3)
    as [r0 h4|e h4|] eqn:Hrec; [|done..].
  destruct Hok as [[_ Hkeep] _].
  { intros v [= <-]. destruct Hx3; [by right|by left]. }
  assert (h4 !! n0 = Some (CObj pc)) as Hc4 by (apply Hkeep; [lia|done|done]).
  erewrite bind_Ok by (apply set_prop_object; [done|by apply visible_assignable]).
  intros [= <- <-]. split; [done|].
  exists (assoc_set s r0 pc). split.
  - apply list_lookup_insert_eq. by apply lookup_lt_Some in Hc4.
  - intros k Hk. rewrite assoc_get_set_ne by done. by apply Hpc.
Qed.

End Sharing.

(** ** The empty path *)

Section EmptyPath.
Variable call : fid → value → M value.
Variable ToNumber : heap → value → jsnum.

(** X14: on an array or a mapping the empty path reads [undefined], and a
    write at it stores nothing: what comes back is a shallow copy of the
    root, whatever the replacement. *)
Theorem empty_path (fuel : nat) (h : heap) (l : nat) (c : cell) (x : value) :
  h !! l = Some c → composite c →
  path_get call ToNumber (S (S fuel)) (VRef l) "" h = Ok VUndef (h ++ [cell_copy c])
  ∧ path_set call ToNumber (S (S fuel)) (VRef l) "" x h
    = Ok (VRef (length h)) (h ++ [cell_copy c]).
Proof.
  intros Hl Hc. unfold path_get, path_set.
  rewrite !findPropInObject_S. unfold findPropInObject_body.
  rewrite !(bind_Ok _ _ _ _ _ (getObjectType_ref h l _ Hl)).
  change (parse_path "") with [""]. simpl.
  rewrite !findDirectPropInObject_S. unfold findDirectPropInObject_body.
  rewrite !(bind_Ok _ _ _ _ _ (getObjectType_ref h l _ Hl)).
  unfold composite in Hc. rewrite Hc. simpl.
  by rewrite !(bind_Ok _ _ _ _ _ (shallow_copy_cell h l c Hl Hc)).
Qed.

End EmptyPath.

(** ** The wildcard in a read *)

Section WildcardRead.
Variable call : fid → value → M value.
Variable ToNumber : heap → value → jsnum.

Lemma wildcard_read_loop (fuel : nat) (p : string) (h : heap) (n : nat) es :
  Forall is_Some es →
  ∀ m k vs (hi : heap),
    k + m = length es → hi !! n = Some (CArr es []) → h `prefix_of` hi →
    Forall2 (fun e v => reads_as call ToNumber fuel (default VUndef e) p v h)
      (drop k es) vs →
    ∃ h',
      map_from k m (VRef n) (fun item =>
        findPropInObject call ToNumber fuel item p false None) hi
      = Ok (map Some vs) h'
      ∧ hi `prefix_of` h'.
Proof.
  intros Hdense. induction m as [|m IH]; intros k vs hi Hk Hcell Hp Hall.
  { rewrite drop_ge in Hall by lia. apply Forall2_nil_inv_l in Hall as ->.
    by exists hi. }
  destruct (lookup_lt_is_Some_2 es k) as [e He]; [lia|].
  assert (∃ item, e = Some item) as [item ->].
  { rewrite Forall_forall in Hdense.
    destruct (Hdense e (list_elem_of_lookup_2 _ _ _ He)) as [item ->]. by eexists. }
  rewrite (drop_S _ _ _ He) in Hall.
  apply Forall2_cons_inv_l in Hall as (v & vs' & Hv & Hrest & ->).
  simpl in Hv. destruct (Hv hi Hp) as (h1 & Hrun & Hp1).
  destruct (IH (S k) vs' h1) as (h' & Hloop & Hp').
  - lia.
  - by eapply prefix_lookup_Some.
  - by etrans.
  - done.
  - exists h'. split; [|by etrans].
    cbn [map_from].
    erewrite bind_Ok by (by eapply has_index_Ok). rewrite He. cbv iota.
    erewrite bind_Ok.
    2:{ erewrite bind_Ok by (by apply get_prop_ref).
        change (cell_get (CArr es []) (PIdx k)) with (elem_get es k).
        unfold elem_get. rewrite He.
        erewrite bind_Ok by exact Hrun. reflexivity. }
    erewrite bind_Ok by exact Hloop. done.
Qed.

(** X6: [get(arr, '*.rest')] on an array: the rest of the path is read in
    every element of the array (a hole counting as [undefined]) and the
    results come back in a new array, in order. *)
Theorem wildcard_read_array (fuel : nat) (h : heap) (l : nat) elems named
    (p : string) (rest : list string) (vs : list value) :
  h !! l = Some (CArr elems named) → parse_path p = "*" :: rest → rest ≠ [] →
  Forall2 (fun e v => reads_as call ToNumber fuel (default VUndef e) (join_dots rest) v h)
    elems vs →
  ∃ r h',
    path_get call ToNumber (S fuel) (VRef l) p h = Ok (VRef r) h'
    ∧ h' !! r = Some (CArr (map Some vs) []) ∧ h `prefix_of` h'.
Proof.
  intros Hl Hp Hne Hall.
  destruct (wildcard_read_loop fuel (join_dots rest) h (length h) (spread_elems elems))
    with (m := length elems) (k := 0) (vs := vs)
         (hi := h ++ [CArr (spread_elems elems) []]) as (h' & Hloop & Hp').
  - unfold spread_elems. apply Forall_fmap, Forall_true. intros e. by eexists.
  - unfold spread_elems. by rewrite length_map.
  - apply lookup_alloc_new.
  - apply prefix_alloc.
  - rewrite drop_0. unfold spread_elems. apply Forall2_fmap_l.
    eapply Forall2_impl; [exact Hall|]. by intros e v Hv.
  - exists (length h'), (h' ++ [CArr (map Some vs) []]). split_and!.
    + unfold path_get. rewrite findPropInObject_S. unfold findPropInObject_body.
      rewrite (bind_Ok _ _ _ _ _ (getObjectType_ref h l _ Hl)). rewrite Hp.
      destruct rest as [|s2 rest']; [done|]. cbv iota.
      rewrite (bind_Ok _ _ _ _ _ (shallow_copy_array h l _ _ Hl)). simpl.
      unfold array_map.
      erewrite bind_Ok by (eapply array_method_Ok; [apply lookup_alloc_new|done]).
      erewrite bind_Ok by (eapply array_length_Ok, lookup_alloc_new).
      assert (length (spread_elems elems) = length elems) as ->
        by (unfold spread_elems; by rewrite length_map).
      erewrite bind_Ok by exact Hloop. done.
    + apply lookup_alloc_new.
    + etrans; [apply prefix_alloc|]. etrans; [exact Hp'|apply prefix_alloc].
Qed.

End WildcardRead.

(** * Examples and consequences *)

(** ** The path parser *)

Lemma parse_render_path_witness :
  parse_path (render_path "data" [Dot "entries"; Bracket "0"; Bracket "3"; Dot "title"])
  = ["data"; "entries"; "0"; "3"; "title"].
Proof.
  apply (parse_render_path "data" [Dot "entries"; Bracket "0"; Bracket "3"; Dot "title"]);
    [by split|].
  repeat (constructor; [by split|]). constructor.
Defined.

Lemma parse_render_bracket_witness :
  parse_path (render_accessors [Bracket "0"; Dot "title"; Bracket "k"]) = ["0"; "title"; "k"].
Proof.
  apply (parse_render_bracket "0" [Dot "title"; Bracket "k"]); [by split|].
  repeat (constructor; [by split|]). constructor.
Defined.

(** ** Reads *)

(** [{a: [1, {}], b: "x"}], the store of the [deepCopy] example, holds
    values of the store only. *)
Lemma copy_heap_closed : closed copy_heap.
Proof.
  intros l c Hl. destruct l as [|[|[|l]]]; simpl in Hl; try done;
    injection Hl as <-; repeat constructor; by eexists.
Qed.

Lemma read_returns_witness :
  ∃ v h',
    findPropInObject call_none ToNumber_decimal 5 (VRef 0) "a[1].z" false None copy_heap
    = Ok v h'
    ∧ copy_heap `prefix_of` h' ∧ closed h' ∧ valid h' v.
Proof.
  apply (read_returns call_none ToNumber_decimal 5 (VRef 0) "a[1].z" false copy_heap
           copy_heap_closed).
  - by eexists.
  - done.
  - done.
  - vm_compute. repeat (constructor; [done|]). constructor.
  - vm_compute. repeat (constructor; [done|]). constructor.
  - vm_compute. lia.
Defined.


(** An array of two mappings. *)
Definition items_heap : heap :=
  [CArr [Some (VRef 1); Some (VRef 2)] []; CObj [("k", VNum 1)]; CObj [("k", VNum 2)]].

Lemma wildcard_read_array_witness :
  ∃ r h',
    path_get call_none ToNumber_decimal 3 (VRef 0) "*.k" items_heap = Ok (VRef r) h'
    ∧ h' !! r = Some (CArr (map Some [VNum 1; VNum 2]) [])
    ∧ items_heap `prefix_of` h'.
Proof.
  apply (wildcard_read_array call_none ToNumber_decimal 2 items_heap 0
           [Some (VRef 1); Some (VRef 2)] [] "*.k" ["k"] [VNum 1; VNum 2]).
  - done.
  - by vm_compute.
  - done.
  - constructor; [|constructor; [|constructor]].
    + by apply (reads_as_key call_none ToNumber_decimal 0 items_heap 1 [("k", VNum 1)] "k").
    + by apply (reads_as_key call_none ToNumber_decimal 0 items_heap 2 [("k", VNum 2)] "k").
Defined.

(** ** Writes *)

Section RemoveIndex.
Variable call : fid → value → M value.
Variable ToNumber : heap → value → jsnum.

(** X7: removing at an index of an array: the element is spliced out of
    the copy, so the elements after it move one place down and the array
    is one shorter. *)
Theorem remove_index_shifts (fuel : nat) (h : heap) (l : nat) elems named
    (p s : string) (i : nat) :
  h !! l = Some (CArr elems named) →
  parse_path p = [s] → s ≠ "" → s ≠ "*" →
  (∀ h', ToNumber h' (VStr s) = NInt (Z.of_nat i)) → i < length elems →
  path_remove call ToNumber (S (S fuel)) (VRef l) p h
  = Ok (VRef (length h))
       (h ++ [CArr (take i (spread_elems elems) ++ drop (S i) (spread_elems elems)) []]).
Proof.
  intros Hl Hp Hne Hstar Hnum Hi.
  rewrite (remove_array call ToNumber fuel h l elems named p s _ Hl Hp Hne Hstar Hnum).
  rewrite splice_start_index, Nat.min_l by lia. done.
Qed.

(** X8: removing at a key of an array that is not a number: [splice]
    takes the key for position 0, and it is the first element that goes. *)
Theorem remove_non_number_takes_first (fuel : nat) (h : heap) (l : nat) elems named
    (p s : string) :
  h !! l = Some (CArr elems named) →
  parse_path p = [s] → s ≠ "" → s ≠ "*" →
  (∀ h', ToNumber h' (VStr s) = NNaN) →
  path_remove call ToNumber (S (S fuel)) (VRef l) p h
  = Ok (VRef (length h)) (h ++ [CArr (drop 1 (spread_elems elems)) []]).
Proof.
  intros Hl Hp Hne Hstar Hnum.
  by rewrite (remove_array call ToNumber fuel h l elems named p s _ Hl Hp Hne Hstar Hnum).
Qed.

End RemoveIndex.

Definition three_heap : heap := [CArr [Some (VNum 1); Some (VNum 2); Some (VNum 3)] []].

Lemma remove_index_shifts_witness :
  path_remove call_none ToNumber_decimal 2 (VRef 0) "[1]" three_heap
  = Ok (VRef 1) (three_heap ++ [CArr [Some (VNum 1); Some (VNum 3)] []]).
Proof.
  apply (remove_index_shifts call_none ToNumber_decimal 0 three_heap 0
           [Some (VNum 1); Some (VNum 2); Some (VNum 3)] [] "[1]" "1" 1);
    try done; simpl; lia.
Defined.

Lemma remove_non_number_takes_first_witness :
  path_remove call_none ToNumber_decimal 2 (VRef 0) "last" three_heap
  = Ok (VRef 1) (three_heap ++ [CArr [Some (VNum 2); Some (VNum 3)] []]).
Proof.
  by apply (remove_non_number_takes_first call_none ToNumber_decimal 0 three_heap 0
              [Some (VNum 1); Some (VNum 2); Some (VNum 3)] [] "last" "last").
Defined.

Definition pair_heap : heap := [CObj [("a", VNum 1); ("b", VNum 2)]].

Lemma wildcard_write_mapping_witness :
  ∃ pr,
    path_set call_none ToNumber_decimal 3 (VRef 0) "*" (VNum 0) pair_heap
    = Ok (VRef 1) (pair_heap ++ [CObj pr])
    ∧ ∀ k, assoc_get k pr
           = if decide (k ∈ map fst [("a", VNum 1); ("b", VNum 2)])
             then (if is_undef (VNum 0) then None else Some (VNum 0)) else None.
Proof.
  apply (wildcard_write_mapping call_none ToNumber_decimal 0 pair_heap 0
           [("a", VNum 1); ("b", VNum 2)] "*" (VNum 0)).
  - done.
  - done.
  - by exists TNumber.
  - repeat (constructor; [done|]). constructor.
Defined.

Lemma wildcard_write_array_witness :
  ∃ h',
    path_set call_none ToNumber_decimal 3 (VRef 0) "*" (VNum 0) three_heap = Ok (VRef 1) h'
    ∧ h' !! 1 = Some (CArr (replicate 3 (Some (VNum 0))) [])
    ∧ three_heap `prefix_of` h'.
Proof.
  apply (wildcard_write_array call_none ToNumber_decimal 0 three_heap 0
           [Some (VNum 1); Some (VNum 2); Some (VNum 3)] [] "*" (VNum 0)).
  - done.
  - done.
  - by exists TNumber.
  - done.
Defined.

(** A mapping and a function that returns its argument. *)
Definition identity_heap : heap := [CObj [("a", VNum 1)]; CFun 0 "x => x" []].

Lemma transformer_write_witness :
  path_set call_identity ToNumber_decimal 2 (VRef 0) "a" (VRef 1) identity_heap
  = Ok (VRef 2) (identity_heap ++ [CObj [("a", VNum 1)]]).
Proof.
  apply (transformer_write call_identity ToNumber_decimal 0 identity_heap 0
           [("a", VNum 1)] "a" "a" 1 0 "x => x" [] (VNum 1)
           (identity_heap ++ [CObj [("a", VNum 1)]])); done.
Defined.

(** A mapping with two mappings in it. *)
Definition shared_heap : heap := [CObj [("a", VRef 1); ("b", VRef 2)]; CObj []; CObj []].

Section Shares.
Variable call : fid → value → M value.
Variable ToNumber : heap → value → jsnum.


End Shares.


(** The run of that write: the new root at 3 holds the new mapping 4 at
    [a] and, at [b], the mapping 2 of the original. *)
Lemma write_shares_example :
  path_set call_none ToNumber_decimal 3 (VRef 0) "a.c" (VNum 1) shared_heap
  = Ok (VRef 3)
       (shared_heap ++ [CObj [("a", VRef 4); ("b", VRef 2)]; CObj [("c", VNum 1)]]).
Proof. by vm_compute. Qed.

Lemma write_through_primitive_witness :
  findPropInObject call_none ToNumber_decimal 1 (VNum 5) "a.b" false (Some (VNum 1)) []
  = Throw TypeError ([] ++ [CObj []]).
Proof.
  apply (write_through_primitive call_none ToNumber_decimal 0 (VNum 5) "a.b" "a" "b" []
           false (VNum 1) []); [left; by eexists|by vm_compute|done|by vm_compute].
Defined.

Lemma empty_path_witness :
  path_get call_none ToNumber_decimal 2 (VRef 0) "" pair_heap
  = Ok VUndef (pair_heap ++ [cell_copy (CObj [("a", VNum 1); ("b", VNum 2)])])
  ∧ path_set call_none ToNumber_decimal 2 (VRef 0) "" (VNum 7) pair_heap
    = Ok (VRef (length pair_heap))
        (pair_heap ++ [cell_copy (CObj [("a", VNum 1); ("b", VNum 2)])]).
Proof.
  by apply (empty_path call_none ToNumber_decimal 0 pair_heap 0
              (CObj [("a", VNum 1); ("b", VNum 2)]) (VNum 7)).
Defined.

(** ** [queryObject] *)

(** A query with two keys and the mapping it is put to. *)
Definition query_heap : heap :=
  [CObj [("x", VStr "a"); ("y", VStr "b")]; CObj [("a", VNum 1); ("b", VNum 2)]].

Definition query_answer (p : string) : value :=
  default VUndef (assoc_get p [("a", VNum 1); ("b", VNum 2)]).

Lemma queryObject_object_witness :
  ∃ r pr h',
    queryObject call_none ToNumber_decimal 2 (VRef 0) (VRef 1) query_heap = Ok (VRef r) h'
    ∧ query_heap `prefix_of` h' ∧ length query_heap ≤ r ∧ h' !! r = Some (CObj pr)
    ∧ ∀ k, assoc_get k pr
           = answers query_answer [("x", VStr "a"); ("y", VStr "b")] k.
Proof.
  apply (queryObject_object call_none ToNumber_decimal 1 (VRef 1) query_answer
           query_heap 0 [("x", VStr "a"); ("y", VStr "b")]); [done|].
  constructor; [|constructor; [|constructor]].
  - exists "a". split; [done|].
    by apply (reads_as_key call_none ToNumber_decimal 0 query_heap 1
                [("a", VNum 1); ("b", VNum 2)] "a").
  - exists "b". split; [done|].
    by apply (reads_as_key call_none ToNumber_decimal 0 query_heap 1
                [("a", VNum 1); ("b", VNum 2)] "b").
Defined.

(** No object of the store has a printing method of its own: a property
    [toString], [valueOf] or [join] that is a function.  These are the
    methods that the built-in [toString] and [join] look up on an object;
    one that the object has itself is code of the caller, which may do
    anything. *)
Definition builtin_printing (h : heap) : Prop :=
  ∀ l c k m, h !! l = Some c → k ∈ ["toString"; "valueOf"; "join"] →
    own_method c k = Some m → type_in h m ≠ Some TFunction.

Section AddOnly.
Variable call : fid → value → M value.
Variable ToNumber : heap → value → jsnum.

(** X16: in a store no object of which has a printing method of its own,
    whatever the query and the object, and whether it returns or raises,
    [queryObject] changes no object of the store: the store it leaves is
    the one it found, with new objects after it. *)
Theorem queryObject_adds_only (fuel : nat) (query obj : value) (h : heap) :
  builtin_printing h →
  outcome prefix (queryObject call ToNumber fuel query obj) h (fun _ _ => True).
Proof. intros _. by apply outcome_below_prefix, queryObject_below. Qed.

(** X20: [applyDefaults] changes no object of the store either, whatever
    its arguments. *)
Theorem applyDefaults_adds_only (fuel : nat) (settings defaults : value) (h : heap) :
  outcome prefix (applyDefaults fuel settings defaults) h (fun _ _ => True).
Proof. by apply outcome_below_prefix, applyDefaults_below. Qed.

(** X21: nor does [deepCopy], on any value: it writes to the copies it
    creates only. *)
Theorem deepCopy_adds_only (fuel : nat) (v : value) (h : heap) :
  outcome prefix (deepCopy ToNumber fuel v) h (fun _ _ => True).
Proof. by apply outcome_below_prefix, deepCopy_below. Qed.

(** X22: in a store no object of which has a printing method of its own,
    [deepCompare] only reads: whatever its arguments, and whether it
    returns or raises, the store is the same afterwards. *)
Theorem deepCompare_reads_only (fuel : nat) (a b : value) (h : heap) :
  builtin_printing h →
  match deepCompare fuel a b h with
  | Ok _ h' | Throw _ h' => h' = h
  | Stuck => True
  end.
Proof. intros _. apply pure_deepCompare. Qed.


(** X17: the deep copy of a finite nesting of dense sequences and
    mappings (no object of which has a property [toString] of its own,
    and no mapping the key [__proto__]) has the shape of the original, a
    sequence of the same length for a sequence and a mapping with the
    same keys for a mapping, and is made of new objects only: no array
    and no mapping of the copy is one of the store the copy was made
    from, which is left as it was. *)
Theorem deepCopy_fresh (d fuel : nat) (h : heap) (v : value) :
  nested d h v → d < fuel →
  ∃ v' h', deepCopy ToNumber fuel v h = Ok v' h' ∧ h `prefix_of` h'
           ∧ copies d h (length h) h' v' v.
Proof. intros Hv Hf. by apply deepCopy_copies. Qed.

End AddOnly.

Lemma query_heap_printing : builtin_printing query_heap.
Proof.
  intros l c k m Hl Hk Hm.
  destruct l as [|[|l]]; simpl in Hl; [| |done]; injection Hl as <-;
    repeat (apply elem_of_cons in Hk as [->|Hk]); try done;
    by apply elem_of_nil in Hk.
Qed.

Lemma queryObject_adds_only_witness :
  outcome prefix (queryObject call_none ToNumber_decimal 2 (VRef 0) (VRef 1)) query_heap
    (fun _ _ => True).
Proof.
  apply (queryObject_adds_only call_none ToNumber_decimal 2 (VRef 0) (VRef 1) query_heap).
  exact query_heap_printing.
Defined.

Lemma deepCompare_reads_only_witness :
  match deepCompare 3 (VRef 0) (VRef 1) query_heap with
  | Ok _ h' | Throw _ h' => h' = query_heap
  | Stuck => True
  end.
Proof.
  apply (deepCompare_reads_only 3 (VRef 0) (VRef 1) query_heap).
  exact query_heap_printing.
Defined.

(** Settings [{a: {x: 1}}] and defaults [{a: {y: 2}, b: 3}]. *)
Definition defaults_heap : heap :=
  [CObj [("a", VRef 2)]; CObj [("a", VRef 3); ("b", VNum 3)];
   CObj [("x", VNum 1)]; CObj [("y", VNum 2)]].


Lemma applyDefaults_null_witness :
  ∃ h', applyDefaults 1 VNull (VRef 0) pair_heap = Throw TypeError h'
        ∧ pair_heap `prefix_of` h'.
Proof.
  by apply (applyDefaults_null 0 pair_heap 0 [("a", VNum 1); ("b", VNum 2)]).
Defined.

Lemma deepCopy_fresh_witness :
  ∃ v' h', deepCopy ToNumber_decimal 4 (VRef 0) copy_heap = Ok v' h'
           ∧ copy_heap `prefix_of` h'
           ∧ copies 3 copy_heap (length copy_heap) h' v' (VRef 0).
Proof.
  apply (deepCopy_fresh ToNumber_decimal 3 4 copy_heap (VRef 0)); [|lia].
  simpl. repeat first [done | constructor | eexists].
Defined.

(** ** [deepCompare] *)





(** The values that are not objects. *)
Inductive prim : Type :=
  | PUndef | PNull | PBool (b : bool) | PNum (z : Z) | PText (s : string).

Definition prim_value (p : prim) : value :=
  match p with
  | PUndef => VUndef
  | PNull => VNull
  | PBool b => VBool b
  | PNum z => VNum z
  | PText s => VStr s
  end.

#[global] Instance prim_eq_dec : EqDecision prim.
Proof. solve_decision. Defined.

(** X25: on two values that are not objects [deepCompare] is equality:
    the kinds are compared first, the printed forms last, and two values
    of one kind print alike only when they are the same. *)
Theorem deepCompare_prim (fuel : nat) (h : heap) (a b : prim) :
  deepCompare (S (S fuel)) (prim_value a) (prim_value b) h = Ok (bool_decide (a = b)) h.
Proof.
  rewrite deepCompare_primitives by by destruct a, b.
  f_equal. apply bool_decide_ext. split; [|by intros ->].
  destruct a, b; simpl; intros [=]; by subst.
Qed.

(** ** [mergeObjects] *)


